(** * sf-seeder: plan graph resolution, token expansion and id remapping

    A shallow embedding of
    - [src/src/utils/faker.ts]              (resolveFakerExpression)
    - [src/src/commands/seeder/plan/run.ts] (isSuccess, processStep, processValue)
    - [src/src/commands/seeder/plan/generate.ts]
                                            (getSmartOrderedPlan, detectCyclesAndPrompt)
    - [src/unnamed/part_001]                (runMigrationPlan,
                                             resolveReferencesWithFieldMap)

    JavaScript strings are [String.string]; [Map]s and [Record]s are
    association lists in insertion order (a [Map.set] on an existing key keeps
    its position); console output and warnings are lists of events. *)

From Stdlib Require Import String Ascii List Bool Arith Lia.
From Stdlib Require Import Numbers.DecimalString Sorting.Permutation.
Import ListNotations.
Open Scope string_scope.
Open Scope list_scope.
Set Warnings "-register-all".


(* ------------------------------------------------------------------ *)
(** ** JavaScript string primitives used by the sources *)

Module Js.

(** [s.startsWith(p)] *)
Definition startsWith (s p : string) : bool := String.prefix p s.

(** [s.endsWith(p)] *)
Definition endsWith (s p : string) : bool :=
  Nat.leb (String.length p) (String.length s) &&
  String.eqb (substring (String.length s - String.length p) (String.length p) s) p.

(** [s.slice(a, -b)] for [a + b <= s.length] *)
Definition slice_from_to_end (a b : nat) (s : string) : string :=
  substring a (String.length s - a - b) s.

(** [s.substring(0, n)] *)
Definition take (n : nat) (s : string) : string := substring 0 n s.

(** [s.split(c)] for a one-character separator: always at least one part. *)
Fixpoint split_char (c : ascii) (s : string) : list string :=
  match s with
  | EmptyString => [EmptyString]
  | String d rest =>
      let parts := split_char c rest in
      if Ascii.eqb c d then EmptyString :: parts
      else match parts with
           | p :: ps => String d p :: ps
           | [] => [String d EmptyString]
           end
  end.

(** [s.split("->")]: split on the two-character separator, left to right. *)
Fixpoint split_arrow (s : string) : list string :=
  match s with
  | EmptyString => [EmptyString]
  | String "-" (String ">" rest) => EmptyString :: split_arrow rest
  | String d rest =>
      match split_arrow rest with
      | p :: ps => String d p :: ps
      | [] => [String d EmptyString]
      end
  end.

(** White space removed by [String.prototype.trim] (the ASCII part of it). *)
Definition is_ws (c : ascii) : bool :=
  match nat_of_ascii c with
  | 9 | 10 | 11 | 12 | 13 | 32 => true
  | _ => false
  end.

Fixpoint trim_start (s : string) : string :=
  match s with
  | String c rest => if is_ws c then trim_start rest else s
  | EmptyString => EmptyString
  end.

Fixpoint rev_string (s : string) : string :=
  match s with
  | EmptyString => EmptyString
  | String c rest => rev_string rest ++ String c EmptyString
  end.

(** [s.trim()] *)
Definition trim (s : string) : string :=
  rev_string (trim_start (rev_string (trim_start s))).

(** [s.replace(/pat/g, rep)] for a literal pattern [pat] (the regex
    [/#\{counter\}/g] matches the literal "#{counter}"): scan left to right,
    replacing non-overlapping occurrences. *)
Fixpoint replace_all_fuel (fuel : nat) (pat rep s : string) : string :=
  match fuel with
  | O => s
  | S f =>
      match s with
      | EmptyString => EmptyString
      | String c rest =>
          if String.prefix pat s then
            rep ++ replace_all_fuel f pat rep
                     (substring (String.length pat) (String.length s - String.length pat) s)
          else String c (replace_all_fuel f pat rep rest)
      end
  end.

Definition replace_all (pat rep s : string) : string :=
  replace_all_fuel (S (String.length s)) pat rep s.

(** [n.toString()] for a natural number *)
Definition nat_to_string (n : nat) : string :=
  NilEmpty.string_of_uint (Nat.to_uint n).

End Js.

(* ------------------------------------------------------------------ *)
(** ** Maps: JavaScript [Map] and plain objects as association lists *)

Module AMap.

Section Maps.
Context {V : Type}.

(** [m.get(k)] *)
Fixpoint get (k : string) (m : list (string * V)) : option V :=
  match m with
  | [] => None
  | (k', v) :: rest => if String.eqb k k' then Some v else get k rest
  end.

(** [m.has(k)] *)
Definition has (k : string) (m : list (string * V)) : bool :=
  match get k m with Some _ => true | None => false end.

(** [m.set(k, v)]: an existing key keeps its position, a new key goes last. *)
Fixpoint set (k : string) (v : V) (m : list (string * V)) : list (string * V) :=
  match m with
  | [] => [(k, v)]
  | (k', v') :: rest =>
      if String.eqb k k' then (k', v) :: rest else (k', v') :: set k v rest
  end.

(** [m.delete(k)] *)
Fixpoint delete (k : string) (m : list (string * V)) : list (string * V) :=
  match m with
  | [] => []
  | (k', v') :: rest =>
      if String.eqb k k' then rest else (k', v') :: delete k rest
  end.

End Maps.

(** A [Set<string>] in insertion order; [add] does nothing on a member. *)
Definition set_add (x : string) (s : list string) : list string :=
  if existsb (String.eqb x) s then s else s ++ [x].

Definition set_delete (x : string) (s : list string) : list string :=
  filter (fun y => negb (String.eqb x y)) s.

Definition set_has (x : string) (s : list string) : bool :=
  existsb (String.eqb x) s.

End AMap.

(* ------------------------------------------------------------------ *)
(** ** Data model ([src/src/types/index.ts]) *)

(** [FieldValue = string | number | boolean | null]; numbers of a plan are
    kept as integers. *)
Inductive FieldValue :=
| FString (s : string)
| FNumber (n : nat)
| FBool (b : bool)
| FNull.

(** [SuccessResult]: [id] is [None] when the platform returned no string. *)
Record SuccessResult := mkResult {
  success : bool;
  id : option string;
  errors : list string
}.

Record SeedingStep := mkStep {
  sobject : string;
  count : nat;
  saveRefs : bool;
  fields : list (string * FieldValue)
}.

(** Log and warning output of the commands, as structured events. *)
Inductive Event :=
| WarnInvalidFakerPath (expression : string)
| WarnReferenceNotFound (refKey : string)
| LogInserting (sobj : string) (n : nat)
| WarnNoRecords (sobj : string)
| WarnFailedInserts (n : nat)
| WarnFailedInsert (r : SuccessResult)
| LogInserted (succeeded total : nat)
| LogValidating (sobj : string)
| LogMigrationStep (sobj : string) (what : string)
| ErrorReported (msg : string).

(** A thrown JavaScript value: an [Error] with its message, or anything else. *)
Inductive Exn :=
| ExnError (msg : string)
| ExnOther.

(** The message the [catch] blocks extract:
    [error instanceof Error ? error.message : 'Unknown error']. *)
Definition exn_message (e : Exn) : string :=
  match e with ExnError m => m | ExnOther => "Unknown error" end.

(** Outcome of a call to an external service (query, describe, insert). *)
Inductive Throws (A : Type) :=
| Returns (a : A)
| Raises (e : Exn).
Arguments Returns {A} a.
Arguments Raises {A} e.

(** A small state-and-exception monad: the state is the log written so far. *)
Module Cmd.

Definition M (A : Type) : Type := list Event -> list Event * Throws A.

Definition ret {A} (a : A) : M A := fun l => (l, Returns a).

Definition bind {A B} (m : M A) (k : A -> M B) : M B :=
  fun l => match m l with
           | (l', Returns a) => k a l'
           | (l', Raises e) => (l', Raises e)
           end.

Definition emit (ev : Event) : M unit := fun l => (l ++ [ev], Returns tt).

Definition emit_all (evs : list Event) : M unit := fun l => (l ++ evs, Returns tt).

Definition throw {A} (e : Exn) : M A := fun l => (l, Raises e).

Definition lift {A} (t : Throws A) : M A := fun l => (l, t).

(** [try { m } catch (e) { h(e) }] *)
Definition try_catch {A} (m : M A) (h : Exn -> M A) : M A :=
  fun l => match m l with
           | (l', Returns a) => (l', Returns a)
           | (l', Raises e) => h e l'
           end.

(** [this.error(msg)] of an oclif command: reports the message and throws,
    which ends the command. *)
Definition this_error {A} (msg : string) : M A :=
  bind (emit (ErrorReported msg)) (fun _ => throw (ExnError msg)).

End Cmd.

Notation "x <- m ;; k" := (Cmd.bind m (fun x => k))
  (at level 61, m at next level, right associativity).
Notation "m ;;; k" := (Cmd.bind m (fun _ => k))
  (at level 61, right associativity).

(* ------------------------------------------------------------------ *)
(** ** [src/src/utils/faker.ts]: resolveFakerExpression *)

Module Faker.

(** The generator namespace [faker] as a JavaScript value.  Calling a
    function yields its result, or [None] when the call throws. *)
Inductive jsval :=
| JUndefined
| JNull
| JStr (s : string)
| JNum (n : nat)
| JBool (b : bool)
| JObject (props : list (string * jsval))
| JFunction (call : option jsval).

(** [result[part]]; [None] is the TypeError of a property read on
    [undefined] or [null].  Of the properties of primitives only a string's
    [length] is modelled. *)
Definition get_prop (v : jsval) (part : string) : option jsval :=
  match v with
  | JUndefined | JNull => None
  | JObject props =>
      match AMap.get part props with Some x => Some x | None => Some JUndefined end
  | JStr s => Some (if String.eqb part "length" then JNum (String.length s) else JUndefined)
  | _ => Some JUndefined
  end.

(** How the [for (const part of parts)] loop ends. *)
Inductive walk_outcome :=
| WalkDone (result : jsval)
| WalkUndefined
| WalkThrew.

(** The loop body: call the property when it is a function, otherwise read
    it; stop with the warning case on [undefined] or [null]. *)
Fixpoint walk (result : jsval) (parts : list string) : walk_outcome :=
  match parts with
  | [] => WalkDone result
  | part :: rest =>
      match get_prop result part with
      | None => WalkThrew
      | Some (JFunction None) => WalkThrew
      | Some v =>
          let next := match v with JFunction (Some r) => r | _ => v end in
          match next with
          | JUndefined | JNull => WalkUndefined
          | _ => walk next rest
          end
      end
  end.

(** [String(result)] for the values that are neither strings nor numbers. *)
Definition js_to_string (v : jsval) : string :=
  match v with
  | JUndefined => "undefined"
  | JNull => "null"
  | JStr s => s
  | JNum n => Js.nat_to_string n
  | JBool true => "true"
  | JBool false => "false"
  | JObject _ => "[object Object]"
  | JFunction _ => "function"
  end.

(** [resolveFakerExpression(value, warn)]: the result ([None] is [null])
    and the warnings passed to [warn]. *)
Definition resolveFakerExpression (faker : jsval) (value : string)
  : option FieldValue * list Event :=
  if negb (Js.startsWith value "#{faker.") || negb (Js.endsWith value "}")
  then (None, [])
  else
    let expression := Js.slice_from_to_end 8 1 value in
    let parts := Js.split_char "." expression in
    match walk faker parts with
    | WalkThrew => (None, [])
    | WalkUndefined => (None, [WarnInvalidFakerPath expression])
    | WalkDone (JStr s) => (Some (FString s), [])
    | WalkDone (JNum n) => (Some (FNumber n), [])
    | WalkDone v => (Some (FString (js_to_string v)), [])
    end.

End Faker.

(* ------------------------------------------------------------------ *)
(** ** [src/src/commands/seeder/plan/run.ts]: the token expander and the
    execution driver *)

Module Run.

(** [referenceMap]: object type -> retained successes. *)
Definition ReferenceMap := list (string * list SuccessResult).

(** A record built for a bulk insert. *)
Definition SRecord := list (string * FieldValue).

(** One draw of [Math.random()], the value [num / den] of [[0, 1)]. *)
Record Draw := mkDraw { draw_num : nat; draw_den : nat }.

Definition valid_draw (d : Draw) : Prop := draw_num d < draw_den d.

(** [Math.floor(Math.random() * n)] *)
Definition random_index (d : Draw) (n : nat) : nat :=
  (draw_num d * n) / draw_den d.

(** The value [random.id] puts in the record ([null] when no id string). *)
Definition id_value (r : SuccessResult) : FieldValue :=
  match id r with Some s => FString s | None => FNull end.

(** [isSuccess]: [result.success === true && typeof result.id === 'string'] *)
Definition isSuccess (r : SuccessResult) : bool :=
  success r && match id r with Some _ => true | None => false end.

(** The reference-token test of [processValue]. *)
Definition is_reference_token (s : string) : bool :=
  Js.startsWith s "@{" && Js.endsWith s "}".

(** [resolved.slice(2, -1).split('.')[0]] *)
Definition ref_key (s : string) : string :=
  hd "" (Js.split_char "." (Js.slice_from_to_end 2 1 s)).

(** [processValue(value, counter, isDryRun, referenceMap)], returning the
    value and the warnings it emits. *)
Definition processValue (faker : Faker.jsval) (value : FieldValue) (counter : nat)
  (isDryRun : bool) (referenceMap : ReferenceMap) (d : Draw)
  : FieldValue * list Event :=
  match value with
  | FString v =>
      match Faker.resolveFakerExpression faker v with
      | (Some r, w) => (r, w)
      | (None, w) =>
          let resolved := Js.replace_all "#{counter}" (Js.nat_to_string (counter + 1)) v in
          if negb isDryRun && is_reference_token resolved then
            let refKey := ref_key resolved in
            match AMap.get refKey referenceMap with
            | Some refList =>
                if Nat.ltb 0 (length refList) then
                  match nth_error refList (random_index d (length refList)) with
                  | Some random => (id_value random, w)
                  | None => (FNull, w) (* index out of range: [undefined.id] *)
                  end
                else (FNull, w ++ [WarnReferenceNotFound refKey])
            | None => (FNull, w ++ [WarnReferenceNotFound refKey])
            end
          else (FString resolved, w)
      end
  | _ => (value, [])
  end.

(** The record loop of [processStep]: for [i < step.count], each field in
    order; [draws i j] is the [Math.random()] draw of field [j] of record [i]. *)
Fixpoint build_fields (faker : Faker.jsval) (fs : list (string * FieldValue))
  (i j : nat) (isDryRun : bool) (referenceMap : ReferenceMap)
  (draws : nat -> nat -> Draw) (record : SRecord) : SRecord * list Event :=
  match fs with
  | [] => (record, [])
  | (field, value) :: rest =>
      let (v, w) := processValue faker value i isDryRun referenceMap (draws i j) in
      let (r, w') := build_fields faker rest i (S j) isDryRun referenceMap draws
                       (AMap.set field v record) in
      (r, w ++ w')
  end.

Fixpoint build_records (faker : Faker.jsval) (step : SeedingStep) (i n : nat)
  (isDryRun : bool) (referenceMap : ReferenceMap) (draws : nat -> nat -> Draw)
  : list SRecord * list Event :=
  match n with
  | O => ([], [])
  | S n' =>
      let (r, w) := build_fields faker (fields step) i 0 isDryRun referenceMap draws [] in
      let (rs, w') := build_records faker step (S i) n' isDryRun referenceMap draws in
      (r :: rs, w ++ w')
  end.

(** The part of [processStep] after [conn.bulk.load] returned: partition,
    store the successes when [saveRefs], report the failures. *)
Definition record_results (step : SeedingStep) (records : list SRecord)
  (results : list SuccessResult) (referenceMap : ReferenceMap)
  : Cmd.M ReferenceMap :=
  let successes := filter isSuccess results in
  let failures := filter (fun r => negb (isSuccess r)) results in
  let referenceMap' :=
    if saveRefs step then AMap.set (sobject step) successes referenceMap
    else referenceMap in
  (if Nat.ltb 0 (length failures) then
     Cmd.emit (WarnFailedInserts (length failures)) ;;;
     Cmd.emit_all (map WarnFailedInsert failures)
   else Cmd.ret tt) ;;;
  Cmd.emit (LogInserted (length successes) (length records)) ;;;
  Cmd.ret referenceMap'.

(** [processStep(conn, step, isDryRun, referenceMap, allDryRunOutput)];
    [bulk_load] is [conn.bulk.load(sobject, 'insert', records)]. *)
Definition processStep (faker : Faker.jsval)
  (bulk_load : string -> list SRecord -> Throws (list SuccessResult))
  (step : SeedingStep) (isDryRun : bool) (referenceMap : ReferenceMap)
  (allDryRunOutput : list (string * list SRecord)) (draws : nat -> nat -> Draw)
  : Cmd.M (ReferenceMap * list (string * list SRecord)) :=
  Cmd.emit (LogInserting (sobject step) (count step)) ;;;
  let (records, w) :=
    build_records faker step 0 (count step) isDryRun referenceMap draws in
  Cmd.emit_all w ;;;
  match records with
  | [] => Cmd.emit (WarnNoRecords (sobject step)) ;;; Cmd.ret (referenceMap, allDryRunOutput)
  | _ =>
      if isDryRun then
        Cmd.ret (referenceMap, AMap.set (sobject step) records allDryRunOutput)
      else
        Cmd.try_catch
          (results <- Cmd.lift (bulk_load (sobject step) records) ;;
           referenceMap' <- record_results step records results referenceMap ;;
           Cmd.ret (referenceMap', allDryRunOutput))
          (fun e => Cmd.this_error
                      ("Failed inserting " ++ sobject step ++ ": " ++ exn_message e))
  end.

(** The step loop of [run] when every step goes through [processStep] (all
    runs but a summary-only dry run): [referenceMap] and [allDryRunOutput]
    are the maps shared by all steps; [draws k] are the draws of step [k]. *)
Fixpoint run_steps (faker : Faker.jsval)
  (bulk_load : string -> list SRecord -> Throws (list SuccessResult))
  (plan : list SeedingStep) (k : nat) (isDryRun : bool) (referenceMap : ReferenceMap)
  (allDryRunOutput : list (string * list SRecord)) (draws : nat -> nat -> nat -> Draw)
  : Cmd.M (ReferenceMap * list (string * list SRecord)) :=
  match plan with
  | [] => Cmd.ret (referenceMap, allDryRunOutput)
  | step :: rest =>
      maps <- processStep faker bulk_load step isDryRun referenceMap allDryRunOutput (draws k) ;;
      run_steps faker bulk_load rest (S k) isDryRun (fst maps) (snd maps) draws
  end.

End Run.

(* ------------------------------------------------------------------ *)
(** ** [src/src/commands/seeder/plan/generate.ts]: graph builder, cycle
    resolver and topological sequencer *)

Module Generate.

(** [sObjectDepGraph]: object type -> (field -> referenced object type). *)
Definition DepGraph := list (string * list (string * string)).

(** [depSobjectGraph]: referenced object type -> set of dependent types. *)
Definition DependentGraph := list (string * list string).

(** The reference test of the graph builder: [typeof value === 'string' &&
    value.startsWith('@{') && value.endsWith('}')], then
    [refObj = value.slice(2, -1).split('.')[0]], kept when non-empty. *)
Definition ref_obj (value : FieldValue) : option string :=
  match value with
  | FString v =>
      if Js.startsWith v "@{" && Js.endsWith v "}" then
        let refObj := hd "" (Js.split_char "." (Js.slice_from_to_end 2 1 v)) in
        if String.eqb refObj "" then None else Some refObj
      else None
  | _ => None
  end.

(** The inner loop over [Object.entries(step.fields)]. *)
Fixpoint scan_fields (sobj : string) (fs : list (string * FieldValue))
  (deps : list (string * string)) (dependents : DependentGraph)
  : list (string * string) * DependentGraph :=
  match fs with
  | [] => (deps, dependents)
  | (field, value) :: rest =>
      match ref_obj value with
      | Some refObj =>
          let current := match AMap.get refObj dependents with
                         | Some s => s | None => [] end in
          scan_fields sobj rest (AMap.set field refObj deps)
            (AMap.set refObj (AMap.set_add sobj current) dependents)
      | None => scan_fields sobj rest deps dependents
      end
  end.

(** The first loop of [getSmartOrderedPlan]. *)
Fixpoint build_graphs_from (plan : list SeedingStep) (g : DepGraph)
  (d : DependentGraph) : DepGraph * DependentGraph :=
  match plan with
  | [] => (g, d)
  | step :: rest =>
      let (deps, d') := scan_fields (sobject step) (fields step) [] d in
      let g' := match deps with
                | [] => g
                | _ => AMap.set (sobject step) deps g
                end in
      build_graphs_from rest g' d'
  end.

Definition build_graphs (plan : list SeedingStep) : DepGraph * DependentGraph :=
  build_graphs_from plan [] [].

(** One candidate edge [{ from, field, to }]. *)
Record Relation := mkRel { rel_from : string; rel_field : string; rel_to : string }.

(** The first loop of [detectCyclesAndPrompt]: an edge [sObject -field-> refObj]
    is cyclic when [refObj] is among the dependents of [sObject], i.e. some
    step of type [refObj] references [sObject]. *)
Definition cyclic_edges (g : DepGraph) (d : DependentGraph) : list Relation :=
  flat_map
    (fun sObject =>
       match AMap.get sObject g with
       | Some deps =>
           flat_map
             (fun field =>
                match AMap.get field deps with
                | Some refObj =>
                    if negb (String.eqb refObj "") && AMap.has refObj d &&
                       match AMap.get sObject d with
                       | Some s => AMap.set_has refObj s
                       | None => false
                       end
                    then [mkRel sObject field refObj]
                    else []
                | None => []
                end)
             (map fst deps)
       | None => []
       end)
    (map fst g).

(** [[from, to].sort().join('__')] *)
Definition group_key (from to : string) : string :=
  if String.leb from to then from ++ "__" ++ to else to ++ "__" ++ from.

(** The second loop: group the cyclic edges by unordered pair. *)
Fixpoint group_relations (rels : list Relation)
  (groups : list (string * list Relation)) : list (string * list Relation) :=
  match rels with
  | [] => groups
  | r :: rest =>
      let key := group_key (rel_from r) (rel_to r) in
      let current := match AMap.get key groups with Some l => l | None => [] end in
      group_relations rest (AMap.set key (current ++ [r]) groups)
  end.

(** [`${rel.from} -> ${rel.field} -> ${rel.to} -> Lookup`] *)
Definition choice_string (r : Relation) : string :=
  rel_from r ++ " -> " ++ rel_field r ++ " -> " ++ rel_to r ++ " -> Lookup".

(** [detectCyclesAndPrompt]; [prompt groupKey choices] is the answer of the
    interactive list prompt. *)
Definition detectCyclesAndPrompt (prompt : string -> list string -> string)
  (g : DepGraph) (d : DependentGraph) : list string :=
  let groups := group_relations (cyclic_edges g d) [] in
  fold_left
    (fun selected '(key, relations) =>
       AMap.set_add (prompt key (map choice_string relations)) selected)
    groups [].

(** [const [from, field, to] = cycle.trim().split('->')] followed by the
    [.trim()] of each part; [None] is the TypeError of [undefined.trim()]. *)
Definition parse_choice (cycle : string) : option (string * string * string) :=
  match Js.split_arrow (Js.trim cycle) with
  | from :: field :: to :: _ => Some (Js.trim from, Js.trim field, Js.trim to)
  | _ => None
  end.

(** [originalPlan.find((item) => item.sobject === from)] followed by
    [delete plan.fields[field]]: only the first step of that type changes. *)
Fixpoint delete_field_of_first (from field : string) (plan : list SeedingStep)
  : list SeedingStep :=
  match plan with
  | [] => []
  | step :: rest =>
      if String.eqb (sobject step) from then
        mkStep (sobject step) (count step) (saveRefs step)
               (AMap.delete field (fields step)) :: rest
      else step :: delete_field_of_first from field rest
  end.

(** The graph part of one iteration of the removal loop. *)
Definition remove_edge (from field to : string) (g : DepGraph) (d : DependentGraph)
  : DepGraph * DependentGraph :=
  let g' := match AMap.get from g with
            | Some m => AMap.set from (AMap.delete field m) g
            | None => g
            end in
  let d1 := match AMap.get to d with
            | Some s => AMap.set to (AMap.set_delete from s) d
            | None => d
            end in
  let d2 := match AMap.get to d1 with
            | Some [] => AMap.delete to d1
            | _ => d1
            end in
  (g', d2).

(** One iteration of [for (const cycle of cycleToRemove)]. *)
Definition apply_removal (cycle : string)
  (st : DepGraph * DependentGraph * list SeedingStep)
  : option (DepGraph * DependentGraph * list SeedingStep) :=
  let '(g, d, plan) := st in
  match parse_choice cycle with
  | Some (from, field, to) =>
      let (g', d') := remove_edge from field to g d in
      Some (g', d', delete_field_of_first from field plan)
  | None => None
  end.

Fixpoint apply_removals (cycles : list string)
  (st : DepGraph * DependentGraph * list SeedingStep)
  : option (DepGraph * DependentGraph * list SeedingStep) :=
  match cycles with
  | [] => Some st
  | c :: rest =>
      match apply_removal c st with
      | Some st' => apply_removals rest st'
      | None => None
      end
  end.

(** [step.saveRefs = depSobjectGraph.has(step.sobject)] *)
Definition assign_save_refs (d : DependentGraph) (plan : list SeedingStep)
  : list SeedingStep :=
  map (fun step => mkStep (sobject step) (count step) (AMap.has (sobject step) d)
                          (fields step)) plan.

(** [getSmartOrderedPlan] up to the [saveRefs] assignment: the graphs and the
    (mutated) plan the sequencer starts from. *)
Definition resolve_cycles (prompt : string -> list string -> string)
  (originalPlan : list SeedingStep)
  : option (DepGraph * DependentGraph * list SeedingStep) :=
  let (g, d) := build_graphs originalPlan in
  let cycleToRemove := detectCyclesAndPrompt prompt g d in
  match apply_removals cycleToRemove (g, d, originalPlan) with
  | Some (g', d', plan') => Some (g', d', assign_save_refs d' plan')
  | None => None
  end.

(** How [visit] ends: normally with the new [sortedSObjects], with the
    [Cyclic dependency detected] error, or, in the model only, out of fuel. *)
Inductive visit_result :=
| VOk (sorted : list string)
| VCycle (node : string)
| VFuel.

(** The dependency targets of [node]: [sObjectDepGraph.get(node) ?? new Set()]. *)
Definition deps_of (g : DepGraph) (node : string) : list string :=
  match AMap.get node g with Some m => map snd m | None => [] end.

(** [for (const dep of deps.values()) visit(dep)]: stops at the first
    exception. *)
Fixpoint for_each_dep (visit_dep : string -> list string -> visit_result)
  (ds : list string) (sorted : list string) : visit_result :=
  match ds with
  | [] => VOk sorted
  | dep :: ds' =>
      match visit_dep dep sorted with
      | VOk sorted' => for_each_dep visit_dep ds' sorted'
      | e => e
      end
  end.

(** [visit(node)]; [path] is [tempMark] (the nodes on the recursion stack,
    which is exactly what [tempMark] holds), and [visited] is the set of
    nodes of [sorted], to which [visited.add] and [sortedSObjects.push]
    always add together.  [fuel] bounds the recursion depth; it is never
    exhausted from [sort_fuel] (lemma [sort_never_out_of_fuel]). *)
Fixpoint visit (fuel : nat) (g : DepGraph) (path : list string) (node : string)
  (sorted : list string) : visit_result :=
  if AMap.set_has node path then VCycle node
  else if AMap.set_has node sorted then VOk sorted
  else match fuel with
       | O => VFuel
       | S f =>
           match for_each_dep (fun dep s => visit f g (node :: path) dep s)
                   (deps_of g node) sorted with
           | VOk s' => VOk (s' ++ [node])
           | e => e
           end
       end.

(** [for (const node of sObjectDepGraph.keys()) visit(node)] *)
Fixpoint visit_all (fuel : nat) (g : DepGraph) (nodes : list string)
  (sorted : list string) : visit_result :=
  match nodes with
  | [] => VOk sorted
  | n :: rest =>
      match visit fuel g [] n sorted with
      | VOk s => visit_all fuel g rest s
      | e => e
      end
  end.

(** Every node that [visit] can reach: keys and dependency targets. *)
Definition graph_nodes (g : DepGraph) : list string :=
  map fst g ++ flat_map (fun e => map snd (snd e)) g.

(** Fuel larger than the number of distinct nodes, so that the recursion,
    each level of which adds a new node to [tempMark], never runs out. *)
Definition sort_fuel (g : DepGraph) : nat := S (length (graph_nodes g)).

(** [originalPlan.find((p) => p.sobject === objName)] *)
Definition find_step (plan : list SeedingStep) (objName : string) : option SeedingStep :=
  find (fun p => String.eqb (sobject p) objName) plan.

(** [sortedSObjects.map(find).filter((p) => p !== undefined)] *)
Definition sorted_plan (plan : list SeedingStep) (sorted : list string) : list SeedingStep :=
  flat_map (fun o => match find_step plan o with Some p => [p] | None => [] end) sorted.

(** [getSmartOrderedPlan(originalPlan)]: the ordered step list, or the
    exception the returned promise is rejected with. *)
Definition getSmartOrderedPlan (prompt : string -> list string -> string)
  (originalPlan : list SeedingStep) : Throws (list SeedingStep) :=
  match resolve_cycles prompt originalPlan with
  | None => Raises (ExnError "Cannot read properties of undefined (reading 'trim')")
  | Some (g, _, plan) =>
      match visit_all (sort_fuel g) g (map fst g) [] with
      | VOk sorted => Returns (sorted_plan plan sorted)
      | VCycle node => Raises (ExnError ("Cyclic dependency detected with " ++ node))
      | VFuel => Raises ExnOther
      end
  end.

End Generate.

(* ------------------------------------------------------------------ *)
(** ** [src/unnamed/part_001]: the migration driver and the cross-system
    remapper *)

Module Migrate.

Definition SRecord := Run.SRecord.

(** [idMapBySObject]: object type -> (old id -> new id). *)
Definition IdMapBySObject := list (string * list (string * string)).

(** [referenceFieldMap]: field -> possible target object types. *)
Definition ReferenceFieldMap := list (string * list string).

Record MigrationObject := mkMigrationObject {
  mo_sobject : string;
  mo_query : option string
}.

(** The external collaborators of [runMigrationPlan].  [sanitize] is
    [sanitizeSOQLQuery(targetConn, query)] (cleaned query and kept fields),
    [reference_fields] is [getReferenceFieldMap(sourceConn, sobject, kept)],
    [query] is [sourceConn.query], [insert] is [targetConn.insert], and
    [keyPrefix] is the [keyPrefix] of the (cached) describe of a type. *)
Record Services := mkServices {
  sanitize : string -> Throws (string * list string);
  reference_fields : string -> list string -> Throws ReferenceFieldMap;
  query : string -> Throws (list SRecord);
  insert : string -> list SRecord -> Throws (list SuccessResult);
  keyPrefix : string -> option string
}.

(** Lines 205-221: the target type of a reference field.  One candidate is
    taken as is; otherwise the first candidate whose [keyPrefix] equals
    [value.substring(0, 3)] ([undefined] when none does). *)
Definition resolve_target (keyPrefix : string -> option string)
  (possibleObjects : list string) (value : string) : option string :=
  match possibleObjects with
  | [o] => Some o
  | _ =>
      let idPrefix := Js.take 3 value in
      find (fun o => match keyPrefix o with
                     | Some p => String.eqb p idPrefix
                     | None => false
                     end) possibleObjects
  end.

(** The guard [!value || typeof value !== 'string' || !value.startsWith('0')]
    negated: the values the remapper looks at. *)
Definition remappable (value : FieldValue) : option string :=
  match value with
  | FString v =>
      if negb (String.eqb v "") && Js.startsWith v "0" then Some v else None
  | _ => None
  end.

(** The body of the loop over [Object.entries(record)] for one entry. *)
Definition resolve_entry (keyPrefix : string -> option string)
  (referenceFieldMap : ReferenceFieldMap) (idMapBySObject : IdMapBySObject)
  (record : SRecord) (entry : string * FieldValue) : SRecord :=
  let (fieldName, value) := entry in
  match remappable value with
  | None => record
  | Some v =>
      match AMap.get fieldName referenceFieldMap with
      | None => record
      | Some possibleObjects =>
          match resolve_target keyPrefix possibleObjects v with
          | Some referencedObject =>
              if String.eqb referencedObject "" then record
              else match AMap.get referencedObject idMapBySObject with
                   | Some m =>
                       match AMap.get v m with
                       | Some mappedId =>
                           if String.eqb mappedId "" then record
                           else AMap.set fieldName (FString mappedId) record
                       | None => record
                       end
                   | None => record
                   end
          | None => record
          end
      end
  end.

(** [resolveReferencesWithFieldMap(conn, record, referenceFieldMap,
    idMapBySObject)]: [Object.entries] is a snapshot taken before the loop,
    the writes go to the record itself. *)
Definition resolveReferencesWithFieldMap (keyPrefix : string -> option string)
  (record : SRecord) (referenceFieldMap : ReferenceFieldMap)
  (idMapBySObject : IdMapBySObject) : SRecord :=
  fold_left (resolve_entry keyPrefix referenceFieldMap idMapBySObject) record record.

(** [record['Id'] as string] *)
Definition record_id (record : SRecord) : string :=
  match AMap.get "Id" record with Some (FString s) => s | _ => "" end.

(** The [for (const record of records.records)] loop: clone without [Id]
    and [attributes], remap, and register the old id with a [''] placeholder. *)
Fixpoint prepare_records (keyPrefix : string -> option string)
  (referenceFieldMap : ReferenceFieldMap) (idMapBySObject : IdMapBySObject)
  (records : list SRecord) (toInsert : list SRecord) (idMap : list (string * string))
  : list SRecord * list (string * string) :=
  match records with
  | [] => (toInsert, idMap)
  | record :: rest =>
      let originalId := record_id record in
      let clone := AMap.delete "attributes" (AMap.delete "Id" record) in
      let clone' := resolveReferencesWithFieldMap keyPrefix clone referenceFieldMap idMapBySObject in
      prepare_records keyPrefix referenceFieldMap idMapBySObject rest
        (toInsert ++ [clone']) (AMap.set originalId "" idMap)
  end.

(** [insertResults.forEach((result, index) => ...)]: record the new id of
    each success under the [index]-th old id. *)
Fixpoint record_inserts (sobj : string) (oldIds : list string)
  (results : list SuccessResult) (idMap : list (string * string))
  : list (string * string) * list Event :=
  match results, oldIds with
  | [], _ => (idMap, [])
  | r :: rs, oldId :: ids =>
      let (m, evs) :=
        if success r
        then (AMap.set oldId (match id r with Some s => s | None => "" end) idMap, [])
        else (idMap, [LogMigrationStep sobj ("Failed to insert record " ++ oldId)]) in
      let (m', evs') := record_inserts sobj ids rs m in
      (m', evs ++ evs')
  | _ :: _, [] => (idMap, []) (* more results than records: not produced by [insert] *)
  end.

(** The [try] block of [runMigrationPlan] for one plan entry. *)
Definition process_entry (svc : Services) (obj : MigrationObject)
  (idMapBySObject : IdMapBySObject) : Cmd.M IdMapBySObject :=
  Cmd.emit (LogValidating (mo_sobject obj)) ;;;
  match mo_query obj with
  | None | Some "" => Cmd.throw (ExnError "Query must be defined in the plan.")
  | Some q =>
      sanitized <- Cmd.lift (sanitize svc q) ;;
      let (cleanedQuery, keptFields) := sanitized in
      referenceFieldMap <- Cmd.lift (reference_fields svc (mo_sobject obj) keptFields) ;;
      records <- Cmd.lift (query svc cleanedQuery) ;;
      Cmd.emit (LogMigrationStep (mo_sobject obj) "Retrieved records") ;;;
      let (sourceToInsert, idMap) :=
        prepare_records (keyPrefix svc) referenceFieldMap idMapBySObject records [] [] in
      Cmd.emit (LogMigrationStep (mo_sobject obj) "Inserting into target org") ;;;
      insertResults <- Cmd.lift (insert svc (mo_sobject obj) sourceToInsert) ;;
      let (idMap', evs) := record_inserts (mo_sobject obj) (map fst idMap) insertResults idMap in
      Cmd.emit_all evs ;;;
      Cmd.emit (LogMigrationStep (mo_sobject obj) "Inserted records") ;;;
      Cmd.ret (AMap.set (mo_sobject obj) idMap' idMapBySObject)
  end.

(** One iteration of [for (const obj of plan.objects)]: the [try] block and
    its [catch], which hands the message to [this.error]. *)
Definition migrate_entry (svc : Services) (obj : MigrationObject)
  (idMapBySObject : IdMapBySObject) : Cmd.M IdMapBySObject :=
  Cmd.try_catch (process_entry svc obj idMapBySObject)
    (fun e => Cmd.this_error ("Error with " ++ mo_sobject obj ++ ": " ++ exn_message e)).

Fixpoint migrate_entries (svc : Services) (objs : list MigrationObject)
  (idMapBySObject : IdMapBySObject) : Cmd.M IdMapBySObject :=
  match objs with
  | [] => Cmd.ret idMapBySObject
  | obj :: rest =>
      t <- migrate_entry svc obj idMapBySObject ;;
      migrate_entries svc rest t
  end.

(** [runMigrationPlan(sourceConn, targetConn, plan)] *)
Definition runMigrationPlan (svc : Services) (objects : list MigrationObject)
  : Cmd.M unit :=
  _ <- migrate_entries svc objects [] ;; Cmd.ret tt.

End Migrate.

(* ------------------------------------------------------------------ *)
(** ** Vocabulary of the statements *)

Module Graph.
Import Generate.

(** [x --f--> y] in the dependency map. *)
Definition edge (g : DepGraph) (x f y : string) : Prop :=
  exists m, AMap.get x g = Some m /\ AMap.get f m = Some y.

Definition has_edge (g : DepGraph) (x y : string) : Prop := exists f, edge g x f y.

(** Both directions present: a two-object cycle (a self-loop when [a = b]). *)
Definition pair_cycle (g : DepGraph) (a b : string) : Prop :=
  has_edge g a b /\ has_edge g b a.

(** The edges of the dependency map as triples. *)
Definition edges (g : DepGraph) : list (string * string * string) :=
  flat_map (fun e => map (fun fy => (fst e, fst fy, snd fy)) (snd e)) g.

Definition between (a b : string) (e : string * string * string) : bool :=
  let '(x, _, y) := e in
  (String.eqb x a && String.eqb y b) || (String.eqb x b && String.eqb y a).

(** Number of edges between [a] and [b], in either direction. *)
Definition count_between (g : DepGraph) (a b : string) : nat :=
  length (filter (between a b) (edges g)).

(** Keys of the map and of each inner map are distinct, as in a [Map]. *)
Definition wf (g : DepGraph) : Prop :=
  NoDup (map fst g) /\ Forall (fun e => NoDup (map fst (snd e))) g.

(** Some step of another type holds a reference token to [t]. *)
Definition referenced_by_other (plan : list SeedingStep) (t : string) : Prop :=
  exists s f v, In s plan /\ sobject s <> t /\ In (f, v) (fields s) /\ ref_obj v = Some t.

(** The remapper rewrites field [f] holding [v] to [mapped]: [v] is a
    non-empty string starting with '0', [f] is reference-typed, its target
    resolves to a type with an id map, and that map sends [v] to the
    non-empty [mapped]. *)
Definition rewrites_to (keyPrefix : string -> option string)
  (referenceFieldMap : Migrate.ReferenceFieldMap)
  (idMapBySObject : Migrate.IdMapBySObject) (f : string) (v : FieldValue)
  (mapped : string) : Prop :=
  exists s possibleObjects o m,
    v = FString s /\ s <> "" /\ Js.startsWith s "0" = true /\
    AMap.get f referenceFieldMap = Some possibleObjects /\
    Migrate.resolve_target keyPrefix possibleObjects s = Some o /\ o <> "" /\
    AMap.get o idMapBySObject = Some m /\ AMap.get s m = Some mapped /\
    mapped <> "".

(** [x] reaches [y] through one or more dependency edges. *)
Inductive reach (g : DepGraph) : string -> string -> Prop :=
| reach_edge x f y : edge g x f y -> reach g x y
| reach_cons x f y z : edge g x f y -> reach g y z -> reach g x z.

(** No object type reaches itself. *)
Definition acyclic (g : DepGraph) : Prop := forall c, ~ reach g c c.

(** A name with no white space and no '-' (Salesforce API names qualify). *)
Fixpoint plain_chars (s : string) : bool :=
  match s with
  | EmptyString => true
  | String c rest => negb (Js.is_ws c) && negb (Ascii.eqb c "-") && plain_chars rest
  end.

Definition plain_name (s : string) : Prop := s <> "" /\ plain_chars s = true.

(** No '-' in the string. *)
Fixpoint no_dash (s : string) : bool :=
  match s with
  | EmptyString => true
  | String c rest => negb (Ascii.eqb c "-") && no_dash rest
  end.

End Graph.

(* ------------------------------------------------------------------ *)
(** ** [src/src/utils/faker.ts]: levenshteinDistance, findClosestMatch *)

Module Suggest.
Local Open Scope string_scope.

(** [a[i - 1] === b[j - 1] ? 0 : 1], with [b[j - 1]] as [String.get]. *)
Definition cost (ca : ascii) (cb : option ascii) : nat :=
  match cb with Some c => if Ascii.eqb ca c then 0 else 1 | None => 1 end.

(** The inner loop [for (let j = 1; j <= b.length; j++)] of row [i]: [prev]
    is [dp[i - 1][j - 1..]], [left] is [dp[i][j - 1]] and
    [dp[i][j] = Math.min(dp[i-1][j] + 1, dp[i][j-1] + 1, dp[i-1][j-1] + cost)]. *)
Fixpoint row_from (ca : ascii) (b : string) (prev : list nat) (left : nat) : list nat :=
  match b, prev with
  | String cb b', p_diag :: ((p_up :: _) as prev') =>
      let v := Nat.min (Nat.min (p_up + 1) (left + 1))
                       (p_diag + (if Ascii.eqb ca cb then 0 else 1)) in
      v :: row_from ca b' prev' v
  | _, _ => []
  end.

(** The outer loop [for (let i = 1; i <= a.length; i++)]: row [i] of [dp] is
    [dp[i][0] = i] followed by the inner loop over the previous row. *)
Fixpoint rows (a b : string) (i : nat) (prev : list nat) : list nat :=
  match a with
  | EmptyString => prev
  | String ca a' =>
      let i' := S i in
      rows a' b i' (i' :: row_from ca b prev i')
  end.

(** [levenshteinDistance(a, b)]: row 0 is [dp[0][j] = j]; the result is
    [dp[a.length][b.length]]. *)
Definition levenshteinDistance (a b : string) : nat :=
  nth (String.length b) (rows a b 0 (seq 0 (S (String.length b)))) 0.

(** [findClosestMatch(input, candidates)]: [shortestDistance] is [None]
    while it is [Infinity]; a candidate replaces the current one only when
    it is strictly closer. *)
Fixpoint closest_loop (input : string) (candidates : list string)
  (closest : option string) (shortest : option nat) : option string * option nat :=
  match candidates with
  | [] => (closest, shortest)
  | candidate :: rest =>
      let distance := levenshteinDistance input candidate in
      let better := match shortest with
                    | None => true
                    | Some d => Nat.ltb distance d
                    end in
      if better then closest_loop input rest (Some candidate) (Some distance)
      else closest_loop input rest closest shortest
  end.

Definition findClosestMatch (input : string) (candidates : list string) : option string :=
  let (closest, shortest) := closest_loop input candidates None None in
  match shortest with
  | Some d => if Nat.leb d 5 then closest else None
  | None => None
  end.

(** [suggestFakerAlternative(value)].  [keys v] is [Object.keys(v)] for the
    non-nullish values the function passes to it (the library decides which
    properties of its modules are own and enumerable); [None] from
    [Faker.get_prop] is the TypeError of a property read on a nullish
    [faker], caught by the [catch].  A falsy (empty) closest name counts as
    no match. *)
Definition suggestFakerAlternative (keys : Faker.jsval -> list string)
  (faker : Faker.jsval) (value : string) : option string :=
  if negb (Js.startsWith value "#{faker.") || negb (Js.endsWith value "}") then None
  else
    let expression := Js.slice_from_to_end 8 1 value in
    let parts := Js.split_char "." expression in
    match parts with
    | rawSection :: rawMethod :: _ =>
        let sectionNames := keys faker in
        match Faker.get_prop faker rawSection with
        | None => None
        | Some (Faker.JObject props) =>
            let validMethods := keys (Faker.JObject props) in
            if existsb (String.eqb rawMethod) validMethods then None
            else
              match findClosestMatch rawMethod validMethods with
              | Some closestMethod =>
                  if String.eqb closestMethod "" then None
                  else Some ("#{faker." ++ rawSection ++ "." ++ closestMethod ++ "}")
              | None => None
              end
        | Some _ =>
            match findClosestMatch rawSection sectionNames with
            | Some closestSection =>
                if String.eqb closestSection "" then None
                else
                  let target := match Faker.get_prop faker closestSection with
                                | Some Faker.JUndefined | Some Faker.JNull | None =>
                                    Faker.JObject []
                                | Some v => v
                                end in
                  let validMethods := keys target in
                  match findClosestMatch rawMethod validMethods with
                  | Some closestMethod =>
                      if String.eqb closestMethod "" then None
                      else Some ("#{faker." ++ closestSection ++ "." ++ closestMethod ++ "}")
                  | None => None
                  end
            | None => None
            end
        end
    | _ => None
    end.

End Suggest.

(* ------------------------------------------------------------------ *)
(** ** [src/src/utils/validator.ts] *)

Module Validator.
Local Open Scope string_scope.

(** The messages passed to [warn], one constructor per template; [step] is
    the label ("Step 3"), [index] the 1-based step number. *)
Inductive Warning :=
| MustBeBoolean (step field : string)
| MustBeInteger (step field : string)
| MustBeNumber (step field : string)
| MustBeDate (step field : string)
| MustBeDateTime (step field : string)
| InvalidReferenceOn (step field : string) (referenceTo : list string)
| StaticIdWrongType (step value : string) (referenceTo : list string)
| InvalidReferenceFormat (step field : string)
| MissingSobject (index : nat)
| MissingCount (index : nat)
| InvalidReference (index : nat) (value : string)
| ReferenceNotInPlan (index : nat) (refObj : string)
| InvalidFakerExpression (index : nat) (field value : string) (suggestion : option string)
| SObjectMissing (index : nat) (sobj : string)
| FieldMissing (index : nat) (field sobj : string)
| CouldNotDescribe (index : nat) (objName : string).

(** [hasError] and the warnings emitted so far. *)
Definition VState := (bool * list Warning)%type.

(** [warn(msg); hasError = true;] *)
Definition warn (w : Warning) (st : VState) : VState := (true, (snd st ++ [w])%list).

(** [String(value)] for a non-null value. *)
Definition value_string (v : FieldValue) : string :=
  match v with
  | FString s => s
  | FNumber n => Js.nat_to_string n
  | FBool true => "true"
  | FBool false => "false"
  | FNull => "null"
  end.

(** [\d] and [[a-zA-Z0-9]] *)
Definition is_digit (c : ascii) : bool :=
  Nat.leb 48 (nat_of_ascii c) && Nat.leb (nat_of_ascii c) 57.

Definition is_alnum (c : ascii) : bool :=
  let n := nat_of_ascii c in
  is_digit c || (Nat.leb 65 n && Nat.leb n 90) || (Nat.leb 97 n && Nat.leb n 122).

(** An anchored regular expression without repetition: one character class
    per position, and nothing after the last one ([$]). *)
Fixpoint match_template (tpl : list (ascii -> bool)) (s : string) : bool :=
  match tpl, s with
  | [], EmptyString => true
  | p :: ps, String c rest => p c && match_template ps rest
  | _, _ => false
  end.

(** [/^\d{4}-\d{2}-\d{2}$/] *)
Definition date_template : list (ascii -> bool) :=
  [is_digit; is_digit; is_digit; is_digit; Ascii.eqb "-";
   is_digit; is_digit; Ascii.eqb "-"; is_digit; is_digit].

(** [/^\d{4}-\d{2}-\d{2}T\d{2}:\d{2}:\d{2}Z$/] *)
Definition datetime_template : list (ascii -> bool) :=
  (date_template ++
  [Ascii.eqb "T"; is_digit; is_digit; Ascii.eqb ":"; is_digit; is_digit;
   Ascii.eqb ":"; is_digit; is_digit; Ascii.eqb "Z"])%list.

Fixpoint all_chars (p : ascii -> bool) (s : string) : bool :=
  match s with
  | EmptyString => true
  | String c rest => p c && all_chars p rest
  end.

(** [/^[a-zA-Z0-9]{15,18}$/] *)
Definition static_id_format (s : string) : bool :=
  all_chars is_alnum s && Nat.leb 15 (String.length s) && Nat.leb (String.length s) 18.

(** [validateReference(step, field, value, referenceTo, prefixMap, warn)];
    [!objectName] also rejects an empty object name. *)
Definition validateReference (step field value : string) (referenceTo : list string)
  (prefixMap : list (string * string)) (st : VState) : bool * VState :=
  if Run.is_reference_token value then
    let refObj := Run.ref_key value in
    if negb (AMap.set_has refObj referenceTo) then
      (false, warn (InvalidReferenceOn step field referenceTo) st)
    else (true, st)
  else if static_id_format value then
    let prefix := Js.take 3 value in
    let bad := match AMap.get prefix prefixMap with
               | Some objectName =>
                   String.eqb objectName "" || negb (AMap.set_has objectName referenceTo)
               | None => true
               end in
    if bad then (false, warn (StaticIdWrongType step value referenceTo) st)
    else (true, st)
  else (false, warn (InvalidReferenceFormat step field) st).

(** [validateFieldValueType(step, field, value, type, referenceTo,
    prefixMap, warn)].  Numbers of a plan are integers, so
    [Number.isInteger] holds of every number. *)
Definition validateFieldValueType (step field : string) (value : FieldValue)
  (type : string) (referenceTo : list string) (prefixMap : list (string * string))
  (st : VState) : bool * VState :=
  match value with
  | FNull => (true, st)
  | _ =>
      let valueStr := value_string value in
      if String.eqb type "boolean" then
        match value with
        | FBool _ => (true, st)
        | _ => (false, warn (MustBeBoolean step field) st)
        end
      else if String.eqb type "int" then
        match value with
        | FNumber _ => (true, st)
        | _ => (false, warn (MustBeInteger step field) st)
        end
      else if String.eqb type "double" || String.eqb type "currency" then
        match value with
        | FNumber _ => (true, st)
        | _ => (false, warn (MustBeNumber step field) st)
        end
      else if String.eqb type "date" then
        if negb (match_template date_template valueStr)
        then (false, warn (MustBeDate step field) st) else (true, st)
      else if String.eqb type "datetime" then
        if negb (match_template datetime_template valueStr)
        then (false, warn (MustBeDateTime step field) st) else (true, st)
      else if String.eqb type "reference" then
        validateReference step field valueStr referenceTo prefixMap st
      else (true, st)
  end.

(** The [referenceMap] of [validatePlanStructure]: the object types of the
    steps with [saveRefs]. *)
Definition saved_types (plan : list SeedingStep) : list string :=
  map sobject (filter saveRefs plan).

(** The body of [Object.keys(step.fields).forEach] for one field.
    [isValid] and [suggest] are [isValidFakerExpression] and
    [suggestFakerAlternative]; a falsy (empty) suggestion is not shown. *)
Definition check_field (isValid : string -> bool) (suggest : string -> option string)
  (referenceMap : list string) (index : nat) (field : string) (value : FieldValue)
  (st : VState) : VState :=
  match value with
  | FString v =>
      let st1 :=
        if Run.is_reference_token v then
          let parts := Js.split_char "." (Js.slice_from_to_end 2 1 v) in
          let refObj := nth 0 parts "" in
          let refField := nth 1 parts "" in
          if String.eqb refObj "" || String.eqb refField "" then
            warn (InvalidReference (S index) v) st
          else if negb (AMap.set_has refObj referenceMap) then
            warn (ReferenceNotInPlan (S index) refObj) st
          else st
        else st in
      if Js.startsWith v "#{faker." && Js.endsWith v "}" then
        if negb (isValid v) then
          let suggestion := match suggest v with
                            | Some sg => if String.eqb sg "" then None else Some sg
                            | None => None
                            end in
          warn (InvalidFakerExpression (S index) field v suggestion) st1
        else st1
      else st1
  | _ => st
  end.

Fixpoint check_fields (isValid : string -> bool) (suggest : string -> option string)
  (referenceMap : list string) (index : nat) (fs : list (string * FieldValue))
  (st : VState) : VState :=
  match fs with
  | [] => st
  | (field, value) :: rest =>
      check_fields isValid suggest referenceMap index rest
        (check_field isValid suggest referenceMap index field value st)
  end.

(** One iteration of [for (const [index, step] of plan.entries())]:
    [!step.sobject] rejects the empty name and [!step.count] a zero count;
    [step.fields] is always an object here. *)
Definition check_step (isValid : string -> bool) (suggest : string -> option string)
  (referenceMap : list string) (index : nat) (step : SeedingStep) (st : VState) : VState :=
  let st1 := if String.eqb (sobject step) "" then warn (MissingSobject (S index)) st else st in
  let st2 := if Nat.eqb (count step) 0 then warn (MissingCount (S index)) st1 else st1 in
  check_fields isValid suggest referenceMap index (fields step) st2.

Fixpoint check_steps (isValid : string -> bool) (suggest : string -> option string)
  (referenceMap : list string) (index : nat) (plan : list SeedingStep) (st : VState) : VState :=
  match plan with
  | [] => st
  | step :: rest =>
      check_steps isValid suggest referenceMap (S index) rest
        (check_step isValid suggest referenceMap index step st)
  end.

(** [validatePlanStructure(plan, warn)]: the result and the warnings. *)
Definition validatePlanStructure (isValid : string -> bool) (suggest : string -> option string)
  (plan : list SeedingStep) : bool * list Warning :=
  let st := check_steps isValid suggest (saved_types plan) 0 plan (false, []) in
  (negb (fst st), snd st).

(** The parts of [conn.describe(name)] that [validateMetadata] reads. *)
Record FieldMeta := mkFieldMeta {
  fm_name : string;
  fm_type : string;
  fm_referenceTo : option (list string)
}.

Record DescribeResult := mkDescribe {
  d_keyPrefix : option string;
  d_name : string;
  d_fields : list FieldMeta
}.

(** The local state of [validateMetadata]. *)
Record MState := mkMState {
  hasError : bool;
  warnings : list Warning;
  describedObjects : list (string * DescribeResult);
  prefixMap : list (string * string)
}.

Definition m_warn (w : Warning) (ms : MState) : MState :=
  mkMState true (warnings ms ++ [w])%list (describedObjects ms) (prefixMap ms).

(** A [warn] that does not set [hasError]. *)
Definition m_warn_only (w : Warning) (ms : MState) : MState :=
  mkMState (hasError ms) (warnings ms ++ [w])%list (describedObjects ms) (prefixMap ms).

(** [describedObjects.set(key, desc); if (desc.keyPrefix) prefixMap.set(desc.keyPrefix, desc.name)] *)
Definition record_describe (key : string) (desc : DescribeResult) (ms : MState) : MState :=
  let prefixMap' := match d_keyPrefix desc with
                    | Some p => if String.eqb p "" then prefixMap ms
                                else AMap.set p (d_name desc) (prefixMap ms)
                    | None => prefixMap ms
                    end in
  mkMState (hasError ms) (warnings ms) (AMap.set key desc (describedObjects ms)) prefixMap'.

(** [for (const objName of fieldMeta.referenceTo ?? [])]: describe the types
    not described yet; a failure is only reported. *)
Fixpoint describe_refs (describe : string -> Throws DescribeResult) (index : nat)
  (objNames : list string) (ms : MState) : MState :=
  match objNames with
  | [] => ms
  | objName :: rest =>
      let ms' :=
        if AMap.has objName (describedObjects ms) then ms
        else match describe objName with
             | Returns desc => record_describe objName desc ms
             | Raises _ => m_warn_only (CouldNotDescribe (S index) objName) ms
             end in
      describe_refs describe index rest ms'
  end.

(** One iteration of [for (const [field, value] of Object.entries(step.fields))];
    [validateFieldValueType] gets the plain [warn] callback and [hasError]
    follows its result. *)
Definition check_meta_field (describe : string -> Throws DescribeResult) (index : nat)
  (sobj : string) (od : DescribeResult) (field : string) (value : FieldValue)
  (ms : MState) : MState :=
  match find (fun f => String.eqb (fm_name f) field) (d_fields od) with
  | None => m_warn (FieldMissing (S index) field sobj) ms
  | Some fieldMeta =>
      let referenceTo := match fm_referenceTo fieldMeta with Some l => l | None => [] end in
      let ms1 := describe_refs describe index referenceTo ms in
      let (valid, st') :=
        validateFieldValueType ("Step " ++ Js.nat_to_string (S index)) field value
          (fm_type fieldMeta) referenceTo (prefixMap ms1) (false, warnings ms1) in
      mkMState (hasError ms1 || negb valid) (snd st') (describedObjects ms1) (prefixMap ms1)
  end.

Fixpoint check_meta_fields (describe : string -> Throws DescribeResult) (index : nat)
  (sobj : string) (od : DescribeResult) (fs : list (string * FieldValue)) (ms : MState)
  : MState :=
  match fs with
  | [] => ms
  | (field, value) :: rest =>
      check_meta_fields describe index sobj od rest
        (check_meta_field describe index sobj od field value ms)
  end.

(** One iteration of [for (const [index, step] of plan.entries())]. *)
Definition check_meta_step (describe : string -> Throws DescribeResult) (index : nat)
  (step : SeedingStep) (ms : MState) : MState :=
  match describe (sobject step) with
  | Raises _ => m_warn (SObjectMissing (S index) (sobject step)) ms
  | Returns od =>
      check_meta_fields describe index (sobject step) od (fields step)
        (record_describe (sobject step) od ms)
  end.

Fixpoint check_meta_steps (describe : string -> Throws DescribeResult) (index : nat)
  (plan : list SeedingStep) (ms : MState) : MState :=
  match plan with
  | [] => ms
  | step :: rest => check_meta_steps describe (S index) rest (check_meta_step describe index step ms)
  end.

(** [validateMetadata(plan, conn, log, warn)] with [describe] for
    [conn.describe]: the result and the warnings.  (Its [referenceMap] is
    built but never read.) *)
Definition validateMetadata (describe : string -> Throws DescribeResult)
  (plan : list SeedingStep) : bool * list Warning :=
  let ms := check_meta_steps describe 0 plan (mkMState false [] [] []) in
  (negb (hasError ms), warnings ms).

End Validator.

(** ** Sample inputs *)

Module Samples.

(** A lookup [Parent__c] to [Obj__c], whose ids start with 'a', and an id
    map that knows the old id. *)
Definition sample_record : Migrate.SRecord :=
  [("Name", FString "x"); ("Parent__c", FString "a01X")].
Definition sample_fields : Migrate.ReferenceFieldMap := [("Parent__c", ["Obj__c"])].
Definition sample_ids : Migrate.IdMapBySObject := [("Obj__c", [("a01X", "a01Y")])].
Definition no_prefix (_ : string) : option string := None.

(** A faker namespace with one generator, [faker.person.firstName()]. *)
Definition sample_faker : Faker.jsval :=
  Faker.JObject [("person", Faker.JObject [("firstName", Faker.JFunction (Some (Faker.JStr "Ann")))])].

Definition half : Run.Draw := Run.mkDraw 1 2.

(** Services whose describe of the target fails for every query. *)
Definition failing_describe : Migrate.Services :=
  Migrate.mkServices
    (fun _ => Raises (ExnError "INVALID_TYPE: sObject type is not supported"))
    (fun _ _ => Returns [])
    (fun _ => Returns [])
    (fun _ _ => Returns [])
    (fun _ => None).

Definition two_entries : list Migrate.MigrationObject :=
  [Migrate.mkMigrationObject "Account" (Some "SELECT Id, Name FROM Account");
   Migrate.mkMigrationObject "Contact" (Some "SELECT Id, LastName FROM Contact")].

(** Account and Contact reference each other, Account through two lookups. *)
Definition cycle_plan : list SeedingStep :=
  [mkStep "Account" 5 false
     [("Name", FString "Acme #{counter}");
      ("Primary_Contact__c", FString "@{Contact.Id}");
      ("Billing_Contact__c", FString "@{Contact.Id}")];
   mkStep "Contact" 5 false
     [("LastName", FString "Doe"); ("AccountId", FString "@{Account.Id}")]].

(** The user answers every cycle prompt with its first choice. *)
Definition first_choice (_ : string) (choices : list string) : string :=
  hd "" choices.

(** One object type with no reference field. *)
Definition lead_plan : list SeedingStep :=
  [mkStep "Lead" 3 false [("LastName", FString "x")]].

(** Contact looks up Account; no cycle. *)
Definition account_contact_plan : list SeedingStep :=
  [mkStep "Contact" 2 false
     [("LastName", FString "Doe"); ("AccountId", FString "@{Account.Id}")];
   mkStep "Account" 2 false [("Name", FString "Acme")]].

(** An org in which no object type can be described. *)
Definition no_org (_ : string) : Throws Validator.DescribeResult :=
  Raises (ExnError "NOT_FOUND").

(** [Object.keys] when every property of an object is own and enumerable. *)
Definition own_keys (v : Faker.jsval) : list string :=
  match v with Faker.JObject props => map fst props | _ => [] end.

End Samples.

(* ================================================================== *)
(** * Proofs *)

(** ** Association lists *)

Lemma get_set_same {V} (k : string) (v : V) m : AMap.get k (AMap.set k v m) = Some v.
Proof.
  induction m as [|[k' v'] m IH]; simpl.
  - now rewrite String.eqb_refl.
  - destruct (String.eqb k k') eqn:E; simpl.
    + apply String.eqb_eq in E; subst. now rewrite String.eqb_refl.
    + now rewrite E.
Qed.

Lemma get_set_other {V} (k k' : string) (v : V) m :
  k <> k' -> AMap.get k (AMap.set k' v m) = AMap.get k m.
Proof.
  intros Hne. induction m as [|[k'' v'] m IH]; simpl.
  - apply String.eqb_neq in Hne. now rewrite Hne.
  - destruct (String.eqb k' k'') eqn:E; simpl.
    + apply String.eqb_eq in E; subst.
      apply String.eqb_neq in Hne. now rewrite Hne.
    + now rewrite IH.
Qed.

Lemma get_delete_same {V} (k : string) (m : list (string * V)) :
  NoDup (map fst m) -> AMap.get k (AMap.delete k m) = None.
Proof.
  induction m as [|[k' v'] m IH]; simpl; intros Hnd; auto.
  inversion Hnd as [|? ? Hnin Hnd']; subst.
  destruct (String.eqb k k') eqn:E.
  - apply String.eqb_eq in E; subst.
    clear IH Hnd Hnd'. induction m as [|[k'' v''] m IH']; simpl; auto.
    destruct (String.eqb k' k'') eqn:E'.
    + apply String.eqb_eq in E'; subst. simpl in Hnin. tauto.
    + apply IH'. simpl in Hnin. tauto.
  - simpl. rewrite E. auto.
Qed.

Lemma get_delete_other {V} (k k' : string) (m : list (string * V)) :
  k <> k' -> AMap.get k (AMap.delete k' m) = AMap.get k m.
Proof.
  intros Hne. induction m as [|[k'' v'] m IH]; simpl; auto.
  destruct (String.eqb k' k'') eqn:E; simpl.
  - apply String.eqb_eq in E; subst.
    apply String.eqb_neq in Hne. now rewrite Hne.
  - now rewrite IH.
Qed.

Lemma get_In {V} (k : string) (v : V) m :
  AMap.get k m = Some v ->
  exists pre post, m = pre ++ (k, v) :: post /\ ~ In k (map fst pre).
Proof.
  induction m as [|[k' v'] m IH]; simpl; [discriminate|].
  destruct (String.eqb k k') eqn:E.
  - intros H; inversion H; subst. apply String.eqb_eq in E; subst.
    exists [], m. split; auto.
  - intros H. destruct (IH H) as (pre & post & -> & Hn).
    exists ((k', v') :: pre), post. split; [reflexivity|].
    simpl. apply String.eqb_neq in E. intros [Heq|Hin]; [congruence|tauto].
Qed.

Lemma In_get {V} (k : string) (m : list (string * V)) :
  In k (map fst m) -> exists v, AMap.get k m = Some v.
Proof.
  induction m as [|[k' v'] m IH]; simpl; [tauto|].
  destruct (String.eqb k k') eqn:E; [eauto|].
  intros [Heq|Hin]; [apply String.eqb_neq in E; congruence|auto].
Qed.

Lemma get_some_In {V} (k : string) (v : V) m : AMap.get k m = Some v -> In (k, v) m.
Proof.
  intros H. destruct (get_In k v m H) as (pre & post & -> & _).
  apply in_or_app. simpl. auto.
Qed.

(** ** The remapper *)

Section Remapper.
Import Migrate.
Variables (kp : string -> option string) (rfm : ReferenceFieldMap)
          (idm : IdMapBySObject).

Lemma resolve_entry_other rec f f' v' :
  f <> f' -> AMap.get f (resolve_entry kp rfm idm rec (f', v')) = AMap.get f rec.
Proof.
  intros Hne. unfold resolve_entry.
  destruct (remappable v'); auto.
  destruct (AMap.get f' rfm); auto.
  destruct (resolve_target kp l s); auto.
  destruct (String.eqb s0 ""); auto.
  destruct (AMap.get s0 idm); auto.
  destruct (AMap.get s l0); auto.
  destruct (String.eqb s1 ""); auto.
  now apply get_set_other.
Qed.

Lemma fold_resolve_other es rec f :
  ~ In f (map fst es) ->
  AMap.get f (fold_left (resolve_entry kp rfm idm) es rec) = AMap.get f rec.
Proof.
  revert rec. induction es as [|[f' v'] es IH]; simpl; intros rec Hn; auto.
  rewrite IH by tauto. apply resolve_entry_other. intros ->. tauto.
Qed.

Lemma remappable_some v s :
  remappable v = Some s -> v = FString s /\ s <> "" /\ Js.startsWith s "0" = true.
Proof.
  unfold remappable. destruct v; try discriminate.
  destruct (negb (String.eqb s0 "") && Js.startsWith s0 "0") eqn:E; [|discriminate].
  intros H; inversion H; subst. apply andb_true_iff in E as [E1 E2].
  apply negb_true_iff, String.eqb_neq in E1. auto.
Qed.

(** The one entry of [f] either rewrites it as [rewrites_to] says or leaves
    the record as it is. *)
Lemma resolve_entry_same rec f v :
  (forall mapped, Graph.rewrites_to kp rfm idm f v mapped ->
     AMap.get f (resolve_entry kp rfm idm rec (f, v)) = Some (FString mapped)) /\
  ((~ exists mapped, Graph.rewrites_to kp rfm idm f v mapped) ->
     resolve_entry kp rfm idm rec (f, v) = rec).
Proof.
  split.
  - intros mapped (s & poss & o & m & -> & Hs & H0 & Hp & Ht & Ho & Hm & Hmap & Hne).
    unfold resolve_entry, remappable.
    apply String.eqb_neq in Hs. rewrite Hs, H0. simpl.
    rewrite Hp, Ht. apply String.eqb_neq in Ho. rewrite Ho, Hm, Hmap.
    apply String.eqb_neq in Hne. rewrite Hne. apply get_set_same.
  - intros Hno. unfold resolve_entry.
    destruct (remappable v) as [s|] eqn:Er; auto.
    destruct (remappable_some v s Er) as (-> & Hs & H0).
    destruct (AMap.get f rfm) as [poss|] eqn:Ep; auto.
    destruct (resolve_target kp poss s) as [o|] eqn:Et; auto.
    destruct (String.eqb o "") eqn:Eo; auto.
    destruct (AMap.get o idm) as [m|] eqn:Em; auto.
    destruct (AMap.get s m) as [mapped|] eqn:Emap; auto.
    destruct (String.eqb mapped "") eqn:Ene; auto.
    exfalso. apply Hno. exists mapped, s, poss, o, m.
    apply String.eqb_neq in Eo, Ene. repeat split; auto.
Qed.

(** The value of [f] after the whole loop is decided by its own entry. *)
Lemma resolve_references_field rec f v :
  NoDup (map fst rec) -> AMap.get f rec = Some v ->
  exists before,
    AMap.get f before = Some v /\
    AMap.get f (resolveReferencesWithFieldMap kp rec rfm idm) =
    AMap.get f (resolve_entry kp rfm idm before (f, v)).
Proof.
  intros Hnd Hv. destruct (get_In f v rec Hv) as (pre & post & Hrec & Hpre).
  unfold resolveReferencesWithFieldMap.
  assert (Hpost : ~ In f (map fst post)).
  { rewrite Hrec, map_app in Hnd. simpl in Hnd.
    apply NoDup_remove_2 in Hnd. intros Hin. apply Hnd. apply in_or_app; auto. }
  exists (fold_left (resolve_entry kp rfm idm) pre rec). split.
  - rewrite fold_resolve_other; auto.
  - generalize rec at 2 3. intros init. rewrite Hrec, fold_left_app. simpl.
    rewrite fold_resolve_other; auto.
Qed.

End Remapper.

(* ================================================================== *)
(** * The claims *)

(** ** Cross-system remapper ([resolveReferencesWithFieldMap]) *)

Module RemapperClaims.
Import Migrate Samples.

(** C10: the remapper only considers non-empty string values starting with
    '0'; a field holding a string that does not start with '0', or a
    non-string, is unchanged, also when it is reference-typed and the id map
    of its target contains the value. *)
Theorem remapper_ignores_values_not_starting_with_zero
  (kp : string -> option string) (rec : SRecord) (rfm : ReferenceFieldMap)
  (idm : IdMapBySObject) (f : string) (v : FieldValue) :
  NoDup (map fst rec) ->
  AMap.get f rec = Some v ->
  (forall s, v = FString s -> Js.startsWith s "0" = false) ->
  AMap.get f (resolveReferencesWithFieldMap kp rec rfm idm) = Some v.
Proof.
  intros Hnd Hv Hs.
  destruct (resolve_references_field kp rfm idm rec f v Hnd Hv) as (before & Hb & ->).
  rewrite (proj2 (resolve_entry_same kp rfm idm before f v)); auto.
  intros (mapped & s & poss & o & m & -> & _ & H0 & _).
  rewrite (Hs s eq_refl) in H0. discriminate.
Qed.

Lemma remapper_ignores_values_not_starting_with_zero_witness :
  AMap.get "Parent__c" (resolveReferencesWithFieldMap no_prefix sample_record
                          sample_fields sample_ids) = Some (FString "a01X").
Proof.
  apply (remapper_ignores_values_not_starting_with_zero no_prefix sample_record
           sample_fields sample_ids "Parent__c" (FString "a01X")).
  - vm_compute. repeat constructor; simpl; intuition discriminate.
  - reflexivity.
  - intros s H. inversion H. reflexivity.
Defined.

(** C4 as stated fails: [Parent__c] is reference-typed, its only target
    [Obj__c] has an id map that contains the current value, yet the field
    is not rewritten (the value does not start with '0'). *)
Lemma remapper_mapped_value_not_rewritten :
  AMap.get "Parent__c" sample_fields = Some ["Obj__c"] /\
  AMap.get "Obj__c" sample_ids = Some [("a01X", "a01Y")] /\
  AMap.get "a01X" [("a01X", "a01Y")] = Some "a01Y" /\
  AMap.get "Parent__c" (resolveReferencesWithFieldMap no_prefix sample_record
                          sample_fields sample_ids) = Some (FString "a01X").
Proof. vm_compute. repeat split. Qed.

(** C4 (amended): a reference-typed field is rewritten to the mapped new id
    exactly when its value is a non-empty string starting with '0', its
    target type resolves, that type has an id map, and the map sends the
    value to a non-empty new id ([rewrites_to]); in every other case the
    field keeps its value, and fields that are not reference-typed are never
    modified. *)
Theorem remapper_rewrite_characterisation
  (kp : string -> option string) (rec : SRecord) (rfm : ReferenceFieldMap)
  (idm : IdMapBySObject) (f : string) (v : FieldValue) :
  NoDup (map fst rec) ->
  AMap.get f rec = Some v ->
  (forall mapped, Graph.rewrites_to kp rfm idm f v mapped ->
     AMap.get f (resolveReferencesWithFieldMap kp rec rfm idm) = Some (FString mapped)) /\
  (AMap.get f rfm = None ->
     AMap.get f (resolveReferencesWithFieldMap kp rec rfm idm) = Some v) /\
  ((~ exists mapped, Graph.rewrites_to kp rfm idm f v mapped) ->
     AMap.get f (resolveReferencesWithFieldMap kp rec rfm idm) = Some v).
Proof.
  intros Hnd Hv.
  destruct (resolve_references_field kp rfm idm rec f v Hnd Hv) as (before & Hb & ->).
  destruct (resolve_entry_same kp rfm idm before f v) as [H1 H2].
  split; [exact H1|]. split.
  - intros Hn. rewrite H2; auto.
    intros (mapped & s & poss & _ & _ & _ & _ & _ & Hp & _). congruence.
  - intros Hn. rewrite H2; auto.
Qed.

Lemma remapper_rewrite_characterisation_witness :
  AMap.get "Parent__c"
    (resolveReferencesWithFieldMap no_prefix
       [("Parent__c", FString "001X")] sample_fields
       [("Obj__c", [("001X", "001Y")])]) = Some (FString "001Y").
Proof.
  apply (proj1 (remapper_rewrite_characterisation no_prefix
                  [("Parent__c", FString "001X")] sample_fields
                  [("Obj__c", [("001X", "001Y")])] "Parent__c" (FString "001X")
                  ltac:(repeat constructor; simpl; tauto) eq_refl)).
  exists "001X", ["Obj__c"], "Obj__c", [("001X", "001Y")].
  repeat split; discriminate.
Defined.

End RemapperClaims.

(** ** Token expander and execution driver ([run.ts]) *)

Module RunClaims.
Import Run Samples.

Lemma startsWith_faker_shape s :
  Js.startsWith s "#{faker." = true ->
  exists rest, s = String "#" (String "{" (String "f" rest)).
Proof.
  unfold Js.startsWith. intros H.
  destruct s as [|c1 [|c2 [|c3 s]]]; cbn [String.prefix] in H; try discriminate;
  repeat match goal with
         | H : context [ascii_dec ?a ?b] |- _ => destruct (ascii_dec a b); subst
         end; try discriminate.
  all: eauto.
Qed.

(** A value written like a synthetic-data expression keeps its leading
    ['#'] through counter substitution, so it is never a reference token. *)
Lemma faker_shape_not_reference s rep :
  Js.startsWith s "#{faker." = true ->
  is_reference_token (Js.replace_all "#{counter}" rep s) = false.
Proof.
  intros H. destruct (startsWith_faker_shape s H) as [rest ->].
  reflexivity.
Qed.

Lemma resolve_faker_warning_shape faker s w :
  Faker.resolveFakerExpression faker s = (None, w) ->
  w = [] \/ Js.startsWith s "#{faker." = true.
Proof.
  unfold Faker.resolveFakerExpression.
  destruct (Js.startsWith s "#{faker.") eqn:E1; [auto|].
  simpl. intros H; inversion H; auto.
Qed.

Lemma random_index_lt d n : valid_draw d -> 0 < n -> random_index d n < n.
Proof.
  unfold valid_draw, random_index. intros Hd Hn.
  apply Nat.Div0.div_lt_upper_bound. nia.
Qed.

(** C3 as stated fails: [#{faker.person.foo}] hits an undefined segment, a
    warning is emitted, but the field's value is the literal string, not
    null. *)
Lemma unresolvable_faker_path_not_null :
  Faker.walk sample_faker (Js.split_char "." "person.foo") = Faker.WalkUndefined /\
  processValue sample_faker (FString "#{faker.person.foo}") 0 false [] half =
    (FString "#{faker.person.foo}", [WarnInvalidFakerPath "person.foo"]).
Proof. vm_compute. split; reflexivity. Qed.

(** C3 (amended): a synthetic-data expression whose path hits an undefined
    segment makes [resolveFakerExpression] warn once and return null;
    [processValue] then takes that null as "not an expression" and goes on:
    the field gets the counter-substituted original string, not null. *)
Theorem unresolvable_faker_path_keeps_literal
  (faker : Faker.jsval) (s : string) (counter : nat) (isDryRun : bool)
  (referenceMap : ReferenceMap) (d : Draw) :
  Js.startsWith s "#{faker." = true ->
  Js.endsWith s "}" = true ->
  Faker.walk faker (Js.split_char "." (Js.slice_from_to_end 8 1 s)) = Faker.WalkUndefined ->
  Faker.resolveFakerExpression faker s =
    (None, [WarnInvalidFakerPath (Js.slice_from_to_end 8 1 s)]) /\
  processValue faker (FString s) counter isDryRun referenceMap d =
    (FString (Js.replace_all "#{counter}" (Js.nat_to_string (counter + 1)) s),
     [WarnInvalidFakerPath (Js.slice_from_to_end 8 1 s)]).
Proof.
  intros H1 H2 Hw.
  assert (Hr : Faker.resolveFakerExpression faker s =
                 (None, [WarnInvalidFakerPath (Js.slice_from_to_end 8 1 s)])).
  { unfold Faker.resolveFakerExpression. rewrite H1, H2. simpl. now rewrite Hw. }
  split; [exact Hr|].
  unfold processValue. rewrite Hr.
  rewrite (faker_shape_not_reference s _ H1), andb_false_r. reflexivity.
Qed.

Lemma unresolvable_faker_path_keeps_literal_witness :
  processValue sample_faker (FString "#{faker.person.foo}") 0 false [] half =
    (FString "#{faker.person.foo}", [WarnInvalidFakerPath "person.foo"]).
Proof.
  apply (unresolvable_faker_path_keeps_literal sample_faker "#{faker.person.foo}"
           0 false [] half); reflexivity.
Defined.

(** C8 as stated fails in dry-run mode: a reference token whose type has no
    retained successes comes back as the substituted string, with no
    warning, instead of null with one warning. *)
Lemma dry_run_reference_not_resolved :
  processValue sample_faker (FString "@{Account.Id}") 0 true [] half =
    (FString "@{Account.Id}", []).
Proof. reflexivity. Qed.

(** C8 (amended): the fixed resolution order of [processValue].  Non-strings
    pass unchanged; a resolved synthetic-data expression is returned at once;
    otherwise the counter token is substituted everywhere and, outside
    dry-run mode only, a whole-string reference token resolves to the id of
    the member of the retained list at index [floor(random * length)]
    ([random_index]), or to null with exactly one warning when
    the list is absent or empty; in every other case the substituted string
    is returned. *)
Theorem token_expander_resolution_order
  (faker : Faker.jsval) (value : FieldValue) (counter : nat) (isDryRun : bool)
  (referenceMap : ReferenceMap) (d : Draw) :
  valid_draw d ->
  ((forall s, value <> FString s) ->
     processValue faker value counter isDryRun referenceMap d = (value, [])) /\
  (forall s r w, value = FString s ->
     Faker.resolveFakerExpression faker s = (Some r, w) ->
     processValue faker value counter isDryRun referenceMap d = (r, w)) /\
  (forall s w, value = FString s ->
     Faker.resolveFakerExpression faker s = (None, w) ->
     let t := Js.replace_all "#{counter}" (Js.nat_to_string (counter + 1)) s in
     (isDryRun = false -> is_reference_token t = true ->
        (forall l, AMap.get (ref_key t) referenceMap = Some l -> l <> [] ->
           exists r, nth_error l (random_index d (length l)) = Some r /\ In r l /\
             processValue faker value counter isDryRun referenceMap d = (id_value r, [])) /\
        ((AMap.get (ref_key t) referenceMap = None \/
          AMap.get (ref_key t) referenceMap = Some []) ->
           processValue faker value counter isDryRun referenceMap d =
             (FNull, [WarnReferenceNotFound (ref_key t)]))) /\
     ((isDryRun = true \/ is_reference_token t = false) ->
        processValue faker value counter isDryRun referenceMap d = (FString t, w))).
Proof.
  intros Hd. split; [|split].
  - intros Hns. destruct value; auto. exfalso. exact (Hns s eq_refl).
  - intros s r w -> Hr. unfold processValue. now rewrite Hr.
  - intros s w -> Hr t. split.
    + intros Hdry Href.
      assert (Hw : w = []).
      { destruct (resolve_faker_warning_shape faker s w Hr) as [Hw|Hf]; auto.
        exfalso. pose proof (faker_shape_not_reference s
                               (Js.nat_to_string (counter + 1)) Hf) as Hn.
        fold t in Hn. congruence. }
      subst w. unfold processValue. rewrite Hr. fold t. rewrite Hdry, Href. simpl.
      split.
      * intros l Hl Hne. rewrite Hl.
        assert (Hlen : 0 < length l) by (destruct l; simpl; [congruence|lia]).
        apply Nat.ltb_lt in Hlen as Hlt. rewrite Hlt.
        pose proof (random_index_lt d (length l) Hd (proj1 (Nat.ltb_lt _ _) Hlt)) as Hi.
        destruct (nth_error l (random_index d (length l))) as [r|] eqn:En.
        -- exists r. split; [reflexivity|]. split; [eapply nth_error_In; eauto|reflexivity].
        -- apply nth_error_None in En. lia.
      * intros [Hl|Hl]; rewrite Hl; reflexivity.
    + intros Hc. unfold processValue. rewrite Hr. fold t.
      destruct Hc as [-> | ->]; simpl; [reflexivity|].
      now rewrite andb_false_r.
Qed.

Lemma token_expander_resolution_order_witness :
  processValue sample_faker (FString "@{Account.Id}") 0 false [] half =
    (FNull, [WarnReferenceNotFound "Account"]) /\
  exists r, nth_error [mkResult true (Some "001A") []; mkResult true (Some "001B") []]
              (random_index half 2) = Some r /\
    In r [mkResult true (Some "001A") []; mkResult true (Some "001B") []] /\
    processValue sample_faker (FString "@{Account.Id}") 0 false
      [("Account", [mkResult true (Some "001A") []; mkResult true (Some "001B") []])] half
    = (id_value r, []).
Proof.
  assert (Hd : valid_draw half) by (unfold valid_draw; simpl; lia).
  split.
  - exact (proj2 (proj1 (proj2 (proj2
             (token_expander_resolution_order sample_faker (FString "@{Account.Id}")
                0 false [] half Hd)) "@{Account.Id}" [] eq_refl eq_refl) eq_refl eq_refl)
             (or_introl eq_refl)).
  - exact (proj1 (proj1 (proj2 (proj2
             (token_expander_resolution_order sample_faker (FString "@{Account.Id}")
                0 false
                [("Account", [mkResult true (Some "001A") []; mkResult true (Some "001B") []])]
                half Hd)) "@{Account.Id}" [] eq_refl eq_refl) eq_refl eq_refl)
             [mkResult true (Some "001A") []; mkResult true (Some "001B") []]
             eq_refl ltac:(discriminate)).
Defined.

(** C9 as stated fails: a result with the success flag set and an empty
    identifier is classified as a success. *)
Lemma empty_id_counts_as_success :
  isSuccess (mkResult true (Some "") []) = true.
Proof. reflexivity. Qed.

Lemma build_records_nonempty faker step i n isDryRun referenceMap draws :
  n <> 0 -> fst (build_records faker step i n isDryRun referenceMap draws) <> [].
Proof.
  destruct n as [|n]; [congruence|]. intros _. simpl.
  destruct (build_fields faker (fields step) i 0 isDryRun referenceMap draws []).
  destruct (build_records faker step (S i) n isDryRun referenceMap draws).
  simpl. discriminate.
Qed.

Lemma emit_all_in evs l x : In x evs -> In x (fst (Cmd.emit_all evs l)).
Proof. intros H. simpl. apply in_or_app. auto. Qed.

(** C9 (amended): a bulk-create result is a success iff its success flag is
    true and its identifier is a string (possibly empty); every other result
    is reported as a failure; and a step with [saveRefs] stores exactly the
    successes, in result order, under its object type. *)
Theorem bulk_results_partition
  (faker : Faker.jsval) (bulk_load : string -> list SRecord -> Throws (list SuccessResult))
  (step : SeedingStep) (referenceMap : ReferenceMap)
  (out : list (string * list SRecord)) (draws : nat -> nat -> Draw)
  (results : list SuccessResult) (l : list Event) :
  count step <> 0 ->
  bulk_load (sobject step)
    (fst (build_records faker step 0 (count step) false referenceMap draws)) = Returns results ->
  (forall r, isSuccess r = true <-> success r = true /\ exists s, id r = Some s) /\
  exists l',
    processStep faker bulk_load step false referenceMap out draws l =
      (l', Returns (if saveRefs step
                    then AMap.set (sobject step) (filter isSuccess results) referenceMap
                    else referenceMap, out)) /\
    (forall r, In r results -> isSuccess r = false -> In (WarnFailedInsert r) l').
Proof.
  intros Hc Hb. split.
  - intros r. unfold isSuccess.
    split.
    + intros H. apply andb_true_iff in H as [H1 H2]. split; auto.
      destruct (id r); [eauto|discriminate].
    + intros [H1 [s0 H2]]. now rewrite H1, H2.
  - pose proof (build_records_nonempty faker step 0 (count step) false referenceMap draws Hc) as Hne.
    unfold processStep.
    destruct (build_records faker step 0 (count step) false referenceMap draws)
      as [records w] eqn:Ebr.
    simpl in Hne, Hb.
    destruct records as [|r0 rs]; [congruence|].
    unfold Cmd.bind, Cmd.emit, Cmd.emit_all, Cmd.try_catch, Cmd.lift.
    rewrite Hb. unfold record_results, Cmd.bind, Cmd.ret.
    set (fl := filter (fun r => negb (isSuccess r)) results).
    destruct (Nat.ltb 0 (length fl)) eqn:Ef.
    + eexists. split; [reflexivity|].
      intros r Hin Hns. apply in_or_app. left. apply in_or_app. right.
      apply in_map. apply filter_In. rewrite Hns. auto.
    + eexists. split; [reflexivity|].
      intros r Hin Hns. exfalso.
      assert (In r fl) by (apply filter_In; rewrite Hns; auto).
      destruct fl; [contradiction|]. simpl in Ef. discriminate.
Qed.

Lemma bulk_results_partition_witness :
  exists l',
    processStep sample_faker
      (fun _ _ => Returns [mkResult true (Some "001A") []; mkResult false None ["dup"]])
      (mkStep "Account" 1 true [("Name", FString "Acme")]) false [] [] (fun _ _ => half) [] =
      (l', Returns ([("Account", [mkResult true (Some "001A") []])], [])) /\
    In (WarnFailedInsert (mkResult false None ["dup"])) l'.
Proof.
  destruct (bulk_results_partition sample_faker
      (fun _ _ => Returns [mkResult true (Some "001A") []; mkResult false None ["dup"]])
      (mkStep "Account" 1 true [("Name", FString "Acme")]) [] [] (fun _ _ => half)
      [mkResult true (Some "001A") []; mkResult false None ["dup"]] []
      ltac:(simpl; discriminate) eq_refl) as [_ [l' [Hp Hf]]].
  exists l'. split; [exact Hp|]. apply Hf; [simpl; auto|reflexivity].
Defined.

End RunClaims.

(** ** Migration driver ([runMigrationPlan]) *)

Module MigrationClaims.
Import Migrate Samples.

(** C2 as stated fails: the describe behind the first entry throws, and the
    second entry is never processed: its "Validating query" line never
    appears, and the run ends with the error. *)
Lemma migration_error_skips_later_entries :
  ~ In (LogValidating "Contact") (fst (runMigrationPlan failing_describe two_entries [])) /\
  snd (runMigrationPlan failing_describe two_entries []) =
    Raises (ExnError "Error with Account: INVALID_TYPE: sObject type is not supported").
Proof.
  vm_compute. split; [|reflexivity].
  intros H. repeat (destruct H as [H|H]; [discriminate|]). exact H.
Qed.

(** C2 (amended): when processing entry [e] throws (a missing query or a
    describe, query or insert failure), the driver reports the error naming
    [e]'s object type through [this.error], which throws again: the run ends
    there with that error and no later entry is processed. *)
Theorem migration_error_ends_run
  (svc : Services) (pre : list MigrationObject) (e : MigrationObject)
  (post : list MigrationObject) (t0 t : IdMapBySObject) (l l1 l2 : list Event)
  (ex : Exn) :
  migrate_entries svc pre t0 l = (l1, Returns t) ->
  process_entry svc e t l1 = (l2, Raises ex) ->
  migrate_entries svc (pre ++ e :: post) t0 l =
    (l2 ++ [ErrorReported ("Error with " ++ mo_sobject e ++ ": " ++ exn_message ex)],
     Raises (ExnError ("Error with " ++ mo_sobject e ++ ": " ++ exn_message ex))).
Proof.
  revert t0 l. induction pre as [|a pre IH]; intros t0 l Hpre He; simpl in *.
  - unfold Cmd.ret in Hpre. inversion Hpre; subst.
    unfold Cmd.bind at 1, migrate_entry, Cmd.try_catch. rewrite He. reflexivity.
  - unfold Cmd.bind at 1 in Hpre. unfold Cmd.bind at 1.
    destruct (migrate_entry svc a t0 l) as [la [ta|ea]]; [|discriminate].
    apply IH; assumption.
Qed.

Lemma migration_error_ends_run_witness :
  runMigrationPlan failing_describe two_entries [] =
    ([LogValidating "Account";
      ErrorReported "Error with Account: INVALID_TYPE: sObject type is not supported"],
     Raises (ExnError "Error with Account: INVALID_TYPE: sObject type is not supported")).
Proof.
  pose proof (migration_error_ends_run failing_describe []
             (mkMigrationObject "Account" (Some "SELECT Id, Name FROM Account"))
             [mkMigrationObject "Contact" (Some "SELECT Id, LastName FROM Contact")]
             [] [] [] [] [LogValidating "Account"]
             (ExnError "INVALID_TYPE: sObject type is not supported") eq_refl eq_refl)
    as H.
  cbn [app] in H. unfold runMigrationPlan, two_entries, Cmd.bind at 1.
  rewrite H. reflexivity.
Defined.

End MigrationClaims.

(** ** The sequencer *)

Section Sequencer.
Import Generate.

Variable g : DepGraph.

(** [t] occurs strictly before [s] in [l]. *)
Definition before (l : list string) (t s : string) : Prop :=
  exists l1 l2 l3, l = l1 ++ t :: l2 ++ s :: l3.

(** Every dependency of a node of [sorted] was pushed before it. *)
Definition ordered (sorted : list string) : Prop :=
  forall x y, In x sorted -> In y (deps_of g x) -> before sorted y x.

Lemma before_app l e t s : before l t s -> before (l ++ e) t s.
Proof.
  intros (l1 & l2 & l3 & ->). exists l1, l2, (l3 ++ e).
  rewrite <- app_assoc. simpl. rewrite <- app_assoc. reflexivity.
Qed.

Lemma ordered_nil : ordered [].
Proof. intros x y []. Qed.

Lemma ordered_push s node :
  ordered s -> (forall y, In y (deps_of g node) -> In y s) -> ordered (s ++ [node]).
Proof.
  intros Ho Hd x y Hx Hy. apply in_app_or in Hx. destruct Hx as [Hx|[<-|[]]].
  - apply before_app; auto.
  - destruct (in_split y s (Hd y Hy)) as (l1 & l2 & ->).
    exists l1, l2, []. rewrite <- app_assoc. reflexivity.
Qed.

Lemma set_has_true x s : AMap.set_has x s = true -> In x s.
Proof.
  unfold AMap.set_has. intros H. apply existsb_exists in H as (y & Hy & E).
  apply String.eqb_eq in E. now subst.
Qed.

Lemma set_has_false x s : AMap.set_has x s = false -> ~ In x s.
Proof.
  unfold AMap.set_has. intros H Hin.
  assert (existsb (String.eqb x) s = true) as H'
    by (apply existsb_exists; exists x; split; [exact Hin | apply String.eqb_refl]).
  congruence.
Qed.

(** What one call of the dependency loop guarantees, given what each
    [visit(dep)] guarantees: [sorted] only grows, and holds every [dep]. *)
Lemma for_each_dep_ok (vd : string -> list string -> visit_result) :
  (forall dep s s', vd dep s = VOk s' -> ordered s ->
     (exists e, s' = s ++ e) /\ In dep s' /\ ordered s') ->
  forall ds s s', for_each_dep vd ds s = VOk s' -> ordered s ->
    (exists e, s' = s ++ e) /\ (forall x, In x ds -> In x s') /\ ordered s'.
Proof.
  intros Hvd ds. induction ds as [|dep ds IH]; simpl; intros s s' H Ho.
  - inversion H; subst. split; [exists []; now rewrite app_nil_r|]. split; [tauto|auto].
  - destruct (vd dep s) as [s1| |] eqn:E; try discriminate.
    destruct (Hvd dep s s1 E Ho) as ([e1 ->] & Hin1 & Ho1).
    destruct (IH _ _ H Ho1) as ([e2 ->] & Hin2 & Ho2).
    split; [exists (e1 ++ e2); now rewrite app_assoc|]. split; [|exact Ho2].
    intros x [<-|Hx]; [apply in_or_app; now left | auto].
Qed.

Lemma visit_ok fuel : forall path node sorted s',
  visit fuel g path node sorted = VOk s' -> ordered sorted ->
  (exists e, s' = sorted ++ e) /\ In node s' /\ ordered s'.
Proof.
  induction fuel as [|f IH]; intros path node sorted s' H Ho; simpl in H;
    destruct (AMap.set_has node path); try discriminate;
    destruct (AMap.set_has node sorted) eqn:Hs.
  1, 3: inversion H; subst; split; [exists []; now rewrite app_nil_r|];
        split; [now apply set_has_true | exact Ho].
  - discriminate.
  - destruct (for_each_dep _ (deps_of g node) sorted) as [s1| |] eqn:E;
      try discriminate. inversion H; subst.
    destruct (for_each_dep_ok _ (fun dep s s' H' => IH (node :: path) dep s s' H')
                _ _ _ E Ho) as ([e ->] & Hin & Ho1).
    split; [exists (e ++ [node]); now rewrite app_assoc|].
    split; [apply in_or_app; right; now left|].
    apply ordered_push; auto.
Qed.

Lemma visit_all_eq fuel nodes sorted :
  visit_all fuel g nodes sorted = for_each_dep (fun n s => visit fuel g [] n s) nodes sorted.
Proof.
  revert sorted. induction nodes as [|n nodes IH]; simpl; intros; auto.
  destruct (visit fuel g [] n sorted); auto.
Qed.

(** The traversal from every key leaves each dependency before its dependent. *)
Lemma sequencer_order fuel sorted :
  visit_all fuel g (map fst g) [] = VOk sorted ->
  forall x f y, Graph.edge g x f y -> before sorted y x.
Proof.
  intros H x f y (m & Hx & Hy). rewrite visit_all_eq in H.
  destruct (for_each_dep_ok _ (fun n s s' H' => visit_ok fuel [] n s s' H')
              _ _ _ H ordered_nil) as (_ & Hin & Ho).
  apply Ho.
  - apply Hin. apply (in_map fst _ (x, m)). now apply get_some_In.
  - unfold deps_of. rewrite Hx. apply (in_map snd _ (f, y)). now apply get_some_In.
Qed.

(** Every node a [visit] can reach. *)
Lemma deps_in_nodes node y : In y (deps_of g node) -> In y (graph_nodes g).
Proof.
  unfold deps_of, graph_nodes. destruct (AMap.get node g) as [m|] eqn:E; [|intros []].
  intros Hy. apply in_or_app. right. apply in_flat_map.
  exists (node, m). split; [now apply get_some_In | exact Hy].
Qed.

Lemma for_each_dep_no_fuel (vd : string -> list string -> visit_result) ds :
  (forall dep s, In dep ds -> vd dep s <> VFuel) ->
  forall s, for_each_dep vd ds s <> VFuel.
Proof.
  induction ds as [|dep ds IH]; simpl; intros Hvd s; [discriminate|].
  destruct (vd dep s) eqn:E.
  - apply IH. intros; apply Hvd; auto.
  - discriminate.
  - exfalso. apply (Hvd dep s); auto.
Qed.

Lemma visit_no_fuel fuel : forall path node sorted,
  NoDup path -> incl path (graph_nodes g) -> In node (graph_nodes g) ->
  length (graph_nodes g) < fuel + length path ->
  visit fuel g path node sorted <> VFuel.
Proof.
  induction fuel as [|f IH]; intros path node sorted Hnd Hincl Hn Hlen; simpl;
    destruct (AMap.set_has node path) eqn:Hp; try discriminate;
    destruct (AMap.set_has node sorted); try discriminate.
  - exfalso. apply set_has_false in Hp.
    pose proof (NoDup_incl_length (NoDup_cons node Hp Hnd) (incl_cons Hn Hincl)).
    simpl in *. lia.
  - apply set_has_false in Hp.
    destruct (for_each_dep _ (deps_of g node) sorted) eqn:E; try discriminate.
    exfalso. revert E. apply for_each_dep_no_fuel. intros dep s Hd.
    apply IH.
    + now constructor.
    + now apply incl_cons.
    + now apply (deps_in_nodes node).
    + simpl. lia.
Qed.

(** [sort_fuel] is enough: the model never runs out of fuel. *)
Lemma sort_never_out_of_fuel : visit_all (sort_fuel g) g (map fst g) [] <> VFuel.
Proof.
  rewrite visit_all_eq. apply for_each_dep_no_fuel. intros n s Hn.
  apply visit_no_fuel.
  - constructor.
  - intros x [].
  - unfold graph_nodes. apply in_or_app. now left.
  - unfold sort_fuel. simpl. lia.
Qed.

End Sequencer.

Lemma sorted_plan_before plan sorted t s T S :
  before sorted t s ->
  Generate.find_step plan t = Some T -> Generate.find_step plan s = Some S ->
  exists o1 o2 o3, Generate.sorted_plan plan sorted = o1 ++ T :: o2 ++ S :: o3.
Proof.
  intros (l1 & l2 & l3 & ->) Ht Hs. unfold Generate.sorted_plan.
  rewrite flat_map_app. simpl. rewrite flat_map_app. simpl. rewrite Ht, Hs.
  eexists _, _, _. reflexivity.
Qed.

(** ** Removing one edge *)

Lemma set_app {V} k (v v' : V) pre post :
  ~ In k (map fst pre) -> AMap.set k v' (pre ++ (k, v) :: post) = pre ++ (k, v') :: post.
Proof.
  induction pre as [|[k1 v1] pre IH]; simpl; intros Hn.
  - now rewrite String.eqb_refl.
  - destruct (String.eqb k k1) eqn:E.
    + apply String.eqb_eq in E. exfalso. apply Hn. now left.
    + rewrite IH; auto.
Qed.

Lemma delete_app {V} k (v : V) pre post :
  ~ In k (map fst pre) -> AMap.delete k (pre ++ (k, v) :: post) = pre ++ post.
Proof.
  induction pre as [|[k1 v1] pre IH]; simpl; intros Hn.
  - now rewrite String.eqb_refl.
  - destruct (String.eqb k k1) eqn:E.
    + apply String.eqb_eq in E. exfalso. apply Hn. now left.
    + rewrite IH; auto.
Qed.

Lemma wf_inner g x m : Graph.wf g -> AMap.get x g = Some m -> NoDup (map fst m).
Proof.
  intros [_ Hf] Hx. rewrite Forall_forall in Hf. apply (Hf (x, m)). now apply get_some_In.
Qed.

(** The edges left by [sObjectDepGraph.get(A).delete(F)]: all but [A --F-->]. *)
Lemma edge_after_delete g A F m x f y :
  Graph.wf g -> AMap.get A g = Some m ->
  (Graph.edge (AMap.set A (AMap.delete F m) g) x f y <->
   Graph.edge g x f y /\ ~ (x = A /\ f = F)).
Proof.
  intros Hwf Hm. pose proof (wf_inner g A m Hwf Hm) as Hnd. unfold Graph.edge. split.
  - intros (m' & Hg & Hf). destruct (String.eqb_spec x A) as [->|Hne].
    + rewrite get_set_same in Hg. inversion Hg; subst m'.
      destruct (String.eqb_spec f F) as [->|HfF].
      * now rewrite get_delete_same in Hf.
      * rewrite get_delete_other in Hf by exact HfF.
        split; [exists m; auto | intros [_ ?]; tauto].
    + rewrite get_set_other in Hg by exact Hne.
      split; [eauto | intros [? _]; tauto].
  - intros ((m' & Hg & Hf) & Hn). destruct (String.eqb_spec x A) as [->|Hne].
    + rewrite Hm in Hg. inversion Hg; subst m'.
      exists (AMap.delete F m). split; [apply get_set_same|].
      rewrite get_delete_other; [exact Hf|]. intros ->. tauto.
    + exists m'. rewrite get_set_other by exact Hne. auto.
Qed.

Lemma count_after_delete g A F B m :
  Graph.wf g -> AMap.get A g = Some m -> AMap.get F m = Some B ->
  Graph.count_between (AMap.set A (AMap.delete F m) g) A B + 1 = Graph.count_between g A B.
Proof.
  intros Hwf Hm HF.
  destruct (get_In A m g Hm) as (pre & post & -> & Hpre).
  destruct (get_In F B m HF) as (mpre & mpost & -> & Hmpre).
  rewrite delete_app by exact Hmpre. rewrite set_app by exact Hpre.
  unfold Graph.count_between, Graph.edges. rewrite !flat_map_app. simpl.
  rewrite !map_app. simpl. rewrite !filter_app, !length_app. simpl.
  rewrite !String.eqb_refl. simpl. lia.
Qed.

(** ** What the sequencer can output *)

Section Within.
Import Generate.

Lemma for_each_dep_within (U : list string) (vd : string -> list string -> Generate.visit_result) ds :
  (forall dep s s', In dep ds -> vd dep s = VOk s' -> incl s U -> incl s' U) ->
  forall s s', for_each_dep vd ds s = VOk s' -> incl s U -> incl s' U.
Proof.
  induction ds as [|dep ds IH]; simpl; intros Hvd s s' H Hs.
  - now inversion H; subst.
  - destruct (vd dep s) as [s1| |] eqn:E; try discriminate.
    apply (IH (fun d s0 s0' Hd => Hvd d s0 s0' (or_intror Hd)) s1); auto.
    apply (Hvd dep s); auto.
Qed.

(** [sortedSObjects] only receives nodes of the dependency map. *)
Lemma visit_within g fuel : forall path node sorted s',
  In node (Generate.graph_nodes g) -> Generate.visit fuel g path node sorted = VOk s' ->
  incl sorted (Generate.graph_nodes g) -> incl s' (Generate.graph_nodes g).
Proof.
  induction fuel as [|f IH]; intros path node sorted s' Hn H Hs; simpl in H;
    destruct (AMap.set_has node path); try discriminate;
    destruct (AMap.set_has node sorted); try (now inversion H; subst); try discriminate.
  destruct (Generate.for_each_dep _ (Generate.deps_of g node) sorted) as [s1| |] eqn:E;
    try discriminate. inversion H; subst.
  apply incl_app; [|now apply incl_cons].
  revert E Hs. apply for_each_dep_within. intros dep s0 s0' Hd.
  apply (IH (node :: path) dep). now apply (deps_in_nodes g node).
Qed.

Lemma sequencer_within g fuel sorted :
  Generate.visit_all fuel g (map fst g) [] = VOk sorted -> incl sorted (Generate.graph_nodes g).
Proof.
  rewrite visit_all_eq. intros H.
  refine (for_each_dep_within _ _ _ _ [] sorted H _); [|intros x []].
  intros n s s' Hn. apply (visit_within g fuel [] n).
  unfold Generate.graph_nodes. apply in_or_app. now left.
Qed.

Lemma find_step_sobject plan o S : Generate.find_step plan o = Some S -> sobject S = o.
Proof.
  unfold Generate.find_step. intros H. apply find_some in H as [_ E].
  now apply String.eqb_eq.
Qed.

End Within.

(* ------------------------------------------------------------------ *)
(** ** Claims on plan generation *)

Module GenerateClaims.
Import Generate.

(** C1: every step whose object type is neither a key nor a target of the
    dependency map (it has no recorded dependency edge) is missing from the
    sequencer's output: nothing appends such steps.  So the output is not a
    permutation of the plan; a plan without any reference yields []. *)
Theorem edgeless_steps_dropped prompt plan g d plan' out :
  resolve_cycles prompt plan = Some (g, d, plan') ->
  getSmartOrderedPlan prompt plan = Returns out ->
  forall S, ~ In (sobject S) (graph_nodes g) -> ~ In S out.
Proof.
  intros Hr Ho S Hn Hin. unfold getSmartOrderedPlan in Ho. rewrite Hr in Ho.
  destruct (visit_all (sort_fuel g) g (map fst g) []) as [sorted| |] eqn:Hv;
    try discriminate. inversion Ho; subst out.
  unfold sorted_plan in Hin. apply in_flat_map in Hin as (o & Ho' & HS).
  destruct (find_step plan' o) as [S'|] eqn:Hf; [|destruct HS].
  destruct HS as [<-|[]].
  apply Hn. rewrite (find_step_sobject _ _ _ Hf).
  exact (sequencer_within g (sort_fuel g) sorted Hv o Ho').
Qed.

Lemma edgeless_steps_dropped_witness :
  Generate.getSmartOrderedPlan Samples.first_choice Samples.lead_plan = Returns [] /\
  ~ In (mkStep "Lead" 3 false [("LastName", FString "x")]) [].
Proof.
  split; [reflexivity|].
  apply (edgeless_steps_dropped Samples.first_choice Samples.lead_plan [] []
           [mkStep "Lead" 3 false [("LastName", FString "x")]]);
    [reflexivity | reflexivity | simpl; tauto].
Defined.

(** C5 (counterexample): in the Account/Contact cycle where Account has two
    lookups to Contact, answering the prompt removes one of them and the
    other still closes the cycle. *)
Lemma cycle_break_leaves_cycle :
  exists g' d' plan',
    resolve_cycles Samples.first_choice Samples.cycle_plan = Some (g', d', plan') /\
    Graph.count_between (fst (build_graphs Samples.cycle_plan)) "Account" "Contact" = 3 /\
    Graph.pair_cycle g' "Account" "Contact".
Proof.
  do 3 eexists. split; [reflexivity|]. split; [reflexivity|].
  split; [exists "Billing_Contact__c" | exists "AccountId"]; eexists; split; reflexivity.
Qed.

(** C5 (amended): when the selected choice names an edge [A --F--> B] of a
    two-object cycle group (some edge [B --> A] exists), its removal leaves
    exactly one fewer edge between [A] and [B], and a cycle remains between
    them exactly when [A] has another field referencing [B]. *)
Theorem cycle_break_removes_selected_edge g d plan c A F B g' d' plan' :
  Graph.wf g -> parse_choice c = Some (A, F, B) ->
  Graph.edge g A F B -> Graph.has_edge g B A ->
  apply_removal c (g, d, plan) = Some (g', d', plan') ->
  Graph.count_between g' A B + 1 = Graph.count_between g A B /\
  (Graph.pair_cycle g' A B <-> exists F', F' <> F /\ Graph.edge g A F' B).
Proof.
  intros Hwf Hp He Hba Hr. unfold apply_removal in Hr. rewrite Hp in Hr.
  unfold remove_edge in Hr. destruct He as (m & Hm & HF). rewrite Hm in Hr.
  inversion Hr; subst g'. clear Hr.
  split; [now apply count_after_delete|].
  unfold Graph.pair_cycle, Graph.has_edge. split.
  - intros [(F' & HF') _]. apply (edge_after_delete g A F m) in HF' as [HF' Hne]; auto.
    exists F'. split; [|exact HF']. intros ->. tauto.
  - intros (F' & Hne & HF').
    assert (Graph.edge (AMap.set A (AMap.delete F m) g) A F' B) as H.
    { apply edge_after_delete; auto. split; [exact HF' | intros [_ E]; congruence]. }
    split; [eauto|]. destruct (String.eqb_spec A B) as [<-|HAB]; [eauto|].
    destruct Hba as (G & HG). exists G. apply edge_after_delete; auto.
    split; [exact HG | intros [E _]; congruence].
Qed.

Lemma cycle_break_removes_selected_edge_witness :
  exists g' d' plan',
    apply_removal "Account -> Primary_Contact__c -> Contact -> Lookup"
      (fst (build_graphs Samples.cycle_plan), snd (build_graphs Samples.cycle_plan),
       Samples.cycle_plan) = Some (g', d', plan') /\
    Graph.count_between g' "Account" "Contact" + 1
      = Graph.count_between (fst (build_graphs Samples.cycle_plan)) "Account" "Contact" /\
    (Graph.pair_cycle g' "Account" "Contact" <->
     exists F', F' <> "Primary_Contact__c" /\
       Graph.edge (fst (build_graphs Samples.cycle_plan)) "Account" F' "Contact").
Proof.
  do 3 eexists. split; [reflexivity|].
  eapply (cycle_break_removes_selected_edge _ (snd (build_graphs Samples.cycle_plan))
           Samples.cycle_plan "Account -> Primary_Contact__c -> Contact -> Lookup").
  - split; vm_compute; repeat constructor; simpl; intuition discriminate.
  - reflexivity.
  - eexists; split; reflexivity.
  - exists "AccountId"; eexists; split; reflexivity.
  - reflexivity.
Defined.

(** C6 (code bug): after the Account/Contact cycle is broken at
    [Account.Primary_Contact__c], the Contact step gets [saveRefs = false]
    although the Account step still references Contact through
    [Billing_Contact__c]. *)
Theorem save_refs_cleared_while_still_referenced :
  exists g' d' plan',
    resolve_cycles Samples.first_choice Samples.cycle_plan = Some (g', d', plan') /\
    Graph.edge g' "Account" "Billing_Contact__c" "Contact" /\
    (exists S, In S plan' /\ sobject S = "Contact" /\ saveRefs S = false) /\
    Graph.referenced_by_other plan' "Contact".
Proof.
  do 3 eexists. split; [reflexivity|].
  split; [eexists; split; reflexivity|].
  split; [eexists; split; [right; left; reflexivity | split; reflexivity]|].
  do 3 eexists. split; [left; reflexivity|]. split; [cbn; discriminate|].
  split; [simpl; right; left; reflexivity | reflexivity].
Qed.

(** C7: if the sequencer returns [out], then for every edge [s --f--> t] of
    the dependency map after cycle resolution, the step of [t] occurs
    strictly before the step of [s] in [out]. *)
Theorem topological_order prompt plan g d plan' out s f t S T :
  resolve_cycles prompt plan = Some (g, d, plan') ->
  getSmartOrderedPlan prompt plan = Returns out ->
  Graph.edge g s f t ->
  find_step plan' s = Some S -> find_step plan' t = Some T ->
  exists o1 o2 o3, out = o1 ++ T :: o2 ++ S :: o3.
Proof.
  intros Hr Ho He HS HT. unfold getSmartOrderedPlan in Ho. rewrite Hr in Ho.
  destruct (visit_all (sort_fuel g) g (map fst g) []) as [sorted| |] eqn:Hv;
    try discriminate. inversion Ho; subst out.
  apply (sorted_plan_before plan' sorted t s T S); auto.
  exact (sequencer_order g _ sorted Hv s f t He).
Qed.

Lemma topological_order_witness :
  exists out,
    getSmartOrderedPlan Samples.first_choice Samples.account_contact_plan = Returns out /\
    exists o1 o2 o3,
      out = o1 ++ mkStep "Account" 2 true [("Name", FString "Acme")]
               :: o2 ++ mkStep "Contact" 2 false
                    [("LastName", FString "Doe"); ("AccountId", FString "@{Account.Id}")]
               :: o3.
Proof.
  eexists. split; [reflexivity|].
  eapply (topological_order Samples.first_choice Samples.account_contact_plan _ _ _ _
            "Contact" "AccountId" "Account").
  - reflexivity.
  - reflexivity.
  - eexists; split; reflexivity.
  - reflexivity.
  - reflexivity.
Defined.

End GenerateClaims.

(* ================================================================== *)
(** * Further properties of the code *)

(** ** Association lists, continued *)

Lemma In_get_nodup {V} k (v : V) m :
  NoDup (map fst m) -> In (k, v) m -> AMap.get k m = Some v.
Proof.
  induction m as [|[k' v'] m IH]; simpl; [tauto|]. intros Hnd [E|Hin].
  - inversion E; subst. now rewrite String.eqb_refl.
  - inversion Hnd as [|? ? Hn Hnd']; subst.
    destruct (String.eqb_spec k k') as [->|Hne]; [|auto].
    exfalso. apply Hn. exact (in_map fst _ _ Hin).
Qed.

Lemma set_In {V} k (v : V) m x : In x (AMap.set k v m) -> x = (k, v) \/ In x m.
Proof.
  induction m as [|[k' v'] m IH]; simpl.
  - intros [<-|[]]; auto.
  - destruct (String.eqb_spec k k') as [->|Hne]; simpl; intros [<-|H]; auto.
    destruct (IH H); auto.
Qed.

Lemma set_keys_In {V} k (v : V) m a :
  In a (map fst (AMap.set k v m)) -> a = k \/ In a (map fst m).
Proof.
  intros H. apply in_map_iff in H as ([a' v'] & E & Hin). simpl in E; subst.
  destruct (set_In k v m _ Hin) as [E|Hin'].
  - inversion E; auto.
  - right. exact (in_map fst _ _ Hin').
Qed.

Lemma set_keys_nodup {V} k (v : V) m :
  NoDup (map fst m) -> NoDup (map fst (AMap.set k v m)).
Proof.
  induction m as [|[k' v'] m IH]; simpl; intros Hnd.
  - constructor; [intros []|constructor].
  - inversion Hnd as [|? ? Hn Hnd']; subst.
    destruct (String.eqb_spec k k') as [->|Hne]; simpl; constructor; auto.
    intros Hin. destruct (set_keys_In k v m k' Hin); auto.
Qed.

Lemma delete_In {V} k (m : list (string * V)) x : In x (AMap.delete k m) -> In x m.
Proof.
  induction m as [|[k' v'] m IH]; simpl; auto.
  destruct (String.eqb k k'); simpl; intros; intuition.
Qed.

Lemma delete_keys_nodup {V} k (m : list (string * V)) :
  NoDup (map fst m) -> NoDup (map fst (AMap.delete k m)).
Proof.
  induction m as [|[k' v'] m IH]; simpl; intros Hnd; auto.
  inversion Hnd as [|? ? Hn Hnd']; subst.
  destruct (String.eqb k k'); simpl; auto. constructor; auto.
  intros Hin. apply in_map_iff in Hin as ([a b] & E & Hin). simpl in E; subst.
  apply Hn. exact (in_map fst _ _ (delete_In _ _ _ Hin)).
Qed.

(** ** Well-formed dependency maps *)

Section WellFormed.
Import Generate.

Lemma wf_set g k m : Graph.wf g -> NoDup (map fst m) -> Graph.wf (AMap.set k m g).
Proof.
  intros [Hk Hf] Hm. split; [now apply set_keys_nodup|].
  rewrite Forall_forall in *. intros x Hx. destruct (set_In _ _ _ _ Hx) as [->|H]; auto.
Qed.

Lemma scan_fields_nodup sobj fs deps d :
  NoDup (map fst deps) -> NoDup (map fst (fst (scan_fields sobj fs deps d))).
Proof.
  revert deps d. induction fs as [|[field value] fs IH]; simpl; intros deps d Hnd; auto.
  destruct (ref_obj value); apply IH; auto. now apply set_keys_nodup.
Qed.

Lemma build_graphs_from_wf plan g d : Graph.wf g -> Graph.wf (fst (build_graphs_from plan g d)).
Proof.
  revert g d. induction plan as [|step plan IH]; simpl; intros g d Hwf; auto.
  destruct (scan_fields (sobject step) (fields step) [] d) as [deps d'] eqn:E.
  apply IH. destruct deps as [|e deps]; auto. apply wf_set; auto.
  change (e :: deps) with (fst (e :: deps, d')). rewrite <- E.
  apply scan_fields_nodup. constructor.
Qed.

Lemma apply_removal_wf c g d p g' d' p' :
  Graph.wf g -> apply_removal c (g, d, p) = Some (g', d', p') -> Graph.wf g'.
Proof.
  intros Hwf. unfold apply_removal.
  destruct (parse_choice c) as [[[from field] to]|]; [|discriminate].
  unfold remove_edge. destruct (AMap.get from g) as [m|] eqn:Hm; simpl;
    intros H; inversion H; subst; auto.
  apply wf_set; auto. apply delete_keys_nodup. exact (wf_inner g from m Hwf Hm).
Qed.

Lemma apply_removals_wf cs : forall g d p g' d' p',
  Graph.wf g -> apply_removals cs (g, d, p) = Some (g', d', p') -> Graph.wf g'.
Proof.
  induction cs as [|c cs IH]; cbn [apply_removals]; intros g d p g' d' p' Hwf H.
  - now inversion H; subst.
  - destruct (apply_removal c (g, d, p)) as [[[g1 d1] p1]|] eqn:E; [|discriminate].
    apply (IH g1 d1 p1 g' d' p'); auto. exact (apply_removal_wf c g d p g1 d1 p1 Hwf E).
Qed.

Lemma resolve_cycles_wf prompt plan g d plan' :
  resolve_cycles prompt plan = Some (g, d, plan') -> Graph.wf g.
Proof.
  unfold resolve_cycles. destruct (build_graphs plan) as [g0 d0] eqn:Eb.
  destruct (apply_removals _ (g0, d0, plan)) as [[[g1 d1] p1]|] eqn:Ea; [|discriminate].
  intros H. inversion H; subst. eapply (apply_removals_wf _ g0 d0 plan); [|exact Ea].
  change g0 with (fst (g0, d0)). rewrite <- Eb. apply build_graphs_from_wf.
  split; constructor.
Qed.

Lemma deps_edge g x y : Graph.wf g -> In y (deps_of g x) -> exists f, Graph.edge g x f y.
Proof.
  intros Hwf. unfold deps_of. destruct (AMap.get x g) as [m|] eqn:Hm; [|intros []].
  intros Hy. apply in_map_iff in Hy as ([f y'] & E & Hin). simpl in E; subst.
  exists f, m. split; auto. apply In_get_nodup; auto. exact (wf_inner g x m Hwf Hm).
Qed.

Lemma edge_deps g x f y : Graph.edge g x f y -> In y (deps_of g x).
Proof.
  intros (m & Hx & Hy). unfold deps_of. rewrite Hx.
  apply (in_map snd _ (f, y)). now apply get_some_In.
Qed.

Lemma edge_key g x f y : Graph.edge g x f y -> In x (map fst g).
Proof.
  intros (m & Hx & _). apply (in_map fst _ (x, m)). now apply get_some_In.
Qed.

End WellFormed.

(** ** The sequencer, continued *)

Section SequencerMore.
Import Generate.

Variable g : DepGraph.
Hypothesis Hwf : Graph.wf g.

Lemma reach_snoc x y f z : Graph.reach g x y -> Graph.edge g y f z -> Graph.reach g x z.
Proof.
  induction 1 as [x f' y He|x f' y z' He _ IH]; intros Hyz.
  - eapply Graph.reach_cons; [exact He|]. eapply Graph.reach_edge; exact Hyz.
  - eapply Graph.reach_cons; [exact He|]. auto.
Qed.

Lemma for_each_dep_cycle vd ds s c :
  for_each_dep vd ds s = VCycle c -> exists dep s', In dep ds /\ vd dep s' = VCycle c.
Proof.
  revert s. induction ds as [|dep ds IH]; simpl; intros s H; [discriminate|].
  destruct (vd dep s) eqn:E.
  - destruct (IH _ H) as (dep' & s' & Hin & Hv). exists dep', s'. auto.
  - inversion H; subst. exists dep, s. auto.
  - discriminate.
Qed.

(** [tempMark] only holds nodes that reach the node being visited, so the
    node a [Cyclic dependency] error names lies on a cycle. *)
Lemma visit_cycle fuel : forall path node sorted c,
  visit fuel g path node sorted = VCycle c ->
  (forall z, In z path -> Graph.reach g z node) -> Graph.reach g c c.
Proof.
  induction fuel as [|f IH]; intros path node sorted c H Hpath; simpl in H;
    destruct (AMap.set_has node path) eqn:Hp;
    try (inversion H; subst; apply Hpath, set_has_true, Hp);
    destruct (AMap.set_has node sorted); try discriminate.
  destruct (for_each_dep _ (deps_of g node) sorted) eqn:E; try discriminate.
  inversion H; subst. apply for_each_dep_cycle in E as (dep & s' & Hd & Hv).
  cbv beta in Hv. destruct (deps_edge g node dep Hwf Hd) as (f' & He).
  apply (IH _ _ _ _ Hv). intros z [<-|Hz].
  - eapply Graph.reach_edge; exact He.
  - eapply reach_snoc; [apply Hpath; exact Hz | exact He].
Qed.

Lemma sequencer_cycle fuel c :
  visit_all fuel g (map fst g) [] = VCycle c -> Graph.reach g c c.
Proof.
  rewrite visit_all_eq. intros H. apply for_each_dep_cycle in H as (n & s' & _ & Hv).
  apply (visit_cycle fuel [] n s'); [exact Hv | intros z []].
Qed.

Lemma NoDup_snoc (l : list string) x : NoDup l -> ~ In x l -> NoDup (l ++ [x]).
Proof.
  induction l as [|a l IH]; simpl; intros Hnd Hn.
  - constructor; [intros []|constructor].
  - inversion Hnd as [|? ? Ha Hnd']; subst. constructor.
    + rewrite in_app_iff. simpl. intros [H|[H|[]]]; [contradiction|]. apply Hn. now left.
    + apply IH; auto.
Qed.

Lemma for_each_dep_nodup (P : list string) (vd : string -> list string -> visit_result) :
  (forall dep s s', vd dep s = VOk s' -> NoDup s ->
     exists e, s' = s ++ e /\ NoDup s' /\ forall x, In x e -> ~ In x P) ->
  forall ds s s', for_each_dep vd ds s = VOk s' -> NoDup s ->
    exists e, s' = s ++ e /\ NoDup s' /\ forall x, In x e -> ~ In x P.
Proof.
  intros Hvd ds. induction ds as [|dep ds IH]; simpl; intros s s' H Hnd.
  - inversion H; subst. exists []. rewrite app_nil_r.
    split; [reflexivity|]. split; [exact Hnd|]. intros x [].
  - destruct (vd dep s) as [s1| |] eqn:E; try discriminate.
    destruct (Hvd _ _ _ E Hnd) as (e1 & -> & Hnd1 & Hd1).
    destruct (IH _ _ H Hnd1) as (e2 & -> & Hnd2 & Hd2).
    exists (e1 ++ e2). rewrite app_assoc. split; auto. split; auto.
    intros x Hx. apply in_app_or in Hx as [Hx|Hx]; auto.
Qed.

(** [sortedSObjects] never receives a node twice, and never a node of
    [tempMark]. *)
Lemma visit_nodup fuel : forall path node sorted s',
  visit fuel g path node sorted = VOk s' -> NoDup sorted ->
  exists e, s' = sorted ++ e /\ NoDup s' /\ forall x, In x e -> ~ In x path.
Proof.
  induction fuel as [|f IH]; intros path node sorted s' H Hnd; simpl in H;
    destruct (AMap.set_has node path) eqn:Hp; try discriminate;
    destruct (AMap.set_has node sorted) eqn:Hs.
  1, 3: inversion H; subst; exists []; rewrite app_nil_r;
        split; [reflexivity|]; split; [exact Hnd|]; intros x [].
  - discriminate.
  - destruct (for_each_dep _ (deps_of g node) sorted) as [s1| |] eqn:E; try discriminate.
    inversion H; subst.
    destruct (for_each_dep_nodup (node :: path) _
                (fun dep s s0 H' => IH (node :: path) dep s s0 H') _ _ _ E Hnd)
      as (e1 & -> & Hnd1 & Hd1).
    apply set_has_false in Hp. apply set_has_false in Hs.
    exists (e1 ++ [node]). rewrite app_assoc. split; auto. split.
    + apply NoDup_snoc; auto. rewrite in_app_iff. intros [H1|H1]; [contradiction|].
      apply (Hd1 node H1). now left.
    + intros x Hx. apply in_app_or in Hx as [Hx|[<-|[]]]; auto.
      intros Hx'. apply (Hd1 x Hx). now right.
Qed.

Lemma sequencer_nodup fuel sorted :
  visit_all fuel g (map fst g) [] = VOk sorted -> NoDup sorted.
Proof.
  rewrite visit_all_eq. intros H.
  destruct (for_each_dep_nodup [] _ (fun n s s' H' => visit_nodup fuel [] n s s' H')
              _ _ _ H (NoDup_nil _)) as (_ & _ & Hnd & _).
  exact Hnd.
Qed.

Lemma sequencer_keys fuel sorted :
  visit_all fuel g (map fst g) [] = VOk sorted -> forall x, In x (map fst g) -> In x sorted.
Proof.
  rewrite visit_all_eq. intros H.
  destruct (for_each_dep_ok g _ (fun n s s' H' => visit_ok g fuel [] n s s' H')
              _ _ _ H (ordered_nil g)) as (_ & Hin & _).
  exact Hin.
Qed.

Lemma nodup_decomposition (l1 l2 m1 m2 : list string) b :
  NoDup (l1 ++ b :: l2) -> l1 ++ b :: l2 = m1 ++ b :: m2 -> l1 = m1 /\ l2 = m2.
Proof.
  revert m1. induction l1 as [|a l1 IH]; intros [|a' m1]; simpl; intros Hnd E;
    inversion E; subst; auto.
  - inversion Hnd as [|? ? Hn _]; subst. exfalso. apply Hn. apply in_or_app. simpl. auto.
  - inversion Hnd as [|? ? Hn _]; subst. exfalso. apply Hn. apply in_or_app. simpl. auto.
  - inversion Hnd; subst. destruct (IH m1) as [-> ->]; auto.
Qed.

Lemma before_trans l a b c :
  NoDup l -> before l a b -> before l b c -> before l a c.
Proof.
  intros Hnd (l1 & l2 & l3 & E1) (m1 & m2 & m3 & E2).
  assert (E : (l1 ++ a :: l2) ++ b :: l3 = m1 ++ b :: m2 ++ c :: m3)
    by (rewrite <- app_assoc; simpl; congruence).
  assert (Hnd' : NoDup ((l1 ++ a :: l2) ++ b :: l3))
    by (rewrite <- app_assoc; simpl; rewrite <- E1; exact Hnd).
  destruct (nodup_decomposition _ _ _ _ b Hnd' E) as [<- ->].
  exists l1, (l2 ++ b :: m2), m3. rewrite E1, <- app_assoc. reflexivity.
Qed.

Lemma before_irrefl l a : NoDup l -> ~ before l a a.
Proof.
  intros Hnd (l1 & l2 & l3 & ->). apply NoDup_remove_2 in Hnd. apply Hnd.
  apply in_or_app. right. apply in_or_app. right. now left.
Qed.

Lemma before_In l a b : before l a b -> In a l.
Proof. intros (l1 & l2 & l3 & ->). apply in_or_app. right. now left. Qed.

(** In a completed traversal, whatever a node reaches comes before it. *)
Lemma sequencer_reach fuel sorted :
  visit_all fuel g (map fst g) [] = VOk sorted ->
  forall x z, Graph.reach g x z -> before sorted z x.
Proof.
  intros H. pose proof (sequencer_nodup fuel sorted H) as Hnd.
  induction 1 as [x f y He|x f y z He Hr IH].
  - exact (sequencer_order g fuel sorted H x f y He).
  - apply (before_trans sorted z y x Hnd IH).
    exact (sequencer_order g fuel sorted H x f y He).
Qed.

Lemma sequencer_acyclic fuel sorted :
  visit_all fuel g (map fst g) [] = VOk sorted -> Graph.acyclic g.
Proof.
  intros H c Hc. apply (before_irrefl sorted c (sequencer_nodup fuel sorted H)).
  exact (sequencer_reach fuel sorted H c c Hc).
Qed.

(** Every node of the dependency map ends up in [sortedSObjects]. *)
Lemma sequencer_complete fuel sorted :
  visit_all fuel g (map fst g) [] = VOk sorted ->
  forall x, In x (graph_nodes g) -> In x sorted.
Proof.
  intros H x Hx. unfold graph_nodes in Hx. apply in_app_or in Hx as [Hx|Hx].
  - exact (sequencer_keys fuel sorted H x Hx).
  - apply in_flat_map in Hx as ([k m] & Hkm & Hy). simpl in Hy.
    apply in_map_iff in Hy as ([f y] & E & Hfy). simpl in E; subst.
    assert (He : Graph.edge g k f x).
    { destruct Hwf as [Hk Hi]. exists m. split; [now apply In_get_nodup|].
      apply In_get_nodup; auto. rewrite Forall_forall in Hi. exact (Hi _ Hkm). }
    exact (before_In _ _ _ (sequencer_order g fuel sorted H k f x He)).
Qed.

End SequencerMore.

Lemma sorted_plan_sobjects plan l :
  map sobject (Generate.sorted_plan plan l)
  = filter (fun o => match Generate.find_step plan o with Some _ => true | None => false end) l.
Proof.
  unfold Generate.sorted_plan. induction l as [|o l IH]; simpl; auto.
  destruct (Generate.find_step plan o) eqn:E; simpl; rewrite IH; auto.
  now rewrite (find_step_sobject _ _ _ E).
Qed.

(* ------------------------------------------------------------------ *)
(** ** Further properties of plan generation *)

Module GenerateExtras.
Import Generate.

(** A [Cyclic dependency detected with c] error names an object type [c]
    that lies on a cycle of the dependency map left after cycle resolution. *)
Theorem cycle_error_names_cycle_node prompt plan g d plan' c :
  resolve_cycles prompt plan = Some (g, d, plan') ->
  getSmartOrderedPlan prompt plan = Raises (ExnError ("Cyclic dependency detected with " ++ c)) ->
  Graph.reach g c c.
Proof.
  intros Hr H. pose proof (resolve_cycles_wf _ _ _ _ _ Hr) as Hwf.
  unfold getSmartOrderedPlan in H. rewrite Hr in H.
  destruct (visit_all (sort_fuel g) g (map fst g) []) as [sorted|node|] eqn:Hv;
    try discriminate.
  inversion H as [E]. simpl in E. repeat (injection E as E). subst node.
  exact (sequencer_cycle g Hwf _ c Hv).
Qed.

Lemma cycle_error_names_cycle_node_witness :
  exists g d plan',
    resolve_cycles Samples.first_choice Samples.cycle_plan = Some (g, d, plan') /\
    Graph.reach g "Account" "Account".
Proof.
  do 3 eexists. split; [reflexivity|].
  eapply (cycle_error_names_cycle_node Samples.first_choice Samples.cycle_plan);
    reflexivity.
Defined.

(** The sequencer returns a plan exactly when the dependency map left after
    cycle resolution has no cycle; otherwise it rejects with the cyclic
    dependency error. *)
Theorem sequencer_succeeds_iff_acyclic prompt plan g d plan' :
  resolve_cycles prompt plan = Some (g, d, plan') ->
  ((exists out, getSmartOrderedPlan prompt plan = Returns out) <-> Graph.acyclic g) /\
  (Graph.acyclic g \/
   exists c, getSmartOrderedPlan prompt plan
             = Raises (ExnError ("Cyclic dependency detected with " ++ c))).
Proof.
  intros Hr. pose proof (resolve_cycles_wf _ _ _ _ _ Hr) as Hwf.
  unfold getSmartOrderedPlan. rewrite Hr.
  pose proof (sort_never_out_of_fuel g) as Hf.
  destruct (visit_all (sort_fuel g) g (map fst g) []) as [sorted|c|] eqn:Hv.
  - pose proof (sequencer_acyclic g _ _ Hv). split; [|now left].
    split; [auto | intros _; eauto].
  - pose proof (sequencer_cycle g Hwf _ c Hv) as Hc. split; [|right; eauto].
    split; [intros [out E]; discriminate | intros Ha; destruct (Ha c Hc)].
  - now destruct Hf.
Qed.

Lemma sequencer_succeeds_iff_acyclic_witness :
  exists g d plan',
    resolve_cycles Samples.first_choice Samples.account_contact_plan = Some (g, d, plan') /\
    Graph.acyclic g.
Proof.
  do 3 eexists. split; [reflexivity|].
  eapply (sequencer_succeeds_iff_acyclic Samples.first_choice Samples.account_contact_plan).
  - reflexivity.
  - eexists. reflexivity.
Defined.

(** The ordered plan lists steps of the (cycle-resolved) plan, and no object
    type twice. *)
Theorem ordered_plan_no_duplicates prompt plan g d plan' out :
  resolve_cycles prompt plan = Some (g, d, plan') ->
  getSmartOrderedPlan prompt plan = Returns out ->
  NoDup (map sobject out) /\ (forall S, In S out -> In S plan').
Proof.
  intros Hr Ho. pose proof (resolve_cycles_wf _ _ _ _ _ Hr) as Hwf.
  unfold getSmartOrderedPlan in Ho. rewrite Hr in Ho.
  destruct (visit_all (sort_fuel g) g (map fst g) []) as [sorted| |] eqn:Hv;
    try discriminate. inversion Ho; subst out. split.
  - rewrite sorted_plan_sobjects. apply NoDup_filter. exact (sequencer_nodup g _ _ Hv).
  - intros S HS. unfold sorted_plan in HS. apply in_flat_map in HS as (o & _ & HS).
    destruct (find_step plan' o) as [S'|] eqn:Hf; [|destruct HS].
    destruct HS as [<-|[]]. unfold find_step in Hf. now apply find_some in Hf as [? _].
Qed.

Lemma ordered_plan_no_duplicates_witness :
  NoDup (map sobject [mkStep "Account" 2 true [("Name", FString "Acme")];
                      mkStep "Contact" 2 false [("LastName", FString "Doe");
                                                ("AccountId", FString "@{Account.Id}")]]).
Proof.
  refine (proj1 (ordered_plan_no_duplicates Samples.first_choice
                   Samples.account_contact_plan _ _ _ _ eq_refl eq_refl)).
Defined.

(** Every object type that occurs in the dependency map (as a referencing
    type or as a referenced type) and has a step in the plan is in the
    ordered plan. *)
Theorem ordered_plan_has_graph_nodes prompt plan g d plan' out x S :
  resolve_cycles prompt plan = Some (g, d, plan') ->
  getSmartOrderedPlan prompt plan = Returns out ->
  In x (graph_nodes g) -> find_step plan' x = Some S -> In S out.
Proof.
  intros Hr Ho Hx HS. pose proof (resolve_cycles_wf _ _ _ _ _ Hr) as Hwf.
  unfold getSmartOrderedPlan in Ho. rewrite Hr in Ho.
  destruct (visit_all (sort_fuel g) g (map fst g) []) as [sorted| |] eqn:Hv;
    try discriminate. inversion Ho; subst out.
  unfold sorted_plan. apply in_flat_map. exists x.
  split; [exact (sequencer_complete g Hwf _ _ Hv x Hx)|]. rewrite HS. now left.
Qed.

Lemma ordered_plan_has_graph_nodes_witness :
  In (mkStep "Account" 2 true [("Name", FString "Acme")])
     [mkStep "Account" 2 true [("Name", FString "Acme")];
      mkStep "Contact" 2 false [("LastName", FString "Doe");
                                ("AccountId", FString "@{Account.Id}")]].
Proof.
  refine (ordered_plan_has_graph_nodes Samples.first_choice Samples.account_contact_plan
            _ _ _ _ "Account" _ eq_refl eq_refl _ eq_refl).
  simpl. auto.
Defined.

End GenerateExtras.

(** ** The graph builder and the cycle candidates *)

Section Builder.
Import Generate.

(** [depSobjectGraph.get(y)?.has(x)] *)
Definition d_mem (d : DependentGraph) (x y : string) : Prop :=
  exists s, AMap.get y d = Some s /\ In x s.

Lemma set_add_In x a l : In x (AMap.set_add a l) <-> x = a \/ In x l.
Proof.
  unfold AMap.set_add. destruct (existsb (String.eqb a) l) eqn:E.
  - split; auto. intros [->|H]; auto.
    apply existsb_exists in E as (z & Hz & Ez). apply String.eqb_eq in Ez. now subst.
  - rewrite in_app_iff. simpl. intuition.
Qed.

Lemma d_mem_add d r s x y :
  d_mem (AMap.set r (AMap.set_add s (match AMap.get r d with Some t => t | None => [] end)) d) x y
  <-> d_mem d x y \/ (x = s /\ y = r).
Proof.
  unfold d_mem. destruct (String.eqb_spec y r) as [->|Hne].
  - rewrite get_set_same. split.
    + intros (t & E & Hin). inversion E; subst t. apply set_add_In in Hin as [->|Hin]; auto.
      left. destruct (AMap.get r d) eqn:G; [eauto | destruct Hin].
    + intros [(t & E & Hin)|[-> _]]; eexists; split; try reflexivity; apply set_add_In.
      * right. now rewrite E.
      * now left.
  - rewrite get_set_other by exact Hne. split; [auto|]. intros [H|[_ E]]; [auto|congruence].
Qed.

Lemma ref_obj_nonempty v y : ref_obj v = Some y -> y <> "".
Proof.
  unfold ref_obj. destruct v; try discriminate.
  destruct (Js.startsWith s "@{" && Js.endsWith s "}"); [|discriminate].
  destruct (String.eqb_spec (hd "" (Js.split_char "." (Js.slice_from_to_end 2 1 s))) "");
    [discriminate|]. intros E. inversion E; subst. auto.
Qed.

(** The field loop of the graph builder for one step. *)
Lemma scan_fields_spec sobj fs : forall deps d,
  (forall f y, AMap.get f (fst (scan_fields sobj fs deps d)) = Some y ->
     AMap.get f deps = Some y \/ exists v, In (f, v) fs /\ ref_obj v = Some y) /\
  (forall f, ~ In f (map fst fs) -> AMap.get f (fst (scan_fields sobj fs deps d)) = AMap.get f deps) /\
  (NoDup (map fst fs) -> forall f v y, In (f, v) fs -> ref_obj v = Some y ->
     AMap.get f (fst (scan_fields sobj fs deps d)) = Some y) /\
  (forall x y, d_mem (snd (scan_fields sobj fs deps d)) x y <->
     d_mem d x y \/ (x = sobj /\ exists f v, In (f, v) fs /\ ref_obj v = Some y)).
Proof.
  induction fs as [|[f0 v0] fs IH]; intros deps d; simpl.
  - split; [auto|]. split; [auto|]. split; [intros _ f v y []|].
    intros x y. split; [auto|]. intros [H|(_ & f & v & [] & _)]. exact H.
  - destruct (ref_obj v0) as [r0|] eqn:Hr.
    + destruct (IH (AMap.set f0 r0 deps)
                   (AMap.set r0 (AMap.set_add sobj
                      (match AMap.get r0 d with Some s => s | None => [] end)) d))
        as (H1 & H2 & H3 & H4).
      split; [|split; [|split]].
      * intros f y Hf. destruct (H1 f y Hf) as [Hd|(v & Hin & Hv)]; [|eauto 6].
        destruct (String.eqb_spec f f0) as [->|Hne].
        -- rewrite get_set_same in Hd. inversion Hd; subst. eauto 6.
        -- rewrite get_set_other in Hd by exact Hne. auto.
      * intros f Hn. rewrite H2 by tauto. apply get_set_other. intros ->. tauto.
      * intros Hnd f v y [E|Hin] Hv; inversion Hnd as [|? ? Hn Hnd']; subst.
        -- inversion E; subst. rewrite H2 by exact Hn. rewrite get_set_same. congruence.
        -- eauto.
      * intros x y. rewrite H4, d_mem_add. split.
        -- intros [[H|[-> ->]]|[-> (f & v & Hin & Hv)]]; eauto 8.
        -- intros [H|[-> (f & v & [E|Hin] & Hv)]]; [auto| |eauto 8].
           inversion E; subst. left. right. split; congruence.
    + destruct (IH deps d) as (H1 & H2 & H3 & H4).
      split; [|split; [|split]].
      * intros f y Hf. destruct (H1 f y Hf) as [Hd|(v & Hin & Hv)]; eauto 6.
      * intros f Hn. apply H2. tauto.
      * intros Hnd f v y [E|Hin] Hv; inversion Hnd; subst; [|eauto].
        inversion E; subst. congruence.
      * intros x y. rewrite H4. split.
        -- intros [H|[-> (f & v & Hin & Hv)]]; eauto 8.
        -- intros [H|[-> (f & v & [E|Hin] & Hv)]]; [auto| |eauto 8].
           inversion E; subst. congruence.
Qed.

(** The invariant of the first loop of [getSmartOrderedPlan]: keys come from
    the steps processed so far ([P]), [depSobjectGraph] is the converse of
    [sObjectDepGraph], and every target is non-empty. *)
Definition build_inv (g : DepGraph) (d : DependentGraph) (P : list string) : Prop :=
  (forall x, In x (map fst g) -> In x P) /\
  (forall x y, d_mem d x y <-> Graph.has_edge g x y) /\
  (forall x f y, Graph.edge g x f y -> y <> "").

Lemma build_step_inv g d P step :
  build_inv g d P -> ~ In (sobject step) P -> NoDup (map fst (fields step)) ->
  let (deps, d') := scan_fields (sobject step) (fields step) [] d in
  build_inv (match deps with [] => g | _ => AMap.set (sobject step) deps g end) d'
            (P ++ [sobject step]).
Proof.
  intros (Hk & Hd & Hne) Hs Hnd.
  destruct (scan_fields_spec (sobject step) (fields step) [] d) as (H1 & _ & H3 & H4).
  destruct (scan_fields (sobject step) (fields step) [] d) as [deps d'] eqn:E.
  simpl in H1, H3, H4.
  assert (Hdeps : forall y, (exists f, AMap.get f deps = Some y) <->
            exists f v, In (f, v) (fields step) /\ ref_obj v = Some y).
  { intros y. split.
    - intros (f & Hf). destruct (H1 f y Hf) as [Hx|H]; [discriminate|eauto].
    - intros (f & v & Hin & Hv). exists f. eauto. }
  assert (Hnot : forall y, ~ Graph.has_edge g (sobject step) y).
  { intros y (f & m & Hm & _). apply Hs, Hk. exact (in_map fst _ _ (get_some_In _ _ _ Hm)). }
  assert (Hg : forall x y, Graph.has_edge
            (match deps with [] => g | _ => AMap.set (sobject step) deps g end) x y <->
            Graph.has_edge g x y \/
            (x = sobject step /\ exists f v, In (f, v) (fields step) /\ ref_obj v = Some y)).
  { intros x y. rewrite <- Hdeps. destruct deps as [|e deps'] eqn:Ed.
    - split; [auto|]. intros [H|[_ (f & Hf)]]; [auto|discriminate].
    - rewrite <- Ed. unfold Graph.has_edge, Graph.edge.
      destruct (String.eqb_spec x (sobject step)) as [->|Hx].
      + rewrite get_set_same. split.
        * intros (f & m & Hm & Hf). inversion Hm; subst. eauto.
        * intros [H|[_ (f & Hf)]]; [destruct (Hnot y H)|eauto].
      + rewrite get_set_other by exact Hx. split; [auto|]. intros [H|[? _]]; [auto|congruence]. }
  split; [|split].
  - intros x Hx. apply in_or_app. destruct deps as [|e deps']; [left; auto|].
    apply set_keys_In in Hx as [->|Hx]; [right; now left | left; auto].
  - intros x y. rewrite H4, Hg, Hd. reflexivity.
  - intros x f y He.
    destruct deps as [|e deps'] eqn:Ed; [exact (Hne x f y He)|].
    destruct (String.eqb_spec x (sobject step)) as [->|Hx].
    + destruct He as (m & Hm & Hf). rewrite get_set_same in Hm. inversion Hm; subst m.
      destruct (H1 f y Hf) as [Hz|(v & _ & Hv)]; [discriminate|].
      exact (ref_obj_nonempty v y Hv).
    + destruct He as (m & Hm & Hf). rewrite get_set_other in Hm by exact Hx.
      apply (Hne x f y). exists m. auto.
Qed.

Lemma build_graphs_from_inv plan : forall g d P,
  build_inv g d P -> NoDup (P ++ map sobject plan) ->
  Forall (fun s => NoDup (map fst (fields s))) plan ->
  build_inv (fst (build_graphs_from plan g d)) (snd (build_graphs_from plan g d))
            (P ++ map sobject plan).
Proof.
  induction plan as [|step plan IH]; simpl; intros g d P Hinv Hnd Hf.
  - now rewrite app_nil_r in *.
  - inversion Hf as [|? ? Hs Hf']; subst.
    assert (Hn : ~ In (sobject step) P)
      by (intros H; apply NoDup_remove_2 in Hnd; apply Hnd; apply in_or_app; now left).
    pose proof (build_step_inv g d P step Hinv Hn Hs) as Hstep.
    destruct (scan_fields (sobject step) (fields step) [] d) as [deps d'].
    replace (P ++ sobject step :: map sobject plan)
      with ((P ++ [sobject step]) ++ map sobject plan) by (now rewrite <- app_assoc).
    apply IH; auto. now rewrite <- app_assoc.
Qed.

Lemma build_graphs_inv plan :
  NoDup (map sobject plan) -> Forall (fun s => NoDup (map fst (fields s))) plan ->
  build_inv (fst (build_graphs plan)) (snd (build_graphs plan)) (map sobject plan).
Proof.
  intros Hnd Hf. apply (build_graphs_from_inv plan [] [] []); auto.
  split; [intros x []|]. split; [|intros x f y (m & Hm & _); discriminate].
  intros x y. split; [intros (s & Hs & _); discriminate | intros (f & m & Hm & _); discriminate].
Qed.

End Builder.

Module CycleCandidates.
Import Generate.

(** For a plan whose object types are distinct (and whose field names are
    distinct within each step, as in a JavaScript object), the cycle prompt
    offers exactly the reference edges [x --f--> y] for which [y] also
    references [x]: the edges of two-object cycles (and self-references). *)
Theorem cycle_candidates_are_mutual_edges plan x f y :
  NoDup (map sobject plan) -> Forall (fun s => NoDup (map fst (fields s))) plan ->
  In (mkRel x f y) (cyclic_edges (fst (build_graphs plan)) (snd (build_graphs plan)))
  <-> Graph.edge (fst (build_graphs plan)) x f y /\
      Graph.has_edge (fst (build_graphs plan)) y x.
Proof.
  intros Hnd Hf.
  destruct (build_graphs_inv plan Hnd Hf) as (_ & Hd & Hne).
  revert Hd Hne. generalize (fst (build_graphs plan)) (snd (build_graphs plan)).
  intros g d Hd Hne. unfold cyclic_edges. split.
  - intros H. apply in_flat_map in H as (x' & _ & H).
    destruct (AMap.get x' g) as [deps|] eqn:Hg; [|destruct H].
    apply in_flat_map in H as (f' & _ & H).
    destruct (AMap.get f' deps) as [y'|] eqn:Hy; [|destruct H].
    match type of H with In _ (if ?c then _ else _) => destruct c eqn:Hc end;
      [|destruct H].
    destruct H as [E|[]]. inversion E; subst x' f' y'.
    split; [exists deps; auto|]. apply Hd.
    destruct (AMap.get x d) as [s|] eqn:Hxd; [|rewrite andb_false_r in Hc; discriminate].
    apply andb_true_iff in Hc as [_ Hs]. exists s. split; auto. now apply set_has_true.
  - intros [He Hh]. pose proof (Hne x f y He) as Hy0.
    assert (Hxy : d_mem d x y) by (apply Hd; exists f; exact He).
    apply Hd in Hh. destruct Hh as (s' & Hxd & Hys').
    destruct Hxy as (s & Hyd & _).
    destruct He as (m & Hm & Hfm).
    apply in_flat_map. exists x. split; [exact (in_map fst _ _ (get_some_In _ _ _ Hm))|].
    rewrite Hm. apply in_flat_map. exists f.
    split; [exact (in_map fst _ _ (get_some_In _ _ _ Hfm))|]. rewrite Hfm.
    apply String.eqb_neq in Hy0. unfold AMap.has. rewrite Hy0, Hyd, Hxd.
    replace (AMap.set_has y s') with true.
    + simpl. now left.
    + symmetry. apply existsb_exists. exists y. split; [exact Hys' | apply String.eqb_refl].
Qed.

Lemma cycle_candidates_are_mutual_edges_witness :
  In (mkRel "Account" "Primary_Contact__c" "Contact")
     (cyclic_edges (fst (build_graphs Samples.cycle_plan)) (snd (build_graphs Samples.cycle_plan)))
  <-> Graph.edge (fst (build_graphs Samples.cycle_plan)) "Account" "Primary_Contact__c" "Contact" /\
      Graph.has_edge (fst (build_graphs Samples.cycle_plan)) "Contact" "Account".
Proof.
  apply (cycle_candidates_are_mutual_edges Samples.cycle_plan "Account" "Primary_Contact__c" "Contact").
  - simpl. repeat constructor; simpl; intuition discriminate.
  - simpl. repeat constructor; simpl; intuition discriminate.
Defined.

End CycleCandidates.

(** ** Choice strings and their parser *)

Section ChoiceStrings.
Import Generate.
Local Open Scope string_scope.

Lemma sapp_nil_r (s : string) : s ++ "" = s.
Proof. induction s; simpl; congruence. Qed.

Lemma sapp_assoc (a b c : string) : a ++ b ++ c = (a ++ b) ++ c.
Proof. induction a; simpl; congruence. Qed.

Lemma rev_string_app a b : Js.rev_string (a ++ b) = Js.rev_string b ++ Js.rev_string a.
Proof.
  induction a as [|c a IH]; simpl.
  - now rewrite sapp_nil_r.
  - rewrite IH. now rewrite sapp_assoc.
Qed.

Lemma rev_string_involutive s : Js.rev_string (Js.rev_string s) = s.
Proof. induction s as [|c s IH]; simpl; auto. rewrite rev_string_app, IH. reflexivity. Qed.

Lemma plain_chars_app a b : Graph.plain_chars (a ++ b) = Graph.plain_chars a && Graph.plain_chars b.
Proof. induction a as [|c a IH]; simpl; auto. rewrite IH. now rewrite !andb_assoc. Qed.

Lemma plain_chars_rev a : Graph.plain_chars (Js.rev_string a) = Graph.plain_chars a.
Proof.
  induction a as [|c a IH]; simpl; auto. rewrite plain_chars_app, IH. simpl.
  destruct (Graph.plain_chars a), (Js.is_ws c), (Ascii.eqb c "-"); reflexivity.
Qed.

Lemma rev_string_nonempty a : a <> "" -> Js.rev_string a <> "".
Proof.
  destruct a as [|c a]; [congruence|]. intros _. simpl.
  destruct (Js.rev_string a); discriminate.
Qed.

Lemma plain_name_rev a : Graph.plain_name a -> Graph.plain_name (Js.rev_string a).
Proof.
  intros [Hne Hp]. split; [now apply rev_string_nonempty|]. now rewrite plain_chars_rev.
Qed.

Lemma plain_no_dash a : Graph.plain_chars a = true -> Graph.no_dash a = true.
Proof.
  induction a as [|c a IH]; simpl; auto. intros H.
  apply andb_true_iff in H as [H1 H2]. apply andb_true_iff in H1 as [_ H1].
  rewrite H1. simpl. auto.
Qed.

Lemma trim_start_plain a s : Graph.plain_name a -> Js.trim_start (a ++ s) = a ++ s.
Proof.
  destruct a as [|c a]; intros [Hne Hp]; [congruence|]. simpl in Hp |- *.
  destruct (Js.is_ws c); [discriminate|reflexivity].
Qed.

Lemma trim_plain_space a : Graph.plain_name a -> Js.trim (a ++ " ") = a.
Proof.
  intros Ha. unfold Js.trim. rewrite trim_start_plain by exact Ha.
  rewrite rev_string_app. change (Js.rev_string " ") with " ".
  change (" " ++ Js.rev_string a) with (String " " (Js.rev_string a)).
  change (Js.trim_start (String " " (Js.rev_string a))) with (Js.trim_start (Js.rev_string a)).
  rewrite <- (sapp_nil_r (Js.rev_string a)).
  rewrite trim_start_plain by now apply plain_name_rev.
  rewrite sapp_nil_r. apply rev_string_involutive.
Qed.

Lemma trim_space_plain_space a : Graph.plain_name a -> Js.trim (" " ++ a ++ " ") = a.
Proof.
  intros Ha. change (" " ++ a ++ " ") with (String " " (a ++ " ")).
  unfold Js.trim. change (Js.trim_start (String " " (a ++ " "))) with (Js.trim_start (a ++ " ")).
  fold (Js.trim (a ++ " ")). now apply trim_plain_space.
Qed.

Lemma split_arrow_nonempty s : Js.split_arrow s <> [].
Proof.
  destruct s as [|c s]; [discriminate|]. simpl.
  repeat match goal with |- context [match ?x with _ => _ end] => destruct x end;
    discriminate.
Qed.

Lemma split_arrow_cons c s : Ascii.eqb c "-" = false ->
  Js.split_arrow (String c s)
  = match Js.split_arrow s with p :: ps => String c p :: ps | [] => [String c ""] end.
Proof.
  intros H. destruct c as [[] [] [] [] [] [] [] []]; try reflexivity; discriminate.
Qed.

Lemma split_arrow_app a s : Graph.no_dash a = true ->
  Js.split_arrow (a ++ s)
  = match Js.split_arrow s with p :: ps => (a ++ p) :: ps | [] => [a] end.
Proof.
  induction a as [|c a IH]; intros H.
  - simpl. destruct (Js.split_arrow s) eqn:E; [destruct (split_arrow_nonempty s E)|reflexivity].
  - change (String c a ++ s) with (String c (a ++ s)).
    simpl in H. apply andb_true_iff in H as [Hc Ha]. apply negb_true_iff in Hc.
    rewrite split_arrow_cons by exact Hc. rewrite IH by exact Ha.
    destruct (Js.split_arrow s); reflexivity.
Qed.

Lemma split_arrow_sep w : Js.split_arrow (" -> " ++ w) = " " :: Js.split_arrow (" " ++ w).
Proof. reflexivity. Qed.

Lemma no_dash_space a : Graph.no_dash (" " ++ a) = Graph.no_dash a.
Proof. reflexivity. Qed.

Lemma trim_choice a f b : Graph.plain_name a ->
  let s := a ++ " -> " ++ f ++ " -> " ++ b ++ " -> Lookup" in Js.trim s = s.
Proof.
  intros Ha s. unfold s, Js.trim. rewrite trim_start_plain by exact Ha.
  transitivity (Js.rev_string (Js.rev_string (a ++ " -> " ++ f ++ " -> " ++ b ++ " -> Lookup"))).
  - f_equal. rewrite !rev_string_app. reflexivity.
  - apply rev_string_involutive.
Qed.

(** The parser of a prompt answer recovers the relation the answer was
    printed from, for names without white space and '-'. *)
Theorem parse_choice_string r :
  Graph.plain_name (rel_from r) -> Graph.plain_name (rel_field r) ->
  Graph.plain_name (rel_to r) ->
  parse_choice (choice_string r) = Some (rel_from r, rel_field r, rel_to r).
Proof.
  destruct r as [a f b]; cbn [rel_from rel_field rel_to]; intros Ha Hf Hb.
  unfold parse_choice, choice_string; cbn [rel_from rel_field rel_to].
  rewrite (trim_choice a f b Ha).
  rewrite split_arrow_app by (apply plain_no_dash, Ha).
  rewrite split_arrow_sep, (sapp_assoc " " f).
  rewrite split_arrow_app by (rewrite no_dash_space; apply plain_no_dash, Hf).
  rewrite split_arrow_sep, (sapp_assoc " " b).
  rewrite split_arrow_app by (rewrite no_dash_space; apply plain_no_dash, Hb).
  change (Js.split_arrow " -> Lookup") with [" "; " Lookup"].
  cbv iota.
  rewrite trim_plain_space by exact Ha.
  rewrite <- !sapp_assoc.
  rewrite !trim_space_plain_space by assumption.
  reflexivity.
Qed.

Lemma parse_choice_string_witness :
  parse_choice (choice_string (mkRel "Account" "Primary_Contact__c" "Contact"))
  = Some ("Account", "Primary_Contact__c", "Contact").
Proof.
  apply parse_choice_string; cbn [rel_from rel_field rel_to];
    (split; [discriminate | reflexivity]).
Defined.

End ChoiceStrings.

(** ** Edit distance and the closest-match search of the faker suggestions *)

Section Levenshtein.
Import Suggest.
Local Open Scope string_scope.

Lemma sapp_length (a b : string) : String.length (a ++ b) = String.length a + String.length b.
Proof. induction a; simpl; congruence. Qed.

Lemma substring_0_length j b : j <= String.length b -> String.length (substring 0 j b) = j.
Proof.
  revert j; induction b as [|c b IH]; intros [|j] Hj; simpl in *; auto; try lia.
  rewrite IH; lia.
Qed.

Lemma substring_0_full b : substring 0 (String.length b) b = b.
Proof. induction b as [|c b IH]; simpl; congruence. Qed.

Lemma substring_0_snoc j b : j < String.length b ->
  exists d, String.get j b = Some d /\ substring 0 (S j) b = substring 0 j b ++ String d "".
Proof.
  revert j; induction b as [|c b IH]; intros j Hj; simpl in Hj; [lia|].
  destruct j as [|j].
  - exists c. split; [reflexivity|]. destruct b; reflexivity.
  - destruct (IH j ltac:(lia)) as [d [Hg Hs]]. exists d. split; [exact Hg|].
    simpl. rewrite Hs. reflexivity.
Qed.

Lemma snoc_inj p q c d : p ++ String c "" = q ++ String d "" -> p = q /\ c = d.
Proof.
  revert q; induction p as [|a p IH]; intros [|b q] H; simpl in H.
  - now inversion H.
  - inversion H; subst. destruct q; discriminate.
  - inversion H; subst. destruct p; discriminate.
  - inversion H; subst. destruct (IH q H2) as [-> ->]. auto.
Qed.

Lemma row_from_length ca b prev left :
  length prev = S (String.length b) -> length (row_from ca b prev left) = String.length b.
Proof.
  revert prev left; induction b as [|cb b IH]; intros prev left Hl; simpl in *.
  - destruct prev as [|? [|? ?]]; reflexivity.
  - destruct prev as [|pd [|pu rest]]; simpl in Hl; try lia.
    simpl. f_equal. apply IH. simpl. lia.
Qed.

Lemma row_from_nth ca b prev left j :
  length prev = S (String.length b) -> j < String.length b ->
  nth j (row_from ca b prev left) 0
  = Nat.min (Nat.min (nth (S j) prev 0 + 1) (nth j (left :: row_from ca b prev left) 0 + 1))
            (nth j prev 0 + cost ca (String.get j b)).
Proof.
  revert prev left j; induction b as [|cb b IH]; intros prev left j Hl Hj; simpl in *; [lia|].
  destruct prev as [|pd [|pu rest]]; simpl in Hl; try lia.
  destruct j as [|j]; simpl.
  - reflexivity.
  - rewrite IH by (simpl; lia). reflexivity.
Qed.

(** Row [dp[|p|]] of the table for the prefix [p] of [a]: its entries are
    bounded by the length difference and the larger length, and vanish
    exactly on the matching prefix of [b]. *)
Definition lev_inv (b p : string) (row : list nat) : Prop :=
  length row = S (String.length b) /\
  forall j, j <= String.length b ->
    String.length p - j <= nth j row 0 /\ j - String.length p <= nth j row 0 /\
    nth j row 0 <= Nat.max (String.length p) j /\
    (nth j row 0 = 0 <-> p = substring 0 j b).

Lemma lev_inv_init b : lev_inv b "" (seq 0 (S (String.length b))).
Proof.
  split; [apply length_seq|]. intros j Hj.
  rewrite seq_nth by lia. simpl. split; [lia|]. split; [lia|]. split; [lia|].
  split.
  - intros ->. destruct b; reflexivity.
  - intros H. apply (f_equal String.length) in H. rewrite substring_0_length in H by lia.
    simpl in H. lia.
Qed.

Lemma cost_zero ca cb : cost ca cb = 0 <-> cb = Some ca.
Proof.
  unfold cost. destruct cb as [c|]; [|split; discriminate].
  destruct (Ascii.eqb_spec ca c); subst; split; intros; congruence.
Qed.

Lemma cost_le ca cb : cost ca cb <= 1.
Proof. unfold cost. destruct cb; [destruct (Ascii.eqb _ _)|]; lia. Qed.

Lemma lev_inv_step b p c prev :
  lev_inv b p prev ->
  lev_inv b (p ++ String c "")
    (S (String.length p) :: row_from c b prev (S (String.length p))).
Proof.
  intros [Hl Hp]. unfold lev_inv. rewrite sapp_length. simpl String.length at 2.
  rewrite Nat.add_1_r.
  set (n := String.length p). set (r := S n :: row_from c b prev (S n)).
  split; [subst r; simpl; now rewrite row_from_length|].
  induction j as [|j IH]; intros Hj.
  - simpl. split; [lia|]. split; [lia|]. split; [lia|].
    split; [intros; lia|]. intros H. apply (f_equal String.length) in H.
    rewrite sapp_length in H. destruct b; simpl in H; lia.
  - assert (Hr : nth (S j) r 0 = Nat.min (Nat.min (nth (S j) prev 0 + 1) (nth j r 0 + 1))
                                         (nth j prev 0 + cost c (String.get j b))).
    { subst r. simpl nth at 1. rewrite row_from_nth by (auto; lia). reflexivity. }
    destruct (IH ltac:(lia)) as [Y1 [Y2 [Y3 _]]].
    destruct (Hp (S j) Hj) as [X1 [X2 [X3 _]]].
    destruct (Hp j ltac:(lia)) as [Z1 [Z2 [Z3 Z4]]].
    pose proof (cost_le c (String.get j b)).
    rewrite Hr. split; [lia|]. split; [lia|]. split; [lia|].
    destruct (substring_0_snoc j b ltac:(lia)) as [d [Hg Hs]]. rewrite Hs, Hg in *.
    split.
    + intros H0. assert (nth j prev 0 = 0 /\ cost c (Some d) = 0) as [E1 E2] by lia.
      apply Z4 in E1. apply cost_zero in E2. inversion E2; subst. reflexivity.
    + intros H0. apply snoc_inj in H0 as [E1 E2]. subst d.
      apply Z4 in E1. rewrite E1. unfold cost. rewrite Ascii.eqb_refl. lia.
Qed.

Lemma lev_inv_rows b a p prev :
  lev_inv b p prev -> lev_inv b (p ++ a) (rows a b (String.length p) prev).
Proof.
  revert p prev; induction a as [|c a IH]; intros p prev H; simpl.
  - now rewrite sapp_nil_r.
  - pose proof (IH _ _ (lev_inv_step b p c prev H)) as H'.
    rewrite sapp_length in H'. simpl in H'. rewrite Nat.add_1_r in H'.
    rewrite <- sapp_assoc in H'. exact H'.
Qed.

Lemma lev_inv_final a b : lev_inv b a (rows a b 0 (seq 0 (S (String.length b)))).
Proof. exact (lev_inv_rows b a "" _ (lev_inv_init b)). Qed.

Lemma lev_bounds a b :
  String.length a - String.length b <= levenshteinDistance a b /\
  String.length b - String.length a <= levenshteinDistance a b /\
  levenshteinDistance a b <= Nat.max (String.length a) (String.length b).
Proof.
  destruct (lev_inv_final a b) as [_ H]. destruct (H (String.length b) (le_n _)) as [H1 [H2 [H3 _]]].
  unfold levenshteinDistance. lia.
Qed.

Lemma lev_zero_iff a b : levenshteinDistance a b = 0 <-> a = b.
Proof.
  destruct (lev_inv_final a b) as [_ H]. destruct (H (String.length b) (le_n _)) as [_ [_ [_ H4]]].
  unfold levenshteinDistance. rewrite H4, substring_0_full. reflexivity.
Qed.

Lemma closest_loop_some input cands c0 :
  exists c, closest_loop input cands (Some c0) (Some (levenshteinDistance input c0))
            = (Some c, Some (levenshteinDistance input c)) /\
          (c = c0 \/ In c cands) /\
          levenshteinDistance input c <= levenshteinDistance input c0 /\
          (forall c', In c' cands -> levenshteinDistance input c <= levenshteinDistance input c').
Proof.
  revert c0; induction cands as [|c1 rest IH]; intros c0; simpl.
  - exists c0. split; [reflexivity|]. split; [now left|]. split; [lia|]. intros _ [].
  - destruct (Nat.ltb_spec (levenshteinDistance input c1) (levenshteinDistance input c0)).
    + destruct (IH c1) as [c [E [Hc [Hle Hall]]]]. exists c. split; [exact E|].
      split; [right; destruct Hc; [subst; left|right]; auto|]. split; [lia|].
      intros c' [<-|Hc']; auto.
    + destruct (IH c0) as [c [E [Hc [Hle Hall]]]]. exists c. split; [exact E|].
      split; [destruct Hc; auto|]. split; [exact Hle|].
      intros c' [<-|Hc']; auto. lia.
Qed.

Lemma findClosestMatch_cons input c1 rest :
  exists c, findClosestMatch input (c1 :: rest)
            = (if Nat.leb (levenshteinDistance input c) 5 then Some c else None) /\
          In c (c1 :: rest) /\
          (forall c', In c' (c1 :: rest) -> levenshteinDistance input c <= levenshteinDistance input c').
Proof.
  unfold findClosestMatch. simpl.
  destruct (closest_loop_some input rest c1) as [c [E [Hc [Hle Hall]]]].
  rewrite E. exists c. split; [reflexivity|]. split.
  - destruct Hc; [left|right]; auto.
  - intros c' [<-|Hc']; auto.
Qed.

Lemma closest_some input cands c :
  findClosestMatch input cands = Some c ->
  In c cands /\ levenshteinDistance input c <= 5 /\
  String.length input - 5 <= String.length c <= String.length input + 5 /\
  (forall c', In c' cands -> levenshteinDistance input c <= levenshteinDistance input c').
Proof.
  destruct cands as [|c1 rest]; [discriminate|].
  destruct (findClosestMatch_cons input c1 rest) as [m [E [Hm Hall]]]. rewrite E.
  destruct (Nat.leb_spec (levenshteinDistance input m) 5); [|discriminate].
  intros H'; inversion H'; subst m.
  destruct (lev_bounds input c) as [B1 [B2 _]].
  split; [exact Hm|]. split; [lia|]. split; [lia|]. exact Hall.
Qed.

End Levenshtein.

Module LevenshteinExtras.
Import Suggest.

(** [levenshteinDistance] is at least the difference of the lengths and at
    most the larger length; in particular [levenshteinDistance a ""] is the
    length of [a]. *)
Theorem levenshtein_bounds a b :
  String.length a - String.length b <= levenshteinDistance a b /\
  String.length b - String.length a <= levenshteinDistance a b /\
  levenshteinDistance a b <= Nat.max (String.length a) (String.length b).
Proof. apply lev_bounds. Qed.

(** [levenshteinDistance a b] is 0 exactly when the strings are equal. *)
Theorem levenshtein_zero_iff a b : levenshteinDistance a b = 0 <-> a = b.
Proof. apply lev_zero_iff. Qed.

End LevenshteinExtras.

Module SuggestExtras.
Import Suggest.

(** A match found by [findClosestMatch] is one of the candidates, at edit
    distance at most 5 from the input (so its length differs by at most 5),
    and no candidate is closer. *)
Theorem findClosestMatch_some input cands c :
  findClosestMatch input cands = Some c ->
  In c cands /\ levenshteinDistance input c <= 5 /\
  String.length input - 5 <= String.length c <= String.length input + 5 /\
  (forall c', In c' cands -> levenshteinDistance input c <= levenshteinDistance input c').
Proof. apply closest_some. Qed.

Lemma findClosestMatch_some_witness :
  findClosestMatch "emial" ["name"; "email"; "emails"] = Some "email" /\
  In "email" ["name"; "email"; "emails"] /\ levenshteinDistance "emial" "email" <= 5 /\
  String.length "emial" - 5 <= String.length "email" <= String.length "emial" + 5 /\
  (forall c', In c' ["name"; "email"; "emails"] ->
     levenshteinDistance "emial" "email" <= levenshteinDistance "emial" c').
Proof.
  assert (E : findClosestMatch "emial" ["name"; "email"; "emails"] = Some "email")
    by reflexivity.
  split; [exact E|]. exact (SuggestExtras.findClosestMatch_some _ _ _ E).
Defined.

(** [findClosestMatch] returns [null] exactly when every candidate is more
    than 5 edits away (in particular for an empty candidate list). *)
Theorem findClosestMatch_none_iff input cands :
  findClosestMatch input cands = None <->
  (forall c, In c cands -> 5 < levenshteinDistance input c).
Proof.
  destruct cands as [|c1 rest].
  - split; [intros _ c []|reflexivity].
  - destruct (findClosestMatch_cons input c1 rest) as [m [E [Hm Hall]]]. rewrite E.
    destruct (Nat.leb_spec (levenshteinDistance input m) 5).
    + split; [discriminate|]. intros H'. specialize (H' m Hm). lia.
    + split; [|reflexivity]. intros _ c Hc. specialize (Hall c Hc). lia.
Qed.

(** When the input itself is a candidate, [findClosestMatch] returns it. *)
Theorem findClosestMatch_exact input cands :
  In input cands -> findClosestMatch input cands = Some input.
Proof.
  intros Hin. destruct cands as [|c1 rest]; [destruct Hin|].
  destruct (findClosestMatch_cons input c1 rest) as [m [E [Hm Hall]]]. rewrite E.
  specialize (Hall input Hin).
  assert (Hz : levenshteinDistance input input = 0) by now apply lev_zero_iff.
  assert (H0 : levenshteinDistance input m = 0) by lia.
  apply lev_zero_iff in H0. subst m. rewrite Hz. reflexivity.
Qed.

End SuggestExtras.

Module SuggestFaker.
Import Suggest Samples.
Local Open Scope string_scope.

Lemma findClosestMatch_exact_witness :
  findClosestMatch "email" ["name"; "email"] = Some "email".
Proof. apply SuggestExtras.findClosestMatch_exact. simpl; auto. Defined.

(** No suggestion is made for an expression whose section is an object of
    the namespace that already has the method among its keys. *)
Theorem suggest_none_for_known_method keys faker value sec m rest props :
  Js.startsWith value "#{faker." = true -> Js.endsWith value "}" = true ->
  Js.split_char "." (Js.slice_from_to_end 8 1 value) = sec :: m :: rest ->
  Faker.get_prop faker sec = Some (Faker.JObject props) ->
  In m (keys (Faker.JObject props)) ->
  suggestFakerAlternative keys faker value = None.
Proof.
  intros Hs He Hp Hg Hin. unfold suggestFakerAlternative.
  rewrite Hs, He. simpl. rewrite Hp, Hg.
  assert (E : existsb (String.eqb m) (keys (Faker.JObject props)) = true).
  { apply existsb_exists. exists m. split; [exact Hin|apply String.eqb_refl]. }
  rewrite E. reflexivity.
Qed.

Lemma suggest_none_for_known_method_witness :
  suggestFakerAlternative own_keys sample_faker "#{faker.person.firstName}" = None.
Proof.
  eapply (suggest_none_for_known_method own_keys sample_faker _ "person" "firstName" []);
    [reflexivity | reflexivity | reflexivity | reflexivity | simpl; auto].
Defined.

(** Every suggestion has the form [#{faker.S.M}] with [M] a non-empty key
    of section [S] within 5 edits of the given method name; either the
    section exists, [S] is kept and [M] is a different key of it, or [S] is
    a non-empty key of the namespace within 5 edits of the given section
    name and [M] a key of [faker[S] ?? {}]. *)
Theorem suggest_shape keys faker value s :
  suggestFakerAlternative keys faker value = Some s ->
  exists sec m rest,
    Js.split_char "." (Js.slice_from_to_end 8 1 value) = sec :: m :: rest /\
    exists sec' m', s = "#{faker." ++ sec' ++ "." ++ m' ++ "}" /\
    m' <> "" /\ Suggest.levenshteinDistance m m' <= 5 /\
    ((sec' = sec /\ m' <> m /\
      exists props, Faker.get_prop faker sec = Some (Faker.JObject props) /\
                    In m' (keys (Faker.JObject props))) \/
     (In sec' (keys faker) /\ sec' <> "" /\ Suggest.levenshteinDistance sec sec' <= 5 /\
      In m' (keys (match Faker.get_prop faker sec' with
                      | Some Faker.JUndefined | Some Faker.JNull | None => Faker.JObject []
                      | Some t => t
                      end)) /\
      forall props, Faker.get_prop faker sec <> Some (Faker.JObject props))).
Proof.
  unfold suggestFakerAlternative.
  destruct (negb (Js.startsWith value "#{faker.") || negb (Js.endsWith value "}"));
    [discriminate|].
  destruct (Js.split_char "." (Js.slice_from_to_end 8 1 value)) as [|sec [|m rest]];
    try discriminate.
  intros H. exists sec, m, rest. split; [reflexivity|].
  destruct (Faker.get_prop faker sec) as [v|] eqn:Eg; [|discriminate].
  assert (Hobj : forall F : string -> list string, (forall props, v <> Faker.JObject props) ->
     match findClosestMatch sec (keys faker) with
     | Some cs => if String.eqb cs "" then None else
         match findClosestMatch m (F cs) with
         | Some cm => if String.eqb cm "" then None
                      else Some ("#{faker." ++ cs ++ "." ++ cm ++ "}")
         | None => None end
     | None => None end = Some s ->
     exists sec' m', s = "#{faker." ++ sec' ++ "." ++ m' ++ "}" /\ m' <> "" /\
       Suggest.levenshteinDistance m m' <= 5 /\
       ((sec' = sec /\ m' <> m /\
         exists props, Some v = Some (Faker.JObject props) /\
                       In m' (keys (Faker.JObject props))) \/
        (In sec' (keys faker) /\ sec' <> "" /\ Suggest.levenshteinDistance sec sec' <= 5 /\
         In m' (F sec') /\
         forall props, Some v <> Some (Faker.JObject props)))).
  { intros F Hv Hm.
    destruct (findClosestMatch sec (keys faker)) as [cs|] eqn:Ecs; [|discriminate].
    destruct (String.eqb_spec cs "") as [|Hcs]; [discriminate|].
    destruct (findClosestMatch m (F cs)) as [cm|] eqn:Ecm; [|discriminate].
    destruct (String.eqb_spec cm "") as [|Hcm]; [discriminate|].
    inversion Hm; subst s.
    destruct (closest_some _ _ _ Ecs) as [Ic [Dc _]].
    destruct (closest_some _ _ _ Ecm) as [Im [Dm _]].
    exists cs, cm. split; [reflexivity|]. split; [exact Hcm|]. split; [exact Dm|].
    right. split; [exact Ic|]. split; [exact Hcs|]. split; [exact Dc|]. split; [exact Im|].
    intros props E. inversion E; subst v. now apply (Hv props). }
  destruct v as [| | | | |props|call];
    try (exact (Hobj (fun cs => keys (match Faker.get_prop faker cs with
                                      | Some Faker.JUndefined | Some Faker.JNull | None =>
                                          Faker.JObject []
                                      | Some w => w
                                      end)) ltac:(discriminate) H)).
  destruct (existsb (String.eqb m) (keys (Faker.JObject props))) eqn:Ex; [discriminate|].
  destruct (findClosestMatch m (keys (Faker.JObject props))) as [cm|] eqn:Ecm; [|discriminate].
  destruct (String.eqb_spec cm "") as [|Hcm]; [discriminate|].
  inversion H; subst s.
  destruct (closest_some _ _ _ Ecm) as [Im [Dm _]].
  exists sec, cm. split; [reflexivity|]. split; [exact Hcm|]. split; [exact Dm|].
  left. split; [reflexivity|]. split.
  - intros ->. assert (existsb (String.eqb m) (keys (Faker.JObject props)) = true)
      by (apply existsb_exists; exists m; split; [exact Im|apply String.eqb_refl]).
    congruence.
  - exists props. split; [reflexivity|exact Im].
Qed.

Lemma suggest_shape_witness :
  suggestFakerAlternative own_keys sample_faker "#{faker.persn.frstName}"
  = Some "#{faker.person.firstName}" /\
  exists sec m rest,
    Js.split_char "." (Js.slice_from_to_end 8 1 "#{faker.persn.frstName}") = sec :: m :: rest /\
    exists sec' m', "#{faker.person.firstName}" = "#{faker." ++ sec' ++ "." ++ m' ++ "}" /\
    m' <> "" /\ Suggest.levenshteinDistance m m' <= 5 /\
    ((sec' = sec /\ m' <> m /\
      exists props, Faker.get_prop sample_faker sec = Some (Faker.JObject props) /\
                    In m' (own_keys (Faker.JObject props))) \/
     (In sec' (own_keys sample_faker) /\ sec' <> "" /\
      Suggest.levenshteinDistance sec sec' <= 5 /\
      In m' (own_keys (match Faker.get_prop sample_faker sec' with
                      | Some Faker.JUndefined | Some Faker.JNull | None => Faker.JObject []
                      | Some t => t
                      end)) /\
      forall props, Faker.get_prop sample_faker sec <> Some (Faker.JObject props))).
Proof.
  assert (E : suggestFakerAlternative own_keys sample_faker "#{faker.persn.frstName}"
              = Some "#{faker.person.firstName}") by reflexivity.
  split; [exact E|]. exact (suggest_shape _ _ _ _ E).
Defined.

End SuggestFaker.

(** ** The validators *)

Ltac destr_ifs :=
  repeat match goal with
         | |- context [if ?c then _ else _] => destruct c eqn:?
         end.

Section ValidatorProofs.
Import Validator.

Lemma warn_fst w st : fst (warn w st) = true.
Proof. reflexivity. Qed.

Lemma validateReference_verdict step field v refTo pm st :
  validateReference step field v refTo pm st = (true, st) \/
  exists w, validateReference step field v refTo pm st = (false, warn w st).
Proof.
  unfold validateReference. cbv zeta. destr_ifs; eauto.
Qed.

Lemma check_field_fst iv sg refs idx f v st :
  fst (check_field iv sg refs idx f v st)
  = fst st || fst (check_field iv sg refs 0 f v (false, [])).
Proof.
  destruct st as [b ws]. unfold check_field. destruct v; cbn [fst];
    try (now rewrite orb_false_r).
  cbv zeta. destr_ifs; unfold warn; cbn [fst]; destruct b; reflexivity.
Qed.

Lemma check_fields_fst iv sg refs idx fs st :
  fst (check_fields iv sg refs idx fs st)
  = fst st || existsb (fun '(f, v) => fst (check_field iv sg refs 0 f v (false, []))) fs.
Proof.
  revert st; induction fs as [|[f v] rest IH]; intros st; simpl.
  - now rewrite orb_false_r.
  - rewrite IH, check_field_fst. now rewrite orb_assoc.
Qed.

Lemma check_step_fst iv sg refs idx step st :
  fst (check_step iv sg refs idx step st)
  = fst st || fst (check_step iv sg refs 0 step (false, [])).
Proof.
  unfold check_step. rewrite !check_fields_fst.
  destruct st as [b ws].
  destruct (String.eqb (sobject step) ""), (Nat.eqb (count step) 0), b; reflexivity.
Qed.

Lemma check_steps_fst iv sg refs idx plan st :
  fst (check_steps iv sg refs idx plan st)
  = fst st || existsb (fun step => fst (check_step iv sg refs 0 step (false, []))) plan.
Proof.
  revert idx st; induction plan as [|step rest IH]; intros idx st; simpl.
  - now rewrite orb_false_r.
  - rewrite IH, check_step_fst. now rewrite orb_assoc.
Qed.

Lemma check_field_ext iv sg r1 r2 f v :
  (forall x, AMap.set_has x r1 = AMap.set_has x r2) ->
  check_field iv sg r1 0 f v (false, []) = check_field iv sg r2 0 f v (false, []).
Proof. intros H. unfold check_field. destruct v; auto. cbv zeta. now rewrite H. Qed.

Lemma check_step_ext iv sg r1 r2 step :
  (forall x, AMap.set_has x r1 = AMap.set_has x r2) ->
  fst (check_step iv sg r1 0 step (false, [])) = fst (check_step iv sg r2 0 step (false, [])).
Proof.
  intros H. unfold check_step. rewrite !check_fields_fst. f_equal.
  induction (fields step) as [|[f v] rest IH]; simpl; auto.
  now rewrite (check_field_ext iv sg r1 r2 f v H), IH.
Qed.

Lemma existsb_perm {A} (p : A -> bool) l l' :
  Permutation l l' -> existsb p l = existsb p l'.
Proof.
  intros HP. destruct (existsb p l) eqn:E1, (existsb p l') eqn:E2; auto.
  - apply existsb_exists in E1 as [x [Hx Hp]].
    assert (existsb p l' = true) by (apply existsb_exists; exists x; split;
      [exact (Permutation_in _ HP Hx)|exact Hp]). congruence.
  - apply existsb_exists in E2 as [x [Hx Hp]].
    assert (existsb p l = true) by (apply existsb_exists; exists x; split;
      [exact (Permutation_in _ (Permutation_sym HP) Hx)|exact Hp]). congruence.
Qed.

Lemma perm_filter {A} (p : A -> bool) l l' :
  Permutation l l' -> Permutation (filter p l) (filter p l').
Proof.
  induction 1; simpl; auto.
  - destruct (p x); auto.
  - destruct (p x), (p y); auto. apply perm_swap.
  - eapply perm_trans; eauto.
Qed.

Lemma saved_types_perm plan plan' x :
  Permutation plan plan' ->
  AMap.set_has x (saved_types plan) = AMap.set_has x (saved_types plan').
Proof.
  intros HP. unfold saved_types, AMap.set_has. apply existsb_perm.
  apply Permutation_map. now apply perm_filter.
Qed.

Lemma validatePlanStructure_fst iv sg plan :
  fst (validatePlanStructure iv sg plan)
  = negb (existsb (fun step => fst (check_step iv sg (saved_types plan) 0 step (false, []))) plan).
Proof. unfold validatePlanStructure. cbn [fst]. now rewrite check_steps_fst. Qed.

Lemma warn_snd w st : snd (warn w st) = snd st ++ [w].
Proof. reflexivity. Qed.

(** A check only appends warnings, and sets [hasError] when it appends one. *)
Definition appends (st st' : VState) : Prop :=
  exists ws, snd st' = snd st ++ ws /\
             fst st' = fst st || negb (match ws with [] => true | _ => false end).

Lemma appends_refl st : appends st st.
Proof. exists []. rewrite app_nil_r. split; [reflexivity|]. now rewrite orb_false_r. Qed.

Lemma appends_trans st1 st2 st3 : appends st1 st2 -> appends st2 st3 -> appends st1 st3.
Proof.
  intros [ws1 [E1 F1]] [ws2 [E2 F2]]. exists (ws1 ++ ws2). split.
  - rewrite E2, E1. symmetry. apply app_assoc.
  - rewrite F2, F1. destruct ws1, ws2; simpl; destruct (fst st1); reflexivity.
Qed.

Lemma appends_warn st w : appends st (warn w st).
Proof. exists [w]. split; [reflexivity|]. unfold warn. simpl. now rewrite orb_true_r. Qed.

Lemma appends_warn_after st st1 w : appends st st1 -> appends st (warn w st1).
Proof. intros H. eapply appends_trans; [exact H|apply appends_warn]. Qed.

Lemma check_field_appends iv sg refs idx f v st :
  appends st (check_field iv sg refs idx f v st).
Proof.
  unfold check_field. destruct v; try apply appends_refl. cbv zeta.
  destr_ifs; repeat first [apply appends_warn_after | apply appends_refl].
Qed.

Lemma check_fields_appends iv sg refs idx fs st :
  appends st (check_fields iv sg refs idx fs st).
Proof.
  revert st; induction fs as [|[f v] rest IH]; intros st; simpl; [apply appends_refl|].
  eapply appends_trans; [apply check_field_appends|apply IH].
Qed.

Lemma check_step_appends iv sg refs idx step st :
  appends st (check_step iv sg refs idx step st).
Proof.
  unfold check_step. eapply appends_trans; [|apply check_fields_appends].
  destr_ifs; repeat first [apply appends_warn_after | apply appends_refl].
Qed.

Lemma check_steps_appends iv sg refs idx plan st :
  appends st (check_steps iv sg refs idx plan st).
Proof.
  revert idx st; induction plan as [|step rest IH]; intros idx st; simpl; [apply appends_refl|].
  eapply appends_trans; [apply check_step_appends|apply IH].
Qed.

Lemma nat_to_string_digits n : all_chars is_digit (Js.nat_to_string n) = true.
Proof. unfold Js.nat_to_string. induction (Nat.to_uint n); simpl; auto. Qed.

(** A string matching a template whose fifth position is '-' is not made of
    digits only. *)
Lemma dash_template_not_digits p0 p1 p2 p3 rest s :
  match_template (p0 :: p1 :: p2 :: p3 :: Ascii.eqb "-" :: rest) s = true ->
  all_chars is_digit s = false.
Proof.
  intros H. do 5 (destruct s as [|?c s];
    [simpl in H; rewrite ?andb_false_r in H; discriminate H|]).
  cbn [match_template] in H. cbn [all_chars].
  destruct (Ascii.eqb "-" c3) eqn:Ec.
  - apply Ascii.eqb_eq in Ec. subst c3. simpl. now rewrite !andb_false_r.
  - simpl in H. now rewrite !andb_false_r in H.
Qed.

Lemma template_rejects_number tpl n p0 p1 p2 p3 rest :
  tpl = p0 :: p1 :: p2 :: p3 :: Ascii.eqb "-" :: rest ->
  match_template tpl (Js.nat_to_string n) = false.
Proof.
  intros ->. destruct (match_template _ _) eqn:E; [|reflexivity].
  apply dash_template_not_digits in E. now rewrite nat_to_string_digits in E.
Qed.

End ValidatorProofs.

Lemma set_has_iff x s : AMap.set_has x s = true <-> In x s.
Proof.
  split; [apply set_has_true|]. intros H.
  destruct (AMap.set_has x s) eqn:E; [reflexivity|]. now apply set_has_false in E.
Qed.

Module ValidatorExtras.
Import Validator Samples.

(** [validatePlanStructure] returns [true] exactly when it emitted no
    warning. *)
Theorem validatePlanStructure_true_iff_no_warning iv sg plan :
  fst (validatePlanStructure iv sg plan) = true <-> snd (validatePlanStructure iv sg plan) = [].
Proof.
  unfold validatePlanStructure. cbn [fst snd].
  destruct (check_steps_appends iv sg (saved_types plan) 0 plan (false, [])) as [ws [E F]].
  rewrite E, F. simpl. destruct ws; simpl; split; congruence.
Qed.

(** The verdict of [validatePlanStructure] does not depend on the order of
    the steps: a reference to an object type saved by a later step is
    accepted like one saved by an earlier step. *)
Theorem validatePlanStructure_order_independent iv sg plan plan' :
  Permutation plan plan' ->
  fst (validatePlanStructure iv sg plan) = fst (validatePlanStructure iv sg plan').
Proof.
  intros HP. rewrite !validatePlanStructure_fst. f_equal.
  rewrite (existsb_perm _ _ _ HP).
  assert (Hs : forall x, AMap.set_has x (saved_types plan) = AMap.set_has x (saved_types plan'))
    by (intros; now apply saved_types_perm).
  generalize (saved_types plan) (saved_types plan') Hs. intros r1 r2 H. clear HP Hs.
  induction plan' as [|step rest IH]; simpl; auto.
  rewrite IH, (check_step_ext iv sg r1 r2 step H). reflexivity.
Qed.

Lemma validatePlanStructure_order_independent_witness :
  fst (validatePlanStructure (fun _ => true) (fun _ => None)
         [mkStep "Contact" 2 false [("AccountId", FString "@{Account.Id}")];
          mkStep "Account" 2 true [("Name", FString "Acme")]])
  = fst (validatePlanStructure (fun _ => true) (fun _ => None)
         [mkStep "Account" 2 true [("Name", FString "Acme")];
          mkStep "Contact" 2 false [("AccountId", FString "@{Account.Id}")]]).
Proof. apply validatePlanStructure_order_independent. apply perm_swap. Defined.

(** A plan with a step whose [sobject] is empty or whose [count] is 0 is
    rejected. *)
Theorem validatePlanStructure_rejects_empty_step iv sg plan step :
  In step plan -> sobject step = "" \/ count step = 0 ->
  fst (validatePlanStructure iv sg plan) = false.
Proof.
  intros Hin Hbad. rewrite validatePlanStructure_fst. apply negb_false_iff.
  apply existsb_exists. exists step. split; [exact Hin|].
  unfold check_step. rewrite check_fields_fst.
  destruct Hbad as [E|E]; [rewrite E; simpl|].
  - destruct (Nat.eqb (count step) 0); reflexivity.
  - rewrite E. simpl. destruct (String.eqb (sobject step) ""); reflexivity.
Qed.

Lemma validatePlanStructure_rejects_empty_step_witness :
  fst (validatePlanStructure (fun _ => true) (fun _ => None)
         [mkStep "Account" 0 false [("Name", FString "Acme")]]) = false.
Proof.
  apply (validatePlanStructure_rejects_empty_step _ _ _
           (mkStep "Account" 0 false [("Name", FString "Acme")])).
  - now left.
  - now right.
Defined.

(** A plan in which some field holds a reference token [@{X...}] while no
    step of type [X] has [saveRefs] is rejected. *)
Theorem validatePlanStructure_rejects_unsaved_reference iv sg plan step f v :
  In step plan -> In (f, FString v) (fields step) -> Run.is_reference_token v = true ->
  (forall s, In s plan -> saveRefs s = true ->
     sobject s <> nth 0 (Js.split_char "." (Js.slice_from_to_end 2 1 v)) "") ->
  fst (validatePlanStructure iv sg plan) = false.
Proof.
  intros Hin Hf Htok Hnone. rewrite validatePlanStructure_fst. apply negb_false_iff.
  apply existsb_exists. exists step. split; [exact Hin|].
  unfold check_step. rewrite check_fields_fst. apply orb_true_iff. right.
  apply existsb_exists. exists (f, FString v). split; [exact Hf|].
  assert (Hns : AMap.set_has (nth 0 (Js.split_char "." (Js.slice_from_to_end 2 1 v)) "")
                  (saved_types plan) = false).
  { destruct (AMap.set_has _ _) eqn:E; [|reflexivity]. apply set_has_true in E.
    unfold saved_types in E. apply in_map_iff in E as [s [Es Hs]].
    apply filter_In in Hs as [Hs Hsv]. exfalso. exact (Hnone s Hs Hsv Es). }
  unfold check_field. rewrite Htok. cbv zeta. rewrite Hns. simpl negb.
  destr_ifs; reflexivity.
Qed.

Lemma validatePlanStructure_rejects_unsaved_reference_witness :
  fst (validatePlanStructure (fun _ => true) (fun _ => None) account_contact_plan) = false.
Proof.
  apply (validatePlanStructure_rejects_unsaved_reference _ _ _
           (mkStep "Contact" 2 false
              [("LastName", FString "Doe"); ("AccountId", FString "@{Account.Id}")])
           "AccountId" "@{Account.Id}").
  - simpl; auto.
  - simpl; auto.
  - reflexivity.
  - simpl. intros s [<-|[<-|[]]]; discriminate.
Defined.

(** [validateFieldValueType] either accepts without a warning, or rejects
    with exactly one warning and sets [hasError]. *)
Theorem validateFieldValueType_verdict step field value type refTo pm st :
  validateFieldValueType step field value type refTo pm st = (true, st) \/
  exists w, validateFieldValueType step field value type refTo pm st = (false, warn w st).
Proof.
  unfold validateFieldValueType. destruct value; [| | |now left]; cbv zeta;
    destr_ifs; eauto; try apply validateReference_verdict.
Qed.

(** [null] is valid for every field type, and every value is valid for a
    field type the switch does not list (text, picklist, ...). *)
Theorem validateFieldValueType_accepts_null_and_unlisted step field value type refTo pm st :
  value = FNull \/
  ~ In type ["boolean"; "int"; "double"; "currency"; "date"; "datetime"; "reference"] ->
  validateFieldValueType step field value type refTo pm st = (true, st).
Proof.
  intros [->|Hty]; [reflexivity|].
  assert (N : forall t, In t ["boolean"; "int"; "double"; "currency"; "date"; "datetime"; "reference"] ->
              String.eqb type t = false).
  { intros t Ht. apply String.eqb_neq. intros ->. exact (Hty Ht). }
  unfold validateFieldValueType. destruct value; try reflexivity; cbv zeta;
    rewrite !N by (simpl; tauto); reflexivity.
Qed.

Lemma validateFieldValueType_accepts_null_and_unlisted_witness :
  validateFieldValueType "Step 1" "Name" (FNumber 7) "string" [] [] (false, []) = (true, (false, [])).
Proof.
  apply validateFieldValueType_accepts_null_and_unlisted. right. simpl.
  intuition discriminate.
Defined.

(** A [date] or [datetime] field rejects every boolean and every
    non-negative integer (the numbers a [FieldValue] holds): [String(value)]
    of those has no '-', which the patterns require at position 5. *)
Theorem date_types_reject_numbers_and_booleans step field value type refTo pm st :
  type = "date" \/ type = "datetime" ->
  (exists n, value = FNumber n) \/ (exists b, value = FBool b) ->
  fst (validateFieldValueType step field value type refTo pm st) = false.
Proof.
  intros Hty Hv.
  assert (Hn : forall n, match_template date_template (Js.nat_to_string n) = false /\
                         match_template datetime_template (Js.nat_to_string n) = false).
  { intros n. split; eapply template_rejects_number; reflexivity. }
  destruct Hv as [[n ->]|[b ->]]; destruct Hty as [->| ->];
    unfold validateFieldValueType; cbn -[match_template date_template datetime_template];
    try (destruct (Hn n) as [H1 H2]; rewrite ?H1, ?H2; reflexivity);
    destruct b; reflexivity.
Qed.

Lemma date_types_reject_numbers_and_booleans_witness :
  fst (validateFieldValueType "Step 1" "CloseDate" (FNumber 2024) "date" [] [] (false, []))
  = false.
Proof.
  apply date_types_reject_numbers_and_booleans.
  - now left.
  - left. now exists 2024.
Defined.

End ValidatorExtras.

Section MetadataProofs.
Import Validator.

(** The warnings that set [hasError]: all but the describe failure of a
    referenced type. *)
Definition fatal (w : Warning) : bool :=
  match w with CouldNotDescribe _ _ => false | _ => true end.

Definition m_appends (ms ms' : MState) : Prop :=
  exists ws, warnings ms' = (warnings ms ++ ws)%list /\
             hasError ms' = hasError ms || existsb fatal ws.

Lemma m_appends_refl ms : m_appends ms ms.
Proof. exists []. rewrite app_nil_r. simpl. now rewrite orb_false_r. Qed.

Lemma m_appends_trans a b c : m_appends a b -> m_appends b c -> m_appends a c.
Proof.
  intros [w1 [E1 F1]] [w2 [E2 F2]]. exists (w1 ++ w2)%list. split.
  - rewrite E2, E1. symmetry. apply app_assoc.
  - rewrite F2, F1, existsb_app. now rewrite orb_assoc.
Qed.

Lemma m_appends_warn w ms : fatal w = true -> m_appends ms (m_warn w ms).
Proof. intros F. exists [w]. simpl. rewrite F. split; [reflexivity|]. now rewrite orb_true_r. Qed.

Lemma m_appends_record key desc ms : m_appends ms (record_describe key desc ms).
Proof. exists []. rewrite app_nil_r. simpl. now rewrite orb_false_r. Qed.

Lemma describe_refs_appends d idx names ms : m_appends ms (describe_refs d idx names ms).
Proof.
  revert ms; induction names as [|o rest IH]; intros ms; simpl; [apply m_appends_refl|].
  eapply m_appends_trans; [|apply IH].
  destruct (AMap.has o (describedObjects ms)); [apply m_appends_refl|].
  destruct (d o); [apply m_appends_record|].
  exists [CouldNotDescribe (S idx) o]. simpl. split; [reflexivity|]. now rewrite orb_false_r.
Qed.

Lemma validateReference_fatal step field v refTo pm st :
  validateReference step field v refTo pm st = (true, st) \/
  exists w, fatal w = true /\ validateReference step field v refTo pm st = (false, warn w st).
Proof.
  unfold validateReference. cbv zeta. destr_ifs;
    first [left; reflexivity | right; eexists; split; [|reflexivity]; reflexivity].
Qed.

Lemma validateFieldValueType_fatal step field value type refTo pm st :
  validateFieldValueType step field value type refTo pm st = (true, st) \/
  exists w, fatal w = true /\
            validateFieldValueType step field value type refTo pm st = (false, warn w st).
Proof.
  unfold validateFieldValueType. destruct value; [| | |now left]; cbv zeta; destr_ifs;
    first [left; reflexivity | right; eexists; split; [|reflexivity]; reflexivity
          | apply validateReference_fatal].
Qed.

Lemma check_meta_field_appends d idx sobj od f v ms :
  m_appends ms (check_meta_field d idx sobj od f v ms).
Proof.
  unfold check_meta_field.
  destruct (find _ (d_fields od)) as [fm|]; [|now apply m_appends_warn].
  cbv zeta.
  set (refTo := match fm_referenceTo fm with Some l => l | None => [] end).
  set (ms1 := describe_refs d idx refTo ms).
  assert (H1 : m_appends ms ms1) by apply describe_refs_appends.
  eapply m_appends_trans; [exact H1|].
  destruct (validateFieldValueType_fatal ("Step " ++ Js.nat_to_string (S idx)) f v (fm_type fm)
              refTo (prefixMap ms1) (false, warnings ms1)) as [E|[w [F E]]]; rewrite E.
  - exists []. rewrite app_nil_r. simpl. split; reflexivity.
  - exists [w]. simpl. rewrite F. split; [reflexivity|]. destruct (hasError ms1); reflexivity.
Qed.

Lemma check_meta_fields_appends d idx sobj od fs ms :
  m_appends ms (check_meta_fields d idx sobj od fs ms).
Proof.
  revert ms; induction fs as [|[f v] rest IH]; intros ms; simpl; [apply m_appends_refl|].
  eapply m_appends_trans; [apply check_meta_field_appends|apply IH].
Qed.

Lemma check_meta_step_appends d idx step ms : m_appends ms (check_meta_step d idx step ms).
Proof.
  unfold check_meta_step. destruct (d (sobject step)); [|now apply m_appends_warn].
  eapply m_appends_trans; [apply m_appends_record|apply check_meta_fields_appends].
Qed.

Lemma check_meta_steps_appends d idx plan ms : m_appends ms (check_meta_steps d idx plan ms).
Proof.
  revert idx ms; induction plan as [|step rest IH]; intros idx ms; simpl; [apply m_appends_refl|].
  eapply m_appends_trans; [apply check_meta_step_appends|apply IH].
Qed.

Lemma check_meta_steps_missing d idx plan ms step e :
  In step plan -> d (sobject step) = Raises e ->
  exists i, In (SObjectMissing i (sobject step)) (warnings (check_meta_steps d idx plan ms)).
Proof.
  revert idx ms; induction plan as [|s rest IH]; intros idx ms Hin Hd; [destruct Hin|].
  destruct Hin as [->|Hin]; simpl; [|now apply IH].
  destruct (check_meta_steps_appends d (S idx) rest (check_meta_step d idx step ms)) as [ws [E _]].
  exists (S idx). rewrite E. apply in_or_app. left.
  unfold check_meta_step. rewrite Hd. simpl. apply in_or_app. right. now left.
Qed.

Lemma validateMetadata_fst_iff d plan :
  fst (validateMetadata d plan) = true <->
  (forall w, In w (snd (validateMetadata d plan)) -> exists i o, w = CouldNotDescribe i o).
Proof.
  unfold validateMetadata. cbn [fst snd].
  destruct (check_meta_steps_appends d 0 plan (mkMState false [] [] [])) as [ws [E F]].
  rewrite E, F. simpl. split.
  - intros H w Hw. apply negb_true_iff in H.
    destruct w; try (exfalso; assert (existsb fatal ws = true)
                       by (apply existsb_exists; eexists; split; [exact Hw|reflexivity]);
                     congruence).
    eauto.
  - intros H. apply negb_true_iff. destruct (existsb fatal ws) eqn:Ex; [|reflexivity].
    apply existsb_exists in Ex as [w [Hw Fw]]. destruct (H w Hw) as [i [o ->]]. discriminate.
Qed.

End MetadataProofs.

Module MetadataExtras.
Import Validator.

(** [validateMetadata] returns [true] exactly when every warning it emitted
    is a failed describe of a referenced type ("Could not describe ... for
    ID validation"): those are reported without failing the validation. *)
Theorem validateMetadata_true_iff_only_describe_warnings d plan :
  fst (validateMetadata d plan) = true <->
  (forall w, In w (snd (validateMetadata d plan)) -> exists i o, w = CouldNotDescribe i o).
Proof. apply validateMetadata_fst_iff. Qed.

(** A plan with a step whose object type cannot be described fails
    [validateMetadata], with the "does not exist in org" warning for it. *)
Theorem validateMetadata_rejects_undescribable_step d plan step e :
  In step plan -> d (sobject step) = Raises e ->
  fst (validateMetadata d plan) = false /\
  exists i, In (SObjectMissing i (sobject step)) (snd (validateMetadata d plan)).
Proof.
  intros Hin Hd.
  destruct (check_meta_steps_missing d 0 plan (mkMState false [] [] []) step e Hin Hd) as [i Hi].
  split; [|exists i; exact Hi].
  destruct (fst (validateMetadata d plan)) eqn:R; [|reflexivity].
  pose proof (proj1 (validateMetadata_fst_iff d plan) R) as R'.
  destruct (R' _ Hi) as [? [? E]]. discriminate.
Qed.

Lemma validateMetadata_rejects_undescribable_step_witness :
  fst (validateMetadata Samples.no_org Samples.lead_plan) = false /\
  exists i, In (SObjectMissing i "Lead") (snd (validateMetadata Samples.no_org Samples.lead_plan)).
Proof.
  apply (validateMetadata_rejects_undescribable_step Samples.no_org Samples.lead_plan
           (mkStep "Lead" 3 false [("LastName", FString "x")]) (ExnError "NOT_FOUND")).
  - now left.
  - reflexivity.
Defined.

End MetadataExtras.

(** ** The seeding run ([run.ts]): processStep and the step loop *)

Section RunProofs.
Import Run.

Lemma build_records_length faker step i n isDryRun referenceMap draws :
  length (fst (build_records faker step i n isDryRun referenceMap draws)) = n.
Proof.
  revert i; induction n as [|n IH]; intros i; simpl; [reflexivity|].
  destruct (build_fields faker (fields step) i 0 isDryRun referenceMap draws []).
  specialize (IH (S i)).
  destruct (build_records faker step (S i) n isDryRun referenceMap draws). simpl in *. lia.
Qed.

Lemma set_keys_new {V} k (v : V) m :
  ~ In k (map fst m) -> map fst (AMap.set k v m) = map fst m ++ [k].
Proof.
  induction m as [|[k' v'] m IH]; simpl; [reflexivity|]. intros Hn.
  destruct (String.eqb_spec k k') as [->|Hne]; [exfalso; auto|].
  simpl. rewrite IH; auto.
Qed.

Lemma build_fields_keys faker fs i j isDryRun referenceMap draws record :
  NoDup (map fst fs) -> (forall x, In x (map fst fs) -> ~ In x (map fst record)) ->
  map fst (fst (build_fields faker fs i j isDryRun referenceMap draws record))
    = map fst record ++ map fst fs.
Proof.
  revert j record; induction fs as [|[field value] rest IH]; intros j record Hnd Hdis; simpl.
  - now rewrite app_nil_r.
  - destruct (processValue faker value i isDryRun referenceMap (draws i j)) as [v w].
    inversion Hnd as [|? ? Hn Hnd']; subst.
    specialize (IH (S j) (AMap.set field v record) Hnd').
    rewrite set_keys_new in IH by (apply Hdis; now left).
    destruct (build_fields faker rest i (S j) isDryRun referenceMap draws
                (AMap.set field v record)) as [r w'].
    simpl in *. rewrite IH, <- app_assoc; [reflexivity|].
    intros x Hx Hin. apply in_app_or in Hin as [Hin|[<-|[]]].
    + exact (Hdis x (or_intror Hx) Hin).
    + exact (Hn Hx).
Qed.

Lemma build_records_keys faker step i n isDryRun referenceMap draws :
  NoDup (map fst (fields step)) ->
  forall r, In r (fst (build_records faker step i n isDryRun referenceMap draws)) ->
  map fst r = map fst (fields step).
Proof.
  intros Hnd. revert i; induction n as [|n IH]; intros i r; simpl; [tauto|].
  pose proof (build_fields_keys faker (fields step) i 0 isDryRun referenceMap draws []
                Hnd (fun _ _ H => H)) as Hk.
  specialize (IH (S i) r).
  destruct (build_fields faker (fields step) i 0 isDryRun referenceMap draws []) as [r0 w].
  destruct (build_records faker step (S i) n isDryRun referenceMap draws) as [rs w'].
  simpl in *. intros [<-|Hin]; auto.
Qed.

(** A dry run of one step, whatever the connection. *)
Lemma processStep_dry faker step referenceMap out draws l :
  exists l' rs,
    (forall bulk_load,
       processStep faker bulk_load step true referenceMap out draws l =
         (l', Returns (referenceMap,
                       if Nat.eqb (count step) 0 then out
                       else AMap.set (sobject step) rs out))) /\
    length rs = count step.
Proof.
  pose proof (build_records_length faker step 0 (count step) true referenceMap draws) as Hlen.
  unfold processStep.
  destruct (build_records faker step 0 (count step) true referenceMap draws)
    as [records w] eqn:E.
  simpl in Hlen.
  unfold Cmd.bind, Cmd.emit, Cmd.emit_all, Cmd.ret.
  destruct records as [|r0 rs].
  - eexists; exists []. split; [|exact Hlen].
    intros bl. rewrite <- Hlen. reflexivity.
  - eexists; exists (r0 :: rs). split; [|exact Hlen].
    intros bl. rewrite <- Hlen. reflexivity.
Qed.

Lemma run_steps_dry faker plan k referenceMap out draws l :
  exists l' out',
    (forall bulk_load,
       run_steps faker bulk_load plan k true referenceMap out draws l =
         (l', Returns (referenceMap, out'))) /\
    (forall s rs, AMap.get s out' = Some rs ->
       AMap.get s out = Some rs \/
       exists step, In step plan /\ sobject step = s /\ 0 < count step /\
                    length rs = count step).
Proof.
  revert k out l; induction plan as [|step rest IH]; intros k out l.
  - exists l, out. split; [reflexivity|]. auto.
  - destruct (processStep_dry faker step referenceMap out (draws k) l) as [l1 [rs [Hp Hl]]].
    set (out1 := if Nat.eqb (count step) 0 then out else AMap.set (sobject step) rs out).
    destruct (IH (S k) out1 l1) as [l' [out' [Hr Hg]]].
    exists l', out'. split.
    + intros bl. simpl. unfold Cmd.bind at 1. rewrite Hp. exact (Hr bl).
    + intros s rs' Hs. destruct (Hg s rs' Hs) as [H1|[st [Hin Hst]]].
      * unfold out1 in H1. destruct (Nat.eqb_spec (count step) 0); [auto|].
        destruct (String.eqb_spec s (sobject step)) as [->|Hne].
        -- rewrite get_set_same in H1. inversion H1; subst. right.
           exists step. split; [now left|]. split; [reflexivity|]. lia.
        -- rewrite get_set_other in H1 by exact Hne. auto.
      * right. exists st. split; [now right|exact Hst].
Qed.

(** A real run of one step whose insert returns. *)
Lemma processStep_real faker bulk_load step referenceMap out draws l :
  (forall rs, exists res, bulk_load (sobject step) rs = Returns res) ->
  exists l' referenceMap',
    processStep faker bulk_load step false referenceMap out draws l =
      (l', Returns (referenceMap', out)) /\
    (forall s v, AMap.get s referenceMap' = Some v ->
       AMap.get s referenceMap = Some v \/
       (saveRefs step = true /\ sobject step = s /\ forall r, In r v -> isSuccess r = true)).
Proof.
  intros Hb. unfold processStep.
  destruct (build_records faker step 0 (count step) false referenceMap draws)
    as [records w] eqn:E.
  unfold Cmd.bind, Cmd.emit, Cmd.emit_all, Cmd.ret.
  destruct records as [|r0 rs].
  - eexists; exists referenceMap. split; [reflexivity|]. auto.
  - unfold Cmd.try_catch, Cmd.lift.
    destruct (Hb (r0 :: rs)) as [res Hres]. rewrite Hres.
    unfold record_results, Cmd.bind, Cmd.emit, Cmd.emit_all, Cmd.ret.
    set (rm' := if saveRefs step then AMap.set (sobject step) (filter isSuccess res) referenceMap
                else referenceMap).
    assert (Hrm : forall s v, AMap.get s rm' = Some v ->
              AMap.get s referenceMap = Some v \/
              (saveRefs step = true /\ sobject step = s /\
               forall r, In r v -> isSuccess r = true)).
    { intros s v Hs. unfold rm' in Hs. destruct (saveRefs step) eqn:Hsv; [|auto].
      destruct (String.eqb_spec s (sobject step)) as [->|Hne].
      - rewrite get_set_same in Hs. inversion Hs; subst. right.
        split; [reflexivity|]. split; [reflexivity|].
        intros r Hr. apply filter_In in Hr. exact (proj2 Hr).
      - rewrite get_set_other in Hs by exact Hne. auto. }
    destruct (Nat.ltb 0 (length (filter (fun r => negb (isSuccess r)) res)));
      eexists; exists rm'; (split; [reflexivity|exact Hrm]).
Qed.

Lemma run_steps_real faker bulk_load plan k referenceMap out draws l :
  (forall s rs, exists res, bulk_load s rs = Returns res) ->
  exists l' referenceMap',
    run_steps faker bulk_load plan k false referenceMap out draws l =
      (l', Returns (referenceMap', out)) /\
    (forall s v, AMap.get s referenceMap' = Some v ->
       AMap.get s referenceMap = Some v \/
       exists step, In step plan /\ saveRefs step = true /\ sobject step = s /\
                    forall r, In r v -> isSuccess r = true).
Proof.
  intros Hb. revert k referenceMap l; induction plan as [|step rest IH]; intros k rm l.
  - exists l, rm. split; [reflexivity|]. auto.
  - destruct (processStep_real faker bulk_load step rm out (draws k) l (Hb (sobject step)))
      as [l1 [rm1 [Hp Hg1]]].
    destruct (IH (S k) rm1 l1) as [l' [rm' [Hr Hg]]].
    exists l', rm'. split.
    + simpl. unfold Cmd.bind at 1. rewrite Hp. exact Hr.
    + intros s v Hs. destruct (Hg s v Hs) as [H1|[st [Hin Hst]]].
      * destruct (Hg1 s v H1) as [H2|[H3 [H4 H5]]]; [auto|].
        right. exists step. split; [now left|]. auto.
      * right. exists st. split; [now right|exact Hst].
Qed.

End RunProofs.

Module RunExtras.
Import Run Samples.

(** A dry run of a step with a positive count never calls the insert: its
    outcome is the same for every connection, the reference map is left as it
    was, and the step's [count] built records are stored under its object type
    in the dry-run output, after the "Inserting" log and the expansion
    warnings. *)
Theorem processStep_dry_run_stores_records faker bulk_load step referenceMap out draws l :
  0 < count step ->
  processStep faker bulk_load step true referenceMap out draws l =
    (l ++ [LogInserting (sobject step) (count step)]
       ++ snd (build_records faker step 0 (count step) true referenceMap draws),
     Returns (referenceMap,
              AMap.set (sobject step)
                (fst (build_records faker step 0 (count step) true referenceMap draws)) out)) /\
  length (fst (build_records faker step 0 (count step) true referenceMap draws)) = count step.
Proof.
  intros Hc. split; [|apply build_records_length].
  pose proof (build_records_length faker step 0 (count step) true referenceMap draws) as Hne.
  unfold processStep.
  destruct (build_records faker step 0 (count step) true referenceMap draws)
    as [records w] eqn:E.
  simpl in Hne. destruct records as [|r0 rs]; [simpl in Hne; lia|].
  unfold Cmd.bind, Cmd.emit, Cmd.emit_all, Cmd.ret. simpl.
  now rewrite <- app_assoc.
Qed.

Lemma processStep_dry_run_stores_records_witness :
  processStep sample_faker (fun _ _ => Raises ExnOther)
    (mkStep "Account" 1 false [("Name", FString "Acme")]) true [] [] (fun _ _ => half) [] =
    ([] ++ [LogInserting "Account" 1]
        ++ snd (build_records sample_faker (mkStep "Account" 1 false [("Name", FString "Acme")])
                  0 1 true [] (fun _ _ => half)),
     Returns ([], AMap.set "Account"
                    (fst (build_records sample_faker
                            (mkStep "Account" 1 false [("Name", FString "Acme")])
                            0 1 true [] (fun _ _ => half))) [])) /\
  length (fst (build_records sample_faker (mkStep "Account" 1 false [("Name", FString "Acme")])
                 0 1 true [] (fun _ _ => half))) = 1.
Proof.
  apply (processStep_dry_run_stores_records sample_faker (fun _ _ => Raises ExnOther)
           (mkStep "Account" 1 false [("Name", FString "Acme")])).
  simpl. lia.
Defined.

(** A step with [count] 0 builds no records: [processStep] logs "Inserting 0
    record(s)", warns "No records to create", and changes neither map nor
    calls the insert, in a dry run and in a real one. *)
Theorem processStep_zero_count faker bulk_load step isDryRun referenceMap out draws l :
  count step = 0 ->
  processStep faker bulk_load step isDryRun referenceMap out draws l =
    (l ++ [LogInserting (sobject step) 0; WarnNoRecords (sobject step)],
     Returns (referenceMap, out)).
Proof.
  intros Hc. unfold processStep. rewrite Hc. simpl.
  unfold Cmd.bind, Cmd.emit, Cmd.emit_all, Cmd.ret.
  now rewrite <- !app_assoc.
Qed.

Lemma processStep_zero_count_witness :
  processStep sample_faker (fun _ _ => Raises ExnOther)
    (mkStep "Lead" 0 true [("LastName", FString "x")]) false [] [] (fun _ _ => half) [] =
    ([] ++ [LogInserting "Lead" 0; WarnNoRecords "Lead"], Returns ([], [])).
Proof.
  apply (processStep_zero_count sample_faker (fun _ _ => Raises ExnOther)
           (mkStep "Lead" 0 true [("LastName", FString "x")])).
  reflexivity.
Defined.

(** When the insert of a real run throws, [processStep] reports
    "Failed inserting <sobject>: <message>" through [this.error], which ends
    the command with that error; nothing is logged after it. *)
Theorem processStep_insert_failure faker bulk_load step referenceMap out draws l e :
  0 < count step ->
  bulk_load (sobject step)
    (fst (build_records faker step 0 (count step) false referenceMap draws)) = Raises e ->
  processStep faker bulk_load step false referenceMap out draws l =
    (l ++ [LogInserting (sobject step) (count step)]
       ++ snd (build_records faker step 0 (count step) false referenceMap draws)
       ++ [ErrorReported ("Failed inserting " ++ sobject step ++ ": " ++ exn_message e)%string],
     Raises (ExnError ("Failed inserting " ++ sobject step ++ ": " ++ exn_message e)%string)).
Proof.
  intros Hc Hb.
  pose proof (build_records_length faker step 0 (count step) false referenceMap draws) as Hne.
  unfold processStep.
  destruct (build_records faker step 0 (count step) false referenceMap draws)
    as [records w] eqn:E.
  simpl in Hne, Hb. destruct records as [|r0 rs]; [simpl in Hne; lia|].
  unfold Cmd.bind, Cmd.emit, Cmd.emit_all, Cmd.try_catch, Cmd.lift.
  rewrite Hb. unfold Cmd.this_error, Cmd.bind, Cmd.emit, Cmd.throw. simpl.
  now rewrite <- !app_assoc.
Qed.

Lemma processStep_insert_failure_witness :
  processStep sample_faker (fun _ _ => Raises (ExnError "timeout"))
    (mkStep "Account" 1 true [("Name", FString "Acme")]) false [] [] (fun _ _ => half) [] =
    ([] ++ [LogInserting "Account" 1]
        ++ snd (build_records sample_faker (mkStep "Account" 1 true [("Name", FString "Acme")])
                  0 1 false [] (fun _ _ => half))
        ++ [ErrorReported "Failed inserting Account: timeout"],
     Raises (ExnError "Failed inserting Account: timeout")).
Proof.
  apply (processStep_insert_failure sample_faker (fun _ _ => Raises (ExnError "timeout"))
           (mkStep "Account" 1 true [("Name", FString "Acme")]) [] [] (fun _ _ => half) []
           (ExnError "timeout")).
  - simpl. lia.
  - reflexivity.
Defined.

(** [processStep] builds exactly [count] records, and when the field names
    of the step are distinct every record has exactly those fields, in the
    step's order. *)
Theorem build_records_shape faker step isDryRun referenceMap draws :
  NoDup (map fst (fields step)) ->
  length (fst (build_records faker step 0 (count step) isDryRun referenceMap draws))
    = count step /\
  forall r, In r (fst (build_records faker step 0 (count step) isDryRun referenceMap draws)) ->
    map fst r = map fst (fields step).
Proof.
  intros Hnd. split.
  - apply build_records_length.
  - apply build_records_keys. exact Hnd.
Qed.

Lemma build_records_shape_witness :
  length (fst (build_records sample_faker (mkStep "Contact" 2 false
                 [("LastName", FString "Doe"); ("AccountId", FString "@{Account.Id}")])
                 0 2 false [] (fun _ _ => half))) = 2 /\
  forall r, In r (fst (build_records sample_faker (mkStep "Contact" 2 false
                 [("LastName", FString "Doe"); ("AccountId", FString "@{Account.Id}")])
                 0 2 false [] (fun _ _ => half))) ->
    map fst r = ["LastName"; "AccountId"].
Proof.
  apply (build_records_shape sample_faker (mkStep "Contact" 2 false
           [("LastName", FString "Doe"); ("AccountId", FString "@{Account.Id}")])).
  simpl. constructor; [simpl; intros [H|[]]; discriminate|].
  constructor; [intros []|constructor].
Defined.

(** A dry run of a plan never touches the org: its outcome is the same for
    every connection, it always completes, the reference map is left as it
    was (so no reference token is ever resolved from it), and every entry of
    the dry-run output comes from a step of the plan with a positive count
    and holds that many records. *)
Theorem run_steps_dry_run faker bulk_load1 bulk_load2 plan referenceMap out draws l :
  run_steps faker bulk_load1 plan 0 true referenceMap out draws l =
    run_steps faker bulk_load2 plan 0 true referenceMap out draws l /\
  exists out',
    snd (run_steps faker bulk_load1 plan 0 true referenceMap out draws l)
      = Returns (referenceMap, out') /\
    forall s rs, AMap.get s out' = Some rs ->
      AMap.get s out = Some rs \/
      exists step, In step plan /\ sobject step = s /\ 0 < count step /\
                   length rs = count step.
Proof.
  destruct (run_steps_dry faker plan 0 referenceMap out draws l) as [l' [out' [Hr Hg]]].
  rewrite !Hr. split; [reflexivity|]. exists out'. split; [reflexivity|exact Hg].
Qed.

(** When every insert returns, a real run completes, leaves the dry-run
    output untouched, and every object type it adds to the reference map
    belongs to a [saveRefs] step of the plan and holds only successful
    results. *)
Theorem run_steps_real_run_references faker bulk_load plan referenceMap out draws l :
  (forall s rs, exists res, bulk_load s rs = Returns res) ->
  exists l' referenceMap',
    run_steps faker bulk_load plan 0 false referenceMap out draws l =
      (l', Returns (referenceMap', out)) /\
    (forall s v, AMap.get s referenceMap' = Some v ->
       AMap.get s referenceMap = Some v \/
       exists step, In step plan /\ saveRefs step = true /\ sobject step = s /\
                    forall r, In r v -> isSuccess r = true).
Proof. intros Hb. apply run_steps_real. exact Hb. Qed.

Lemma run_steps_real_run_references_witness :
  exists l' referenceMap',
    run_steps sample_faker (fun _ _ => Returns [mkResult true (Some "001A") []])
      account_contact_plan 0 false [] [] (fun _ _ _ => half) [] =
      (l', Returns (referenceMap', [])) /\
    (forall s v, AMap.get s referenceMap' = Some v ->
       AMap.get s [] = Some v \/
       exists step, In step account_contact_plan /\ saveRefs step = true /\ sobject step = s /\
                    forall r, In r v -> isSuccess r = true).
Proof.
  apply (run_steps_real_run_references sample_faker
           (fun _ _ => Returns [mkResult true (Some "001A") []])).
  intros s rs. eexists. reflexivity.
Defined.

End RunExtras.

Module ReferenceExtras.
Import Validator.

(** [validateReference] accepts a value exactly when it is a reference
    token ["@{...}"] whose object type is one of [referenceTo], or, not being
    a token, a 15 to 18 character alphanumeric id whose 3-character prefix is
    mapped to a non-empty object type of [referenceTo]; an accepted value
    emits no warning and leaves [hasError] as it was. *)
Theorem validateReference_accepts_iff step field value referenceTo prefixMap st :
  (fst (validateReference step field value referenceTo prefixMap st) = true <->
   (Run.is_reference_token value = true /\ In (Run.ref_key value) referenceTo) \/
   (Run.is_reference_token value = false /\ static_id_format value = true /\
    exists objectName, AMap.get (Js.take 3 value) prefixMap = Some objectName /\
                       objectName <> "" /\ In objectName referenceTo)) /\
  (fst (validateReference step field value referenceTo prefixMap st) = true ->
   snd (validateReference step field value referenceTo prefixMap st) = st).
Proof.
  unfold validateReference.
  destruct (Run.is_reference_token value) eqn:Ht.
  - destruct (AMap.set_has (Run.ref_key value) referenceTo) eqn:Hs; simpl.
    + split; [|reflexivity]. split; [intros _; left; split; [reflexivity|]; now apply set_has_iff|].
      intros _; reflexivity.
    + split; [|discriminate]. split; [discriminate|].
      intros [[_ Hin]|[H _]]; [|discriminate].
      apply set_has_iff in Hin. congruence.
  - destruct (static_id_format value) eqn:Hf.
    + destruct (AMap.get (Js.take 3 value) prefixMap) as [o|] eqn:Hg.
      * destruct (String.eqb_spec o "") as [Ho|Ho];
          [|destruct (AMap.set_has o referenceTo) eqn:Hs]; simpl.
        -- split; [|discriminate]. split; [discriminate|].
           intros [[H _]|[_ [_ [o' [Hg' [Hne _]]]]]]; [discriminate|].
           inversion Hg'; subst. contradiction.
        -- split; [|reflexivity]. split; [|reflexivity]. intros _. right.
           split; [reflexivity|]. split; [reflexivity|]. exists o.
           split; [reflexivity|]. split; [exact Ho|]. now apply set_has_iff.
        -- split; [|discriminate]. split; [discriminate|].
           intros [[H _]|[_ [_ [o' [Hg' [_ Hin]]]]]]; [discriminate|].
           inversion Hg'; subst.
           apply set_has_iff in Hin. congruence.
      * simpl. split; [|discriminate]. split; [discriminate|].
        intros [[H _]|[_ [_ [o' [Hg' _]]]]]; [discriminate|]. congruence.
    + simpl. split; [|discriminate]. split; [discriminate|].
      intros [[H _]|[_ [H _]]]; discriminate.
Qed.

End ReferenceExtras.
